(** * Rootfinder: the implicit-equation solver node of CasADi

    A shallow embedding of [casadi/core/function/rootfinder.cpp]:
    [Rootfinder::init], [Rootfinder::sp_fwd], [Rootfinder::sp_rev],
    [Rootfinder::forward] and [Rootfinder::reverse], followed by the
    properties of these five member functions.

    The classes the node is written against ([MX], [Function], [Sparsity],
    [Linsol], [GenericType]) live in other translation units; they enter
    through the interface [Casadi] below, one field per member function the
    node calls. *)

From Stdlib Require Import ZArith Lia.
From stdpp Require Import base functions list strings gmap.

Open Scope Z_scope.

(** ** Exceptions and the call monad *)

(** A piece of the text streamed into [casadi_assert_message]. *)
Inductive msg_item :=
| Str (s : string)
| Num (z : Z).

(** What a member function can end with instead of a value. *)
Inductive exception :=
| out_of_range                         (* std::vector::at beyond the end *)
| undefined_behaviour                  (* operator[] or front() beyond the end *)
| casadi_assert (msg : list msg_item)  (* casadi_assert_message failed *)
| foreign (what : string).             (* thrown by a collaborator *)

Inductive result (A : Type) :=
| Ok (a : A)
| Err (e : exception).
Arguments Ok {A} a.
Arguments Err {A} e.

(** Word of dependency bits, [unsigned long long] in the source. *)
Abbreviation bvec_t := Z (only parsing).

(** Where a [bvec_t*] can point: the two scratch regions that [sp_fwd] and
    [sp_rev] carve out of the work vector [w], or a buffer of the caller. *)
Inductive target :=
| Wtmp1
| Wtmp2
| Caller (l : nat).

#[global] Instance target_eq_dec : EqDecision target.
Proof. solve_decision. Defined.

Inductive pointer :=
| null
| ptr (t : target).

#[global] Instance pointer_eq_dec : EqDecision pointer.
Proof. solve_decision. Defined.

(** The words stored behind every target. *)
Abbreviation memory := (target -> list bvec_t) (only parsing).

(** [std::pair<int,int>], the result of [size_in] and [size_out]. *)
Definition Shape := (Z * Z)%type.

(** ** The collaborators *)

Class Casadi := {
  (* MX: symbolic matrix expressions *)
  MX : Type;
  MX_default : MX;                           (* MX() *)
  MX_zeros : Shape -> MX;                    (* MX(const std::pair<int,int>&) *)
  is_empty : MX -> bool -> bool;             (* x.is_empty(both) *)
  vec : MX -> MX;
  reshape : MX -> Shape -> MX;
  horzcat : list MX -> MX;
  horzsplit : MX -> list MX;
  MX_neg : MX -> MX;                         (* unary operator- *)
  MX_add : MX -> MX -> MX;                   (* operator+ and operator+= *)
  (* Linsol and Dict *)
  Linsol : Type;
  Linsol_default : Linsol;                   (* Linsol() *)
  GenericType : Type;
  Linsol_new : string -> string -> list (string * GenericType) -> result Linsol;
  getSolve : MX -> MX -> bool -> Linsol -> MX; (* J->getSolve(rhs, tr, linsol) *)
  (* Sparsity *)
  Sparsity : Type;
  Sparsity_default : Sparsity;               (* Sparsity() *)
  is_dense : Sparsity -> bool;
  is_column : Sparsity -> bool;
  size1 : Sparsity -> Z;
  sprank : Sparsity -> Z;
  spsolve : Sparsity -> list bvec_t -> list bvec_t -> bool -> list bvec_t;
  (* Function *)
  Function : Type;
  Function_null : Function;                  (* Function() *)
  is_null : Function -> bool;
  n_in : Function -> Z;
  n_out : Function -> Z;
  sparsity_in : Function -> Z -> Sparsity;
  sparsity_out : Function -> Z -> Sparsity;
  nnz_in : Function -> Z -> nat;
  nnz_out : Function -> Z -> nat;
  sz_w : Function -> nat;
  jacobian : Function -> Z -> Z -> result Function;
  Function_call : Function -> list MX -> list MX;
  Function_forward : Function -> list MX -> list MX -> list (list MX) ->
                     list (list MX) -> bool -> bool -> list (list MX);
  Function_reverse : Function -> list MX -> list MX -> list (list MX) ->
                     list (list MX) -> bool -> bool -> list (list MX);
  Function_sp_fwd : Function -> list pointer -> list pointer -> memory -> memory;
  Function_sp_rev : Function -> list pointer -> list pointer -> memory -> memory;
  (* GenericType conversions *)
  as_int : GenericType -> result Z;
  as_int_vector : GenericType -> result (list Z);
  as_function : GenericType -> result Function;
  as_dict : GenericType -> result (list (string * GenericType));
  to_string : GenericType -> result string;
  (* OracleFunction::init, the base class initializer *)
  OracleFunction_init : list (string * GenericType) -> Function -> result unit
}.

(** [Dict]: the entries in the order the range-for visits them. *)
Definition Dict `{Casadi} := list (string * GenericType).

Section Model.
Context `{Casadi}.

(** Calls into the collaborators that the differentiation code makes. *)
Inductive event :=
| oracle_forward_call (f_arg f_res : list MX) (f_fseed : list (list MX))
| oracle_reverse_call (f_arg f_res : list MX) (f_aseed : list (list MX))
| jac_call (f_arg : list MX)
| linear_solve (J rhs : MX) (tr : bool).

(** A computation: the calls made so far and how it ended. *)
Definition M (A : Type) : Type := (list event * result A)%type.

Definition ret {A} (a : A) : M A := ([], Ok a).
Definition throw {A} (e : exception) : M A := ([], Err e).
Definition emit (ev : event) : M unit := ([ev], Ok tt).
Definition lift {A} (r : result A) : M A := ([], r).

Definition bind {A B} (c : M A) (f : A -> M B) : M B :=
  match c with
  | (t, Ok a) => let '(t', r) := f a in (t ++ t', r)
  | (t, Err e) => (t, Err e)
  end.

End Model.

Notation "x <- c ;; k" := (bind c (fun x => k))
  (at level 100, c at next level, right associativity).
Notation "c ;;; k" := (bind c (fun _ => k))
  (at level 100, right associativity).

Section Vectors.
Context `{Casadi} {A : Type}.

(** [v.at(i)] as an rvalue. *)
Definition at_ (v : list A) (i : Z) : M A :=
  if (0 <=? i) && (i <? Z.of_nat (length v))
  then match v !! Z.to_nat i with Some x => ret x | None => throw out_of_range end
  else throw out_of_range.

(** [v.at(i) = x]. *)
Definition set_at (v : list A) (i : Z) (x : A) : M (list A) :=
  if (0 <=? i) && (i <? Z.of_nat (length v))
  then ret (<[Z.to_nat i := x]> v)
  else throw out_of_range.

(** [v[i]] as an rvalue, with an [int] index. *)
Definition index (v : list A) (i : Z) : M A :=
  if (0 <=? i) && (i <? Z.of_nat (length v))
  then match v !! Z.to_nat i with Some x => ret x | None => throw undefined_behaviour end
  else throw undefined_behaviour.

(** [v[i] = x]. *)
Definition set_index (v : list A) (i : Z) (x : A) : M (list A) :=
  if (0 <=? i) && (i <? Z.of_nat (length v))
  then ret (<[Z.to_nat i := x]> v)
  else throw undefined_behaviour.

(** [v.front()]. *)
Definition front (v : list A) : M A :=
  match v with
  | x :: _ => ret x
  | [] => throw undefined_behaviour
  end.

(** [for (int d=from; d<from+count; ++d) body], threading the variables the
    body assigns. *)
Fixpoint for_from {S : Type} (body : Z -> S -> M S) (from : Z) (count : nat) (s : S)
  : M S :=
  match count with
  | O => ret s
  | Datatypes.S k => s' <- body from s ;; for_from body (from + 1) k s'
  end.

(** [for (int d=0; d<n; ++d) body]. *)
Definition for_ {S : Type} (n : Z) (body : Z -> S -> M S) (s : S) : M S :=
  for_from body 0 (Z.to_nat n) s.

End Vectors.

(** ** The node *)

Record Rootfinder `{Casadi} := {
  (* FunctionInternal, the node's own interface *)
  this_n_in : Z;                      (* n_in() *)
  this_n_out : Z;                     (* n_out() *)
  this_size_in : Z -> Shape;          (* size_in(i) *)
  this_size_out : Z -> Shape;         (* size_out(i) *)
  sz_w_ : Z;                          (* grown by alloc_w *)
  (* OracleFunction *)
  oracle_ : Function;
  all_functions_ : gmap string Function;   (* set_function / get_function *)
  (* Rootfinder *)
  n_ : Z;
  linsol_ : Linsol;
  sp_jac_ : Sparsity;
  u_c_ : list Z;
  iin_ : Z;
  iout_ : Z
}.

Section Methods.
Context `{Casadi}.

(** [OracleFunction::get_function(name)]: the function stored under [name]
    by [set_function]; asking for a name that was never stored fails. *)
Definition get_function (self : Rootfinder) (name : string) : M Function :=
  match all_functions_ self !! name with
  | Some f => ret f
  | None => throw (casadi_assert [Str "No function "; Str name])
  end.

(** [oracle_->forward(f_arg, f_res, f_fseed, fsens, always_inline, never_inline)];
    [fsens] is passed by reference and comes back rewritten. *)
Definition oracle_forward (self : Rootfinder) (f_arg f_res : list MX)
    (f_fseed fsens : list (list MX)) (always_inline never_inline : bool)
  : M (list (list MX)) :=
  emit (oracle_forward_call f_arg f_res f_fseed) ;;;
  ret (Function_forward (oracle_ self) f_arg f_res f_fseed fsens
         always_inline never_inline).

(** [oracle_->reverse(f_arg, f_res, f_aseed, asens, always_inline, never_inline)]. *)
Definition oracle_reverse (self : Rootfinder) (f_arg f_res : list MX)
    (f_aseed asens : list (list MX)) (always_inline never_inline : bool)
  : M (list (list MX)) :=
  emit (oracle_reverse_call f_arg f_res f_aseed) ;;;
  ret (Function_reverse (oracle_ self) f_arg f_res f_aseed asens
         always_inline never_inline).

(** [jac(f_arg).front()]. *)
Definition jac_front (jac : Function) (f_arg : list MX) : M MX :=
  emit (jac_call f_arg) ;;;
  front (Function_call jac f_arg).

(** [horzsplit(J->getSolve(rhs, tr, linsol_))]. *)
Definition solve_split (self : Rootfinder) (J rhs : MX) (tr : bool) : M (list MX) :=
  emit (linear_solve J rhs tr) ;;;
  ret (horzsplit (getSolve J rhs tr (linsol_ self))).

(** [Rootfinder::forward]; the result is [fsens] as the call leaves it. *)
Definition forward (self : Rootfinder) (arg res : list MX)
    (fseed fsens : list (list MX)) (always_inline never_inline : bool)
  : M (list (list MX)) :=
  let iin := iin_ self in
  let iout := iout_ self in
  (* Number of directional derivatives *)
  let nfwd := Z.of_nat (length fseed) in
  let fsens := resize (length fseed) [] fsens in
  (* Quick return if no seeds *)
  if nfwd =? 0 then ret fsens else
  (* Propagate through f_ *)
  z <- at_ res iout ;;
  f_arg <- set_at arg iin z ;;
  f_res <- set_at res iout (MX_zeros (this_size_in self iin)) ;;
  f_fseed <- for_ nfwd (fun d f_fseed =>
      row <- index f_fseed d ;;
      row <- set_at row iin (MX_zeros (this_size_in self iin)) ;;
      set_index f_fseed d row) fseed ;;
  fsens <- oracle_forward self f_arg f_res f_fseed fsens always_inline never_inline ;;
  (* Get expression of Jacobian *)
  jac <- get_function self "jac_f_z" ;;
  J <- jac_front jac f_arg ;;
  (* Solve for all the forward derivatives at once *)
  rhs <- for_ nfwd (fun d rhs =>
      row <- index fsens d ;;
      x <- index row iout ;;
      set_index rhs d (vec x)) (replicate (length fseed) MX_default) ;;
  rhs <- solve_split self J (MX_neg (horzcat rhs)) false ;;
  fsens <- for_ nfwd (fun d fsens =>
      x <- index rhs d ;;
      row <- index fsens d ;;
      row <- set_index row iout (reshape x (this_size_in self iin)) ;;
      set_index fsens d row) fsens ;;
  (* Propagate to auxiliary outputs *)
  let num_out := this_n_out self in
  if 1 <? num_out then
    f_fseed <- for_ nfwd (fun d f_fseed =>
        row <- index fsens d ;;
        x <- index row iout ;;
        srow <- index f_fseed d ;;
        srow <- set_index srow iin x ;;
        set_index f_fseed d srow) f_fseed ;;
    fsens <- oracle_forward self f_arg f_res f_fseed fsens always_inline never_inline ;;
    for_ nfwd (fun d fsens =>
        srow <- index f_fseed d ;;
        x <- index srow iin ;;
        row <- index fsens d ;;
        row <- set_index row iout x ;;
        set_index fsens d row) fsens
  else ret fsens.

(** [Rootfinder::reverse]; [asens] comes in as the caller filled it and the
    result is [asens] as the call leaves it. *)
Definition reverse (self : Rootfinder) (arg res : list MX)
    (aseed asens : list (list MX)) (always_inline never_inline : bool)
  : M (list (list MX)) :=
  let iin := iin_ self in
  let iout := iout_ self in
  (* Number of directional derivatives *)
  let nadj := Z.of_nat (length aseed) in
  let asens := resize (length aseed) [] asens in
  (* Quick return if no seeds *)
  if nadj =? 0 then ret asens else
  (* Get expression of Jacobian *)
  z <- at_ res iout ;;
  f_arg <- set_index arg iin z ;;
  jac <- get_function self "jac_f_z" ;;
  J <- jac_front jac f_arg ;;
  (* Get adjoint seeds for calling f *)
  let num_out := this_n_out self in
  let num_in := this_n_in self in
  f_res <- set_index res iout (MX_zeros (this_size_in self iin)) ;;
  f_aseed <- for_ nadj (fun d f_aseed =>
      row <- index f_aseed d ;;
      row <- for_ num_out (fun i row =>
          x <- (if i =? iout then index f_res iout
                else (srow <- index aseed d ;; index srow i)) ;;
          set_index row i x) (resize (Z.to_nat num_out) MX_default row) ;;
      set_index f_aseed d row) (replicate (length aseed) []) ;;
  (* Propagate dependencies from auxiliary outputs *)
  aux <-
    (if 1 <? num_out then
       asens_aux <- oracle_reverse self f_arg f_res f_aseed []
                      always_inline never_inline ;;
       rhs <- for_ nadj (fun d rhs =>
           arow <- index asens_aux d ;;
           a <- index arow iin ;;
           srow <- index aseed d ;;
           s <- index srow iout ;;
           set_index rhs d (vec (MX_add a s))) (replicate (length aseed) MX_default) ;;
       ret (rhs, asens_aux)
     else
       rhs <- for_ nadj (fun d rhs =>
           srow <- index aseed d ;;
           s <- index srow iout ;;
           set_index rhs d (vec s)) (replicate (length aseed) MX_default) ;;
       ret (rhs, [])) ;;
  let '(rhs, asens_aux) := aux in
  (* Solve for all the adjoint seeds at once *)
  rhs <- solve_split self J (MX_neg (horzcat rhs)) true ;;
  f_aseed <- for_ nadj (fun d f_aseed =>
      for_ num_out (fun i f_aseed =>
          if i =? iout then
            x <- index rhs d ;;
            row <- index f_aseed d ;;
            row <- set_index row i (reshape x (this_size_out self i)) ;;
            set_index f_aseed d row
          else
            (* Avoid counting the auxiliary seeds twice *)
            row <- index f_aseed d ;;
            row <- set_index row i (MX_zeros (this_size_out self i)) ;;
            set_index f_aseed d row) f_aseed) f_aseed ;;
  (* No dependency on guess (1) *)
  guess <- for_ nadj (fun d '(asens, tmp) =>
      row <- index asens d ;;
      asens <- set_index asens d (resize (Z.to_nat num_in) MX_default row) ;;
      row <- index asens d ;;
      x <- index row iin ;;
      tmp <- set_index tmp d
               (if is_empty x true then MX_zeros (this_size_in self iin) else x) ;;
      ret (asens, tmp)) (asens, replicate (length aseed) MX_default) ;;
  let '(asens, tmp) := guess in
  (* Propagate through f_ *)
  asens <- oracle_reverse self f_arg f_res f_aseed asens always_inline never_inline ;;
  (* No dependency on guess (2) *)
  asens <- for_ nadj (fun d asens =>
      x <- index tmp d ;;
      row <- index asens d ;;
      row <- set_index row iin x ;;
      set_index asens d row) asens ;;
  (* Add contribution from auxiliary outputs *)
  if 1 <? num_out then
    for_ nadj (fun d asens =>
        for_ num_in (fun i asens =>
            if i =? iin then ret asens else
              row <- index asens d ;;
              a <- index row i ;;
              arow <- index asens_aux d ;;
              b <- index arow i ;;
              row <- set_index row i (MX_add a b) ;;
              set_index asens d row) asens) asens
  else ret asens.

(** *** Structural propagation *)

(** The first [n] words behind [t]. *)
Definition read (n : Z) (t : target) (m : memory) : list bvec_t :=
  take (Z.to_nat n) (m t).

(** Store [ws] at the start of the words behind [t]. *)
Definition write (t : target) (ws : list bvec_t) (m : memory) : memory :=
  <[t := ws ++ drop (length ws) (m t)]> m.

(** [fill_n(t, n, v)]. *)
Definition fill_n (t : target) (n : Z) (v : bvec_t) (m : memory) : memory :=
  write t (replicate (Z.to_nat n) v) m.

(** [copy(src, src+n, dst)]. *)
Definition copy_n (src : target) (n : Z) (dst : target) (m : memory) : memory :=
  write dst (read n src m) m.

(** [sp_jac_.spsolve(X, B, tr)] on two [n_]-word regions; [X] is updated in
    place. *)
Definition sp_jac_spsolve (self : Rootfinder) (X B : target) (tr : bool)
    (m : memory) : memory :=
  write X (spsolve (sp_jac_ self) (read (n_ self) X m) (read (n_ self) B m) tr) m.

(** [Rootfinder::sp_fwd]. [arg] and [res] are the pointer arrays of the
    call; the scratch copies [arg1] and [res1] sit behind them. *)
Definition sp_fwd (self : Rootfinder) (arg res : list pointer) (m : memory)
  : M memory :=
  let iin := iin_ self in
  let iout := iout_ self in
  let num_out := this_n_out self in
  let num_in := this_n_in self in
  let tmp1 := Wtmp1 in
  let tmp2 := Wtmp2 in
  (* Propagate dependencies through the function *)
  arg1 <- set_index (take (Z.to_nat num_in) arg) iin null ;;
  res1 <- set_index (replicate (Z.to_nat num_out) null) iout (ptr tmp1) ;;
  let m := Function_sp_fwd (oracle_ self) arg1 res1 m in
  (* "Solve" in order to propagate to z *)
  let m := fill_n tmp2 (n_ self) 0 m in
  let m := sp_jac_spsolve self tmp2 tmp1 false m in
  r <- index res iout ;;
  let m := match r with
           | ptr t => copy_n tmp2 (n_ self) t m
           | null => m
           end in
  (* Propagate to auxiliary outputs *)
  if 1 <? num_out then
    arg1 <- set_index arg1 iin (ptr tmp2) ;;
    res1 <- set_index (take (Z.to_nat num_out) res) iout null ;;
    ret (Function_sp_fwd (oracle_ self) arg1 res1 m)
  else ret m.

(** [Rootfinder::sp_rev]. *)
Definition sp_rev (self : Rootfinder) (arg res : list pointer) (m : memory)
  : M memory :=
  let iin := iin_ self in
  let iout := iout_ self in
  let num_out := this_n_out self in
  let num_in := this_n_in self in
  let tmp1 := Wtmp1 in
  let tmp2 := Wtmp2 in
  (* Get & clear seed corresponding to implicitly defined variable *)
  r <- index res iout ;;
  let m := match r with
           | ptr t => fill_n t (n_ self) 0 (copy_n t (n_ self) tmp1 m)
           | null => fill_n tmp1 (n_ self) 0 m
           end in
  (* Propagate dependencies from auxiliary outputs to z *)
  res1 <- set_index (take (Z.to_nat num_out) res) iout null ;;
  arg1 <- set_index (take (Z.to_nat num_in) arg) iin (ptr tmp1) ;;
  let m := if 1 <? num_out
           then Function_sp_rev (oracle_ self) arg1 res1 m
           else m in
  (* "Solve" in order to get seed *)
  let m := fill_n tmp2 (n_ self) 0 m in
  let m := sp_jac_spsolve self tmp2 tmp1 true m in
  (* Propagate dependencies through the function *)
  res1 <- for_ num_out (fun i res1 => set_index res1 i null) res1 ;;
  res1 <- set_index res1 iout (ptr tmp2) ;;
  arg1 <- set_index arg1 iin null ;; (* just a guess *)
  ret (Function_sp_rev (oracle_ self) arg1 res1 m).

(** *** Setup *)

(** Assignments to the data members of the node. *)
Definition set_sz_w_ (self : Rootfinder) (v : Z) : Rootfinder :=
  {| this_n_in := this_n_in self;
     this_n_out := this_n_out self;
     this_size_in := this_size_in self;
     this_size_out := this_size_out self;
     sz_w_ := v;
     oracle_ := oracle_ self;
     all_functions_ := all_functions_ self;
     n_ := n_ self;
     linsol_ := linsol_ self;
     sp_jac_ := sp_jac_ self;
     u_c_ := u_c_ self;
     iin_ := iin_ self;
     iout_ := iout_ self |}.

Definition set_all_functions_ (self : Rootfinder) (v : gmap string Function) : Rootfinder :=
  {| this_n_in := this_n_in self;
     this_n_out := this_n_out self;
     this_size_in := this_size_in self;
     this_size_out := this_size_out self;
     sz_w_ := sz_w_ self;
     oracle_ := oracle_ self;
     all_functions_ := v;
     n_ := n_ self;
     linsol_ := linsol_ self;
     sp_jac_ := sp_jac_ self;
     u_c_ := u_c_ self;
     iin_ := iin_ self;
     iout_ := iout_ self |}.

Definition set_n_ (self : Rootfinder) (v : Z) : Rootfinder :=
  {| this_n_in := this_n_in self;
     this_n_out := this_n_out self;
     this_size_in := this_size_in self;
     this_size_out := this_size_out self;
     sz_w_ := sz_w_ self;
     oracle_ := oracle_ self;
     all_functions_ := all_functions_ self;
     n_ := v;
     linsol_ := linsol_ self;
     sp_jac_ := sp_jac_ self;
     u_c_ := u_c_ self;
     iin_ := iin_ self;
     iout_ := iout_ self |}.

Definition set_linsol_ (self : Rootfinder) (v : Linsol) : Rootfinder :=
  {| this_n_in := this_n_in self;
     this_n_out := this_n_out self;
     this_size_in := this_size_in self;
     this_size_out := this_size_out self;
     sz_w_ := sz_w_ self;
     oracle_ := oracle_ self;
     all_functions_ := all_functions_ self;
     n_ := n_ self;
     linsol_ := v;
     sp_jac_ := sp_jac_ self;
     u_c_ := u_c_ self;
     iin_ := iin_ self;
     iout_ := iout_ self |}.

Definition set_sp_jac_ (self : Rootfinder) (v : Sparsity) : Rootfinder :=
  {| this_n_in := this_n_in self;
     this_n_out := this_n_out self;
     this_size_in := this_size_in self;
     this_size_out := this_size_out self;
     sz_w_ := sz_w_ self;
     oracle_ := oracle_ self;
     all_functions_ := all_functions_ self;
     n_ := n_ self;
     linsol_ := linsol_ self;
     sp_jac_ := v;
     u_c_ := u_c_ self;
     iin_ := iin_ self;
     iout_ := iout_ self |}.

Definition set_u_c_ (self : Rootfinder) (v : list Z) : Rootfinder :=
  {| this_n_in := this_n_in self;
     this_n_out := this_n_out self;
     this_size_in := this_size_in self;
     this_size_out := this_size_out self;
     sz_w_ := sz_w_ self;
     oracle_ := oracle_ self;
     all_functions_ := all_functions_ self;
     n_ := n_ self;
     linsol_ := linsol_ self;
     sp_jac_ := sp_jac_ self;
     u_c_ := v;
     iin_ := iin_ self;
     iout_ := iout_ self |}.

Definition set_iin_ (self : Rootfinder) (v : Z) : Rootfinder :=
  {| this_n_in := this_n_in self;
     this_n_out := this_n_out self;
     this_size_in := this_size_in self;
     this_size_out := this_size_out self;
     sz_w_ := sz_w_ self;
     oracle_ := oracle_ self;
     all_functions_ := all_functions_ self;
     n_ := n_ self;
     linsol_ := linsol_ self;
     sp_jac_ := sp_jac_ self;
     u_c_ := u_c_ self;
     iin_ := v;
     iout_ := iout_ self |}.

Definition set_iout_ (self : Rootfinder) (v : Z) : Rootfinder :=
  {| this_n_in := this_n_in self;
     this_n_out := this_n_out self;
     this_size_in := this_size_in self;
     this_size_out := this_size_out self;
     sz_w_ := sz_w_ self;
     oracle_ := oracle_ self;
     all_functions_ := all_functions_ self;
     n_ := n_ self;
     linsol_ := linsol_ self;
     sp_jac_ := sp_jac_ self;
     u_c_ := u_c_ self;
     iin_ := iin_ self;
     iout_ := v |}.

Definition set_oracle_ (self : Rootfinder) (v : Function) : Rootfinder :=
  {| this_n_in := this_n_in self;
     this_n_out := this_n_out self;
     this_size_in := this_size_in self;
     this_size_out := this_size_out self;
     sz_w_ := sz_w_ self;
     oracle_ := v;
     all_functions_ := all_functions_ self;
     n_ := n_ self;
     linsol_ := linsol_ self;
     sp_jac_ := sp_jac_ self;
     u_c_ := u_c_ self;
     iin_ := iin_ self;
     iout_ := iout_ self |}.

(** [casadi_assert_message(cond, msg)]. *)
Definition casadi_assert_message (cond : bool) (msg : list msg_item) : M unit :=
  if cond then ret tt else throw (casadi_assert msg).

(** Modelled from the spec: [Sparsity::is_singular] is defined outside the
    sources at hand. The spec (4.1, 3) calls a Jacobian sparsity singular
    when it has no perfect matching between rows and columns, which it
    reports as the structural rank [sprank] against the dimension. *)
Definition is_singular (sp : Sparsity) : bool :=
  negb (sprank sp =? size1 sp).

(** [OracleFunction::set_function(fcn, fname)]. *)
Definition set_function (self : Rootfinder) (fcn : Function) (fname : string)
  : Rootfinder :=
  set_all_functions_ self (<[fname := fcn]> (all_functions_ self)).

(** [FunctionInternal::alloc_w(sz_w)]: the work vector only grows. *)
Definition alloc_w (self : Rootfinder) (sz : Z) : Rootfinder :=
  set_sz_w_ self (Z.max (sz_w_ self) sz).

(** [FunctionInternal::alloc(f)], as far as the work vector [w] goes. *)
Definition alloc (self : Rootfinder) (f : Function) : Rootfinder :=
  alloc_w self (Z.of_nat (sz_w f)).

(** The locals of [init] that the option loop assigns, next to the node. *)
Record init_locals := {
  self_ : Rootfinder;
  linear_solver_options : Dict;
  linear_solver : string;
  jac : Function
}.

(** One turn of [for (auto&& op : opts)]. *)
Definition read_option (op : string * GenericType) (st : init_locals)
  : M init_locals :=
  if String.eqb op.1 "implicit_input" then
    v <- lift (as_int op.2) ;;
    ret {| self_ := set_iin_ (self_ st) v;
           linear_solver_options := linear_solver_options st;
           linear_solver := linear_solver st; jac := jac st |}
  else if String.eqb op.1 "implicit_output" then
    v <- lift (as_int op.2) ;;
    ret {| self_ := set_iout_ (self_ st) v;
           linear_solver_options := linear_solver_options st;
           linear_solver := linear_solver st; jac := jac st |}
  else if String.eqb op.1 "jacobian_function" then
    v <- lift (as_function op.2) ;;
    ret {| self_ := self_ st;
           linear_solver_options := linear_solver_options st;
           linear_solver := linear_solver st; jac := v |}
  else if String.eqb op.1 "linear_solver_options" then
    v <- lift (as_dict op.2) ;;
    ret {| self_ := self_ st;
           linear_solver_options := v;
           linear_solver := linear_solver st; jac := jac st |}
  else if String.eqb op.1 "linear_solver" then
    v <- lift (to_string op.2) ;;
    ret {| self_ := self_ st;
           linear_solver_options := linear_solver_options st;
           linear_solver := v; jac := jac st |}
  else if String.eqb op.1 "constraints" then
    v <- lift (as_int_vector op.2) ;;
    ret {| self_ := set_u_c_ (self_ st) v;
           linear_solver_options := linear_solver_options st;
           linear_solver := linear_solver st; jac := jac st |}
  else ret st.

(** [for (auto&& op : opts) ...]. *)
Fixpoint read_options (opts : Dict) (st : init_locals) : M init_locals :=
  match opts with
  | [] => ret st
  | op :: rest => st <- read_option op st ;; read_options rest st
  end.

(** [Rootfinder::Rootfinder(name, oracle)] on a freshly built base: the
    default options. *)
Definition Rootfinder_new (base : Rootfinder) (oracle : Function) : Rootfinder :=
  set_iout_ (set_iin_ (set_oracle_ base oracle) 0) 0.

(** [Rootfinder::init]. *)
Definition init (opts : Dict) (self : Rootfinder) : M Rootfinder :=
  (* Default (temporary) options; read options *)
  st <- read_options opts {| self_ := self; linear_solver_options := [];
                             linear_solver := "csparse"; jac := Function_null |} ;;
  let self := self_ st in
  let oracle := oracle_ self in
  let iin := iin_ self in
  let iout := iout_ self in
  (* Get the number of equations and check consistency *)
  casadi_assert_message ((0 <=? iin) && (iin <? n_in oracle) && (0 <? n_in oracle))
    [Str "Implicit input not in range"] ;;;
  casadi_assert_message ((0 <=? iout) && (iout <? n_out oracle) && (0 <? n_out oracle))
    [Str "Implicit output not in range"] ;;;
  casadi_assert_message (is_dense (sparsity_out oracle iout)
                         && is_column (sparsity_out oracle iout))
    [Str "Residual must be a dense vector"] ;;;
  casadi_assert_message (is_dense (sparsity_in oracle iin)
                         && is_column (sparsity_in oracle iin))
    [Str "Unknown must be a dense vector"] ;;;
  let self := set_n_ self (Z.of_nat (nnz_out oracle iout)) in
  casadi_assert_message (n_ self =? Z.of_nat (nnz_in oracle iin))
    [Str "Dimension mismatch. Input size is "; Num (Z.of_nat (nnz_in oracle iin));
     Str ", while output size is "; Num (Z.of_nat (nnz_out oracle iout))] ;;;
  (* Call the base class initializer *)
  lift (OracleFunction_init opts oracle) ;;;
  (* Generate Jacobian if not provided *)
  jac <- (if is_null (jac st) then lift (jacobian oracle iin iout)
          else ret (jac st)) ;;
  let self := set_function self jac "jac_f_z" in
  let self := set_sp_jac_ self (sparsity_out jac 0) in
  (* Check for structural singularity in the Jacobian *)
  casadi_assert_message (negb (is_singular (sp_jac_ self)))
    [Str "Rootfinder::init: singularity - the jacobian is structurally rank-deficient. sprank(J)=";
     Num (sprank (sp_jac_ self)); Str " (instead of ";
     Num (size1 (sp_jac_ self)); Str ")"] ;;;
  (* Get the linear solver creator function *)
  linsol <- lift (Linsol_new "linsol" (linear_solver st) (linear_solver_options st)) ;;
  let self := set_linsol_ self linsol in
  (* Constraints *)
  casadi_assert_message ((Z.of_nat (length (u_c_ self)) =? n_ self)
                         || bool_decide (u_c_ self = []))
    [Str "Constraint vector if supplied, must be of length n, but got ";
     Num (Z.of_nat (length (u_c_ self))); Str " and n = "; Num (n_ self)] ;;;
  (* Allocate sufficiently large work vectors *)
  let self := alloc self oracle in
  let sz := Z.of_nat (sz_w oracle) in
  let sz := if negb (is_null jac) then Z.max sz (Z.of_nat (sz_w jac)) else sz in
  ret (alloc_w self (sz + 2 * n_ self)).

End Methods.

(** ** The derivative functions of the node *)

(** What [get_forward] and [get_reverse] use of the symbolic layer, beside
    the operations of [Casadi]. *)
Class Symbolic `{Casadi} := {
  MX_sym : string -> Sparsity -> MX;          (* MX::sym(name, sp) *)
  MX_name : MX -> string;                     (* x.name() *)
  MX_size : MX -> Shape;                      (* x.size() *)
  Sparsity_new : Shape -> Sparsity;           (* Sparsity(const std::pair<int,int>&) *)
  mx_in : Rootfinder -> list MX;              (* mx_in() of the node *)
  mx_out : Rootfinder -> list MX;             (* mx_out() of the node *)
  symbolicFwdSeed : Z -> list MX -> list (list MX);
  symbolicAdjSeed : Z -> list MX -> list (list MX);
  (* Function(name, arg, res, i_names, o_names, opts) *)
  Function_new : string -> list MX -> list MX -> list string -> list string ->
                 Dict -> Function
}.

Section Derivatives.
Context `{Symbolic}.

(** [vector<MX> v(n)] for an [int] n; a negative n converts to a length no
    vector can have. *)
Definition vector_of_size (n : Z) : M (list MX) :=
  if n <? 0 then throw (foreign "std::length_error")
  else ret (replicate (Z.to_nat n) MX_default).

(** [for (int d=0; d<n; ++d) v[d] = table[d][i]]. *)
Definition gather (n : Z) (table : list (list MX)) (i : Z) (v : list MX)
  : M (list MX) :=
  for_ n (fun d v =>
      row <- index table d ;;
      x <- index row i ;;
      set_index v d x) v.

(** The loops that stack, entry by entry, the directions of [table] and
    append the stacks to [acc]. *)
Definition stack_columns (count n : Z) (table : list (list MX))
    (v acc : list MX) : M (list MX * list MX) :=
  for_ count (fun i '(v, acc) =>
      v <- gather n table i v ;;
      ret (v, acc ++ [horzcat v])) (v, acc).

(** [Rootfinder::get_forward]. *)
Definition get_forward (self : Rootfinder) (name : string) (nfwd : Z)
    (i_names o_names : list string) (opts : Dict) : M Function :=
  (* Symbolic expression for the input *)
  let arg := mx_in self in
  x <- index arg (iin_ self) ;;
  arg <- set_index arg (iin_ self)
           (MX_sym (MX_name x +:+ "_guess") (Sparsity_new (MX_size x))) ;;
  let res := mx_out self in
  let fseed := symbolicFwdSeed nfwd arg in
  fsens <- forward self arg res fseed [] false false ;;
  (* Construct return function *)
  let arg := arg ++ res in
  v <- vector_of_size nfwd ;;
  p <- stack_columns (this_n_in self) nfwd fseed v arg ;;
  let '(v, arg) := p in
  p <- stack_columns (this_n_out self) nfwd fsens v [] ;;
  let '(_, res) := p in
  ret (Function_new name arg res i_names o_names opts).

(** [Rootfinder::get_reverse]. *)
Definition get_reverse (self : Rootfinder) (name : string) (nadj : Z)
    (i_names o_names : list string) (opts : Dict) : M Function :=
  (* Symbolic expression for the input *)
  let arg := mx_in self in
  x <- index arg (iin_ self) ;;
  arg <- set_index arg (iin_ self)
           (MX_sym (MX_name x +:+ "_guess") (Sparsity_new (MX_size x))) ;;
  let res := mx_out self in
  let aseed := symbolicAdjSeed nadj res in
  asens <- reverse self arg res aseed [] false false ;;
  (* Construct return function *)
  let arg := arg ++ res in
  v <- vector_of_size nadj ;;
  p <- stack_columns (this_n_out self) nadj aseed v arg ;;
  let '(v, arg) := p in
  p <- stack_columns (this_n_in self) nadj asens v [] ;;
  let '(_, res) := p in
  ret (Function_new name arg res i_names o_names opts).

End Derivatives.

(** * Vocabulary of the properties *)

Section Vocabulary.
Context `{Casadi}.

#[global] Instance MX_inhabited : Inhabited MX := populate MX_default.

(** An [int] index that addresses an element of [v]. *)
Definition in_range {A} (i : Z) (v : list A) : Prop :=
  0 <= i < Z.of_nat (length v).

(** [Function::forward] hands back one row of sensitivities per row of
    seeds, with one entry per output. *)
Definition forward_shape (F : Function) : Prop :=
  forall a r seeds sens ai ni,
    length (Function_forward F a r seeds sens ai ni) = length seeds /\
    Forall (fun row : list MX => Z.of_nat (length row) = n_out F)
           (Function_forward F a r seeds sens ai ni).

(** [Function::reverse] hands back one row of sensitivities per row of
    seeds, with one entry per input. *)
Definition reverse_shape (F : Function) : Prop :=
  forall a r seeds sens ai ni,
    length (Function_reverse F a r seeds sens ai ni) = length seeds /\
    Forall (fun row : list MX => Z.of_nat (length row) = n_in F)
           (Function_reverse F a r seeds sens ai ni).

(** [horzsplit] cuts the solution of a linear system whose right-hand side
    stacks column vectors into as many pieces as there are columns. *)
Definition split_shape : Prop :=
  forall (J : MX) (cols : list MX) (tr : bool) (ls : Linsol),
    length (horzsplit (getSolve J (MX_neg (horzcat (vec <$> cols))) tr ls))
    = length cols.

(** Two rows of seeds that agree everywhere but at position [i]. *)
Definition differ_only_at (i : Z) (s s' : list MX) : Prop :=
  length s = length s' /\
  forall j : nat, Z.of_nat j <> i -> s !! j = s' !! j.

(** *** What the implicit function theorem prescribes, forward mode *)

(** The arguments at which the oracle is linearised: the unknown replaced
    by the converged root. *)
Definition ift_arg (self : Rootfinder) (arg res : list MX) : list MX :=
  <[Z.to_nat (iin_ self) := res !!! Z.to_nat (iout_ self)]> arg.

(** The outputs at the root: the residual is zero. *)
Definition ift_res (self : Rootfinder) (res : list MX) : list MX :=
  <[Z.to_nat (iout_ self) := MX_zeros (this_size_in self (iin_ self))]> res.

(** The seeds of the true inputs, the one on the guess set to zero. *)
Definition ift_fseed (self : Rootfinder) (fseed : list (list MX)) : list (list MX) :=
  (fun row => <[Z.to_nat (iin_ self) := MX_zeros (this_size_in self (iin_ self))]> row)
    <$> fseed.

(** The expression [J] of the cached Jacobian [jac_f_z] at [f_arg]. *)
Definition jac_expr (self : Rootfinder) (f_arg : list MX) : option MX :=
  match all_functions_ self !! "jac_f_z" with
  | Some jac => head (Function_call jac f_arg)
  | None => None
  end.

(** The provisional seeds: the oracle's forward propagation of the seeds of
    the true inputs. *)
Definition ift_provisional (self : Rootfinder) (arg res : list MX)
    (fseed fsens : list (list MX)) (ai ni : bool) : list (list MX) :=
  Function_forward (oracle_ self) (ift_arg self arg res) (ift_res self res)
    (ift_fseed self fseed) (resize (length fseed) [] fsens) ai ni.

(** [-dr], all directions stacked horizontally. *)
Definition ift_forward_rhs (self : Rootfinder) (dr : list (list MX)) : MX :=
  MX_neg (horzcat (vec <$> ((fun row => row !!! Z.to_nat (iout_ self)) <$> dr))).

(** [dz], direction by direction: the solution of [J * dz = -dr], split
    into columns and brought to the shape of the unknown. *)
Definition ift_dz (self : Rootfinder) (J : MX) (dr : list (list MX)) (d : nat) : MX :=
  reshape (horzsplit (getSolve J (ift_forward_rhs self dr) false (linsol_ self)) !!! d)
          (this_size_in self (iin_ self)).

(** The seeds of the second pass: [dz] in the place of the unknown. *)
Definition ift_fseed2 (self : Rootfinder) (J : MX) (dr fseed : list (list MX))
  : list (list MX) :=
  imap (fun d row => <[Z.to_nat (iin_ self) := ift_dz self J dr d]> row)
       (ift_fseed self fseed).

(** A row of sensitivities with [dz] as the sensitivity of the root. *)
Definition with_dz (self : Rootfinder) (J : MX) (dr : list (list MX))
    (sens : list (list MX)) : list (list MX) :=
  imap (fun d row => <[Z.to_nat (iout_ self) := ift_dz self J dr d]> row) sens.

(** What a call of [forward] relies on: indices that [init] accepted, seeds
    with a slot for every input, the Jacobian cached by [init], and
    collaborators that keep their shapes. *)
Definition forward_ready (self : Rootfinder) (arg res : list MX)
    (fseed : list (list MX)) (J : MX) : Prop :=
  in_range (iout_ self) res /\
  in_range (iin_ self) arg /\
  Forall (in_range (iin_ self)) fseed /\
  jac_expr self (ift_arg self arg res) = Some J /\
  forward_shape (oracle_ self) /\
  0 <= iout_ self < n_out (oracle_ self) /\
  split_shape.

(** *** What the implicit function theorem prescribes, reverse mode *)

(** The seeds on the outputs with the one on the residual held at zero: what
    is back-propagated from the auxiliary outputs. *)
Definition adj_aux_seed (self : Rootfinder) (aseed : list (list MX)) : list (list MX) :=
  (fun seed => <[Z.to_nat (iout_ self) := MX_zeros (this_size_in self (iin_ self))]>
                 (take (Z.to_nat (this_n_out self)) seed)) <$> aseed.

(** The back-propagation of the auxiliary outputs' seeds. *)
Definition adj_aux (self : Rootfinder) (arg res : list MX) (aseed : list (list MX))
    (ai ni : bool) : list (list MX) :=
  Function_reverse (oracle_ self) (ift_arg self arg res) (ift_res self res)
    (adj_aux_seed self aseed) [] ai ni.

(** The combined seed on the unknown, direction by direction. *)
Definition adj_combined (self : Rootfinder) (arg res : list MX) (aseed : list (list MX))
    (ai ni : bool) : list MX :=
  if 1 <? this_n_out self
  then imap (fun d seed =>
               MX_add ((adj_aux self arg res aseed ai ni !!! d) !!! Z.to_nat (iin_ self))
                      (seed !!! Z.to_nat (iout_ self))) aseed
  else (fun seed => seed !!! Z.to_nat (iout_ self)) <$> aseed.

(** The right-hand side of the transposed solve: minus the combined seeds,
    stacked horizontally. *)
Definition adj_rhs (self : Rootfinder) (arg res : list MX) (aseed : list (list MX))
    (ai ni : bool) : MX :=
  MX_neg (horzcat (vec <$> adj_combined self arg res aseed ai ni)).

(** The adjoint multiplier, direction by direction. *)
Definition adj_lambda (self : Rootfinder) (J : MX) (arg res : list MX)
    (aseed : list (list MX)) (ai ni : bool) (d : nat) : MX :=
  reshape (horzsplit (getSolve J (adj_rhs self arg res aseed ai ni) true (linsol_ self)) !!! d)
          (this_size_out self (iout_ self)).

(** The seeds of the final pass: the multiplier on the residual, zero on
    every auxiliary output. *)
Definition adj_final_seed (self : Rootfinder) (J : MX) (arg res : list MX)
    (aseed : list (list MX)) (ai ni : bool) : list (list MX) :=
  imap (fun d (_ : list MX) =>
          (fun i => if decide (Z.of_nat i = iout_ self)
                    then adj_lambda self J arg res aseed ai ni d
                    else MX_zeros (this_size_out self (Z.of_nat i)))
            <$> seq 0 (Z.to_nat (this_n_out self))) aseed.

(** The caller's [asens], brought to [nadj] rows of [n_in()] entries. *)
Definition adj_asens_in (self : Rootfinder) (nadj : nat) (asens : list (list MX))
  : list (list MX) :=
  resize (Z.to_nat (this_n_in self)) MX_default <$> resize nadj [] asens.

(** What is kept for the slot of the guess. *)
Definition adj_guess (self : Rootfinder) (row : list MX) : MX :=
  let x := row !!! Z.to_nat (iin_ self) in
  if is_empty x true then MX_zeros (this_size_in self (iin_ self)) else x.

(** The final pass through the oracle. *)
Definition adj_pass (self : Rootfinder) (J : MX) (arg res : list MX)
    (aseed asens : list (list MX)) (ai ni : bool) : list (list MX) :=
  Function_reverse (oracle_ self) (ift_arg self arg res) (ift_res self res)
    (adj_final_seed self J arg res aseed ai ni)
    (adj_asens_in self (length aseed) asens) ai ni.

(** The result of [reverse], entry by entry. *)
Definition adj_result (self : Rootfinder) (J : MX) (arg res : list MX)
    (aseed asens : list (list MX)) (ai ni : bool) : list (list MX) :=
  imap (fun d row =>
          imap (fun i x =>
                  if decide (Z.of_nat i = iin_ self)
                  then adj_guess self (adj_asens_in self (length aseed) asens !!! d)
                  else if 1 <? this_n_out self
                       then MX_add x ((adj_aux self arg res aseed ai ni !!! d) !!! i)
                       else x) row)
       (adj_pass self J arg res aseed asens ai ni).

(** What a call of [reverse] relies on. *)
Definition reverse_ready (self : Rootfinder) (arg res : list MX)
    (aseed : list (list MX)) (J : MX) : Prop :=
  in_range (iout_ self) res /\
  in_range (iin_ self) arg /\
  Forall (fun seed : list MX => this_n_out self <= Z.of_nat (length seed)) aseed /\
  jac_expr self (ift_arg self arg res) = Some J /\
  reverse_shape (oracle_ self) /\
  0 <= iout_ self < this_n_out self /\
  0 <= iin_ self < this_n_in self /\
  this_n_in self = n_in (oracle_ self) /\
  split_shape.

(** *** Structural propagation *)

(** The structural solve hands back as many words as it was given. *)
Definition spsolve_keeps_length : Prop :=
  forall (sp : Sparsity) (X B : list bvec_t) (tr : bool),
    length (spsolve sp X B tr) = length X.

(** The forward structural pass of a function writes only behind the
    pointers of its outputs. *)
Definition sp_fwd_frame (F : Function) : Prop :=
  forall (args ress : list pointer) (m : memory) (t : target),
    ptr t ∉ ress -> Function_sp_fwd F args ress m t = m t.

(** The reverse structural pass of a function writes only behind the
    pointers it is given. *)
Definition sp_rev_frame (F : Function) : Prop :=
  forall (args ress : list pointer) (m : memory) (t : target),
    ptr t ∉ args -> ptr t ∉ ress -> Function_sp_rev F args ress m t = m t.

(** What a structural call relies on: indices that [init] accepted and
    pointer arrays with a slot for every input and output. *)
Definition sp_ready (self : Rootfinder) (arg res : list pointer) : Prop :=
  0 <= iin_ self < this_n_in self /\
  this_n_in self <= Z.of_nat (length arg) /\
  0 <= iout_ self < this_n_out self /\
  this_n_out self <= Z.of_nat (length res) /\
  spsolve_keeps_length.

(** Forward: the pointers of the first pass through the oracle, with no
    dependency for the unknown and the residual sent to [tmp1]. *)
Definition spf_arg1 (self : Rootfinder) (arg : list pointer) : list pointer :=
  <[Z.to_nat (iin_ self) := null]> (take (Z.to_nat (this_n_in self)) arg).

Definition spf_res1 (self : Rootfinder) : list pointer :=
  <[Z.to_nat (iout_ self) := ptr Wtmp1]> (replicate (Z.to_nat (this_n_out self)) null).

(** The memory after the first pass; the residual's bits are in [tmp1]. *)
Definition spf_residual (self : Rootfinder) (arg : list pointer) (m : memory) : memory :=
  Function_sp_fwd (oracle_ self) (spf_arg1 self arg) (spf_res1 self) m.

(** The bits of the root: the residual's bits taken through the
    non-transposed structural solve, from an all-zero start. *)
Definition spf_solved (self : Rootfinder) (arg : list pointer) (m : memory)
  : list bvec_t :=
  spsolve (sp_jac_ self) (replicate (Z.to_nat (n_ self)) 0)
          (read (n_ self) Wtmp1 (spf_residual self arg m)) false.

(** The memory once the bits of the root are in [tmp2] and in the buffer of
    the root output, if there is one. *)
Definition spf_root (self : Rootfinder) (arg res : list pointer) (m : memory) : memory :=
  let m := sp_jac_spsolve self Wtmp2 Wtmp1 false
             (fill_n Wtmp2 (n_ self) 0 (spf_residual self arg m)) in
  match res !! Z.to_nat (iout_ self) with
  | Some (ptr t) => copy_n Wtmp2 (n_ self) t m
  | _ => m
  end.

(** The pointers of the second pass: the bits of the root for the unknown,
    every output but the root's. *)
Definition spf_arg2 (self : Rootfinder) (arg : list pointer) : list pointer :=
  <[Z.to_nat (iin_ self) := ptr Wtmp2]> (take (Z.to_nat (this_n_in self)) arg).

Definition spf_res2 (self : Rootfinder) (res : list pointer) : list pointer :=
  <[Z.to_nat (iout_ self) := null]> (take (Z.to_nat (this_n_out self)) res).


(** The memory once the seed is in [tmp1] and its buffer is cleared. *)
Definition spr_extracted (self : Rootfinder) (res : list pointer) (m : memory) : memory :=
  match res !! Z.to_nat (iout_ self) with
  | Some (ptr t) => fill_n t (n_ self) 0 (copy_n t (n_ self) Wtmp1 m)
  | _ => fill_n Wtmp1 (n_ self) 0 m
  end.

(** The pointers of the pass from the auxiliary outputs. *)
Definition spr_res1 (self : Rootfinder) (res : list pointer) : list pointer :=
  <[Z.to_nat (iout_ self) := null]> (take (Z.to_nat (this_n_out self)) res).

Definition spr_arg1 (self : Rootfinder) (arg : list pointer) : list pointer :=
  <[Z.to_nat (iin_ self) := ptr Wtmp1]> (take (Z.to_nat (this_n_in self)) arg).

(** The memory after that pass, which runs only with auxiliary outputs. *)
Definition spr_aux (self : Rootfinder) (arg res : list pointer) (m : memory) : memory :=
  if 1 <? this_n_out self
  then Function_sp_rev (oracle_ self) (spr_arg1 self arg) (spr_res1 self res)
         (spr_extracted self res m)
  else spr_extracted self res m.

(** The combined bits, taken through the transposed structural solve. *)
Definition spr_solved (self : Rootfinder) (arg res : list pointer) (m : memory)
  : list bvec_t :=
  spsolve (sp_jac_ self) (replicate (Z.to_nat (n_ self)) 0)
          (read (n_ self) Wtmp1 (spr_aux self arg res m)) true.

Definition spr_resolved (self : Rootfinder) (arg res : list pointer) (m : memory)
  : memory :=
  sp_jac_spsolve self Wtmp2 Wtmp1 true
    (fill_n Wtmp2 (n_ self) 0 (spr_aux self arg res m)).

(** The pointers of the final pass: the resolved bits as the residual's seed,
    a null pointer for the guess. *)
Definition spr_arg2 (self : Rootfinder) (arg : list pointer) : list pointer :=
  <[Z.to_nat (iin_ self) := null]> (take (Z.to_nat (this_n_in self)) arg).

Definition spr_res2 (self : Rootfinder) : list pointer :=
  <[Z.to_nat (iout_ self) := ptr Wtmp2]> (replicate (Z.to_nat (this_n_out self)) null).

(** A buffer of the caller, apart from the work vector. *)
Definition caller_owned (t : target) : Prop := t <> Wtmp1 /\ t <> Wtmp2.

(** *** Setup *)

(** The locals of [init] before the option loop. *)
Definition init_defaults (self : Rootfinder) : init_locals :=
  {| self_ := self; linear_solver_options := [];
     linear_solver := "csparse"; jac := Function_null |}.

(** The five consistency checks that open [init], as one condition. *)
Definition consistent (s : Rootfinder) : bool :=
  ((0 <=? iin_ s) && (iin_ s <? n_in (oracle_ s)) && (0 <? n_in (oracle_ s)))
  && ((0 <=? iout_ s) && (iout_ s <? n_out (oracle_ s)) && (0 <? n_out (oracle_ s)))
  && (is_dense (sparsity_out (oracle_ s) (iout_ s))
      && is_column (sparsity_out (oracle_ s) (iout_ s)))
  && (is_dense (sparsity_in (oracle_ s) (iin_ s))
      && is_column (sparsity_in (oracle_ s) (iin_ s)))
  && (Z.of_nat (nnz_out (oracle_ s) (iout_ s)) =? Z.of_nat (nnz_in (oracle_ s) (iin_ s))).

(** The Jacobian function [init] settles on: the one given as an option, or
    else the one generated from the oracle. *)
Definition jac_used (st : init_locals) : result Function :=
  if is_null (jac st)
  then jacobian (oracle_ (self_ st)) (iin_ (self_ st)) (iout_ (self_ st))
  else Ok (jac st).

(** The text of the structural-singularity error. *)
Definition singularity_message (sp : Sparsity) : list msg_item :=
  [Str "Rootfinder::init: singularity - the jacobian is structurally rank-deficient. sprank(J)=";
   Num (sprank sp); Str " (instead of "; Num (size1 sp); Str ")"].

Definition is_linear_solve (ev : event) : bool :=
  match ev with linear_solve _ _ _ => true | _ => false end.

Definition is_oracle_call (ev : event) : bool :=
  match ev with
  | oracle_forward_call _ _ _ | oracle_reverse_call _ _ _ => true
  | _ => false
  end.

(** The forward structural pass of a function reads only behind the
    pointers of its inputs. *)
Definition sp_fwd_reads (F : Function) : Prop :=
  forall (args ress : list pointer) (m m' : memory),
    (forall t, ptr t ∈ args -> m t = m' t) ->
    forall t, ptr t ∈ ress ->
              Function_sp_fwd F args ress m t = Function_sp_fwd F args ress m' t.

(** Two memories that agree everywhere but behind [g]. *)
Definition agree_off (g : target) (m m' : memory) : Prop :=
  forall t, t <> g -> m t = m' t.

End Vocabulary.

(** ** Vocabulary of the derivative functions *)

Section DerivativeVocabulary.
Context `{Symbolic}.

(** Entry [i] of every direction of [table], stacked horizontally. *)
Definition stacked (table : list (list MX)) (i : nat) : MX :=
  horzcat ((fun row : list MX => row !!! i) <$> table).

(** The symbol that stands for the guess in a derivative function. *)
Definition guess_symbol (self : Rootfinder) : MX :=
  MX_sym (MX_name (mx_in self !!! Z.to_nat (iin_ self)) +:+ "_guess")
         (Sparsity_new (MX_size (mx_in self !!! Z.to_nat (iin_ self)))).

(** The symbolic inputs of the node, the unknown renamed to a guess. *)
Definition symbolic_arg (self : Rootfinder) : list MX :=
  <[Z.to_nat (iin_ self) := guess_symbol self]> (mx_in self).

(** A table of [n] directions with at least [k] entries each. *)
Definition table_shape (n k : Z) (table : list (list MX)) : Prop :=
  Z.of_nat (length table) = n /\
  Forall (fun row : list MX => k <= Z.of_nat (length row)) table.

End DerivativeVocabulary.

(** * A small instance of the collaborators

    Symbolic expressions are kept as syntax trees, the oracle differentiates
    by building derivative nodes, and the structural solver spreads every
    dependency bit. The examples below run the node on this instance. *)

Module Toy.

#[warnings="-register-all"]
Inductive term :=
| Sym (name : string)
| Nil                                         (* MX() *)
| Zeros (s : Shape)
| Vec (x : term)
| Reshape (x : term) (s : Shape)
| Horzcat (xs : list term)
| Column (x : term) (k : nat)                 (* k-th piece of horzsplit(x) *)
| Neg (x : term)
| Add (x y : term)
| Solve (J b : term) (tr : bool)
| Jac (args : list term)
| Jvp (out : nat) (args seeds : list term)    (* forward derivative of an output *)
| Vjp (inp : nat) (args seeds : list term).   (* adjoint derivative of an input *)

Definition ncols (x : term) : nat :=
  match x with
  | Horzcat xs | Neg (Horzcat xs) | Solve _ (Horzcat xs) _
  | Solve _ (Neg (Horzcat xs)) _ => length xs
  | _ => 1%nat
  end.

Definition term_is_empty (x : term) (both : bool) : bool :=
  match x with Nil => true | _ => false end.

Definition term_horzsplit (x : term) : list term :=
  Column x <$> seq 0 (ncols x).

(** A pattern: its size, its structural rank, and what it looks like. *)
Record pattern := {
  p_size1 : Z;
  p_sprank : Z;
  p_dense : bool;
  p_column : bool
}.

Definition dense_column (n : Z) : pattern :=
  {| p_size1 := n; p_sprank := 1; p_dense := true; p_column := true |}.

(** The functions: the null function, an oracle with [nin] inputs and
    [nout] outputs, all of them vectors of two entries, and a Jacobian
    function whose pattern has structural rank [rank]. *)
Inductive fn :=
| fn_null
| fn_oracle (nin nout : nat)
| fn_jac (rank : Z).

Definition fn_is_null (f : fn) : bool :=
  match f with fn_null => true | _ => false end.

Definition fn_n_in (f : fn) : Z :=
  match f with fn_oracle nin _ => Z.of_nat nin | _ => 0 end.

Definition fn_n_out (f : fn) : Z :=
  match f with fn_oracle _ nout => Z.of_nat nout | fn_jac _ => 1 | fn_null => 0 end.

Definition fn_sparsity_out (f : fn) (i : Z) : pattern :=
  match f with
  | fn_jac rank => {| p_size1 := 2; p_sprank := rank; p_dense := false; p_column := false |}
  | _ => dense_column 2
  end.

Definition fn_call (f : fn) (args : list term) : list term :=
  match f with fn_jac _ => [Jac args] | _ => [] end.

Definition fn_forward (f : fn) (args res : list term) (seeds sens : list (list term))
    (ai ni : bool) : list (list term) :=
  (fun seed => (fun o => Jvp o args seed) <$> seq 0 (Z.to_nat (fn_n_out f))) <$> seeds.

Definition accumulate (old : option term) (c : term) : term :=
  match old with
  | Some x => if term_is_empty x true then c else Add x c
  | None => c
  end.

Definition fn_reverse (f : fn) (args res : list term) (seeds sens : list (list term))
    (ai ni : bool) : list (list term) :=
  imap (fun d seed =>
          (fun i => accumulate (sens !! d ≫= (.!! i)) (Vjp i args seed))
            <$> seq 0 (Z.to_nat (fn_n_in f))) seeds.

(** All dependency bits found behind a list of pointers. *)
Definition bits_behind (ps : list pointer) (m : memory) : bvec_t :=
  foldr (fun p acc => match p with
                      | ptr t => foldr Z.lor acc (m t)
                      | null => acc
                      end) 0 ps.

Definition fn_sp_fwd (f : fn) (args ress : list pointer) (m : memory) : memory :=
  fun t => if decide (ptr t ∈ ress) then replicate 2 (bits_behind args m) else m t.

Definition fn_sp_rev (f : fn) (args ress : list pointer) (m : memory) : memory :=
  fun t => if decide (ptr t ∈ ress) then (fun _ => 0) <$> m t
           else if decide (ptr t ∈ args) then Z.lor (bits_behind ress m) <$> m t
           else m t.

Definition pattern_spsolve (sp : pattern) (X B : list bvec_t) (tr : bool)
  : list bvec_t :=
  (fun x => Z.lor x (foldr Z.lor 0 B)) <$> X.

#[warnings="-register-all"]
Inductive generic :=
| GInt (z : Z)
| GIntVector (l : list Z)
| GFunction (f : fn)
| GString (s : string)
| GDict (d : list (string * generic)).

Definition mismatch {A} : result A := Err (foreign "type mismatch").

Definition casadi : Casadi := {|
  MX := term;
  MX_default := Nil;
  MX_zeros := Zeros;
  is_empty := term_is_empty;
  vec := Vec;
  reshape := Reshape;
  horzcat := Horzcat;
  horzsplit := term_horzsplit;
  MX_neg := Neg;
  MX_add := Add;
  Linsol := string;
  Linsol_default := EmptyString;
  GenericType := generic;
  Linsol_new := fun name plugin opts => Ok plugin;
  getSolve := fun J rhs tr linsol => Solve J rhs tr;
  Sparsity := pattern;
  Sparsity_default := dense_column 0;
  is_dense := p_dense;
  is_column := p_column;
  size1 := p_size1;
  sprank := p_sprank;
  spsolve := pattern_spsolve;
  Function := fn;
  Function_null := fn_null;
  is_null := fn_is_null;
  n_in := fn_n_in;
  n_out := fn_n_out;
  sparsity_in := fun f i => dense_column 2;
  sparsity_out := fn_sparsity_out;
  nnz_in := fun f i => 2%nat;
  nnz_out := fun f i => 2%nat;
  sz_w := fun f => 4%nat;
  jacobian := fun f i o => Ok (fn_jac 2);
  Function_call := fn_call;
  Function_forward := fn_forward;
  Function_reverse := fn_reverse;
  Function_sp_fwd := fn_sp_fwd;
  Function_sp_rev := fn_sp_rev;
  as_int := fun g => match g with GInt z => Ok z | _ => mismatch end;
  as_int_vector := fun g => match g with GIntVector l => Ok l | _ => mismatch end;
  as_function := fun g => match g with GFunction f => Ok f | _ => mismatch end;
  as_dict := fun g => match g with GDict d => Ok d | _ => mismatch end;
  to_string := fun g => match g with GString s => Ok s | _ => mismatch end;
  OracleFunction_init := fun opts oracle => Ok tt
|}.

#[local] Existing Instance casadi.

(** The base of a node with two inputs and [nout] outputs, nothing set. *)
Definition base (nout : nat) : Rootfinder :=
  {| this_n_in := 2; this_n_out := Z.of_nat nout;
     this_size_in := fun _ => (2, 1); this_size_out := fun _ => (2, 1);
     sz_w_ := 0; oracle_ := fn_null; all_functions_ := ∅;
     n_ := 0; linsol_ := EmptyString; sp_jac_ := dense_column 0;
     u_c_ := []; iin_ := 0; iout_ := 0 |}.

(** A node over an oracle [F(z, p) -> (r, aux...)] with [nout] outputs,
    as the constructor leaves it. *)
Definition fresh (nout : nat) : Rootfinder :=
  Rootfinder_new (base nout) (fn_oracle 2 nout).

(** The same node once [init] has run with the default options. *)
Definition node (nout : nat) : Rootfinder :=
  {| this_n_in := 2; this_n_out := Z.of_nat nout;
     this_size_in := fun _ => (2, 1); this_size_out := fun _ => (2, 1);
     sz_w_ := 8; oracle_ := fn_oracle 2 nout;
     all_functions_ := {[ "jac_f_z" := fn_jac 2 ]};
     n_ := 2; linsol_ := "csparse";
     sp_jac_ := fn_sparsity_out (fn_jac 2) 0;
     u_c_ := []; iin_ := 0; iout_ := 0 |}.

(** Inputs of the examples: the guess and a parameter, the root and an
    auxiliary output, one direction of seeds. *)
Definition arg0 : list term := [Sym "z0"; Sym "p"].
Definition res0 : list term := [Sym "z"; Sym "y"].
Definition fseed0 : list (list term) := [[Sym "dz0"; Sym "dp"]].
Definition fseed1 : list (list term) := [[Sym "other"; Sym "dp"]].
Definition aseed0 : list (list term) := [[Sym "bz"; Sym "by"]].

(** Buffers of the structural examples: the guess and the parameter, the
    root and the auxiliary output. The parameter carries bits 1 and 2, the
    auxiliary output is seeded with bit 4. *)
Definition parg0 : list pointer := [ptr (Caller 0); ptr (Caller 1)].
Definition pres0 : list pointer := [ptr (Caller 2); ptr (Caller 3)].
Definition mem0 : memory :=
  fun t => match t with
           | Caller 1 => [1; 2]
           | Caller 3 => [4; 4]
           | _ => [0; 0]
           end.


(** The memory of the structural examples with bit 8 behind the guess. *)
Definition mem_guess : memory :=
  fun t => match t with Caller 0 => [8; 8] | _ => mem0 t end.

Definition term_name (x : term) : string :=
  match x with Sym name => name | _ => EmptyString end.

(** The symbolic layer of the small instance: the node has the inputs
    [z0], [p] and as many of the outputs [z], [y] as it has outputs; a seed
    is a symbol named after the direction and the expression it belongs
    to. *)
Definition seed_symbols (prefix : string) (n : Z) (xs : list term)
  : list (list term) :=
  (fun d => (fun x => Sym (prefix +:+ term_name x)) <$> xs) <$> seq 0 (Z.to_nat n).

Definition symbolic : Symbolic := {|
  MX_sym := fun name sp => Sym name;
  MX_name := term_name;
  MX_size := fun x => (2, 1);
  Sparsity_new := fun sh => dense_column sh.1;
  mx_in := fun self => arg0;
  mx_out := fun self => take (Z.to_nat (this_n_out self)) res0;
  symbolicFwdSeed := seed_symbols "fwd_";
  symbolicAdjSeed := seed_symbols "adj_";
  Function_new := fun name arg res i_names o_names opts =>
                    fn_oracle (length arg) (length res)
|}.

End Toy.

(** * Properties *)

(** ** The call monad and the vector accesses *)

Section MonadFacts.
Context `{Casadi}.

Lemma bind_ret {A B} (a : A) (f : A -> M B) : bind (ret a) f = f a.
Proof. unfold bind, ret. destruct (f a) as [t r]. reflexivity. Qed.

Lemma index_of_nat {A} (v : list A) (k : nat) :
  index v (Z.of_nat k) =
  match v !! k with Some x => ret x | None => throw undefined_behaviour end.
Proof.
  unfold index. rewrite Nat2Z.id.
  destruct (v !! k) as [x|] eqn:E.
  - apply lookup_lt_Some in E.
    replace ((0 <=? Z.of_nat k) && (Z.of_nat k <? Z.of_nat (length v))) with true;
      [reflexivity|].
    symmetry. apply andb_true_iff. split; [apply Z.leb_le|apply Z.ltb_lt]; lia.
  - destruct ((0 <=? Z.of_nat k) && (Z.of_nat k <? Z.of_nat (length v))); reflexivity.
Qed.

Lemma set_index_of_nat {A} (v : list A) (k : nat) (x : A) :
  set_index v (Z.of_nat k) x =
  if decide (k < length v)%nat then ret (<[k := x]> v) else throw undefined_behaviour.
Proof.
  unfold set_index. rewrite Nat2Z.id.
  destruct (decide (k < length v)%nat) as [Hlt|Hge].
  - replace ((0 <=? Z.of_nat k) && (Z.of_nat k <? Z.of_nat (length v))) with true;
      [reflexivity|].
    symmetry. apply andb_true_iff. split; [apply Z.leb_le|apply Z.ltb_lt]; lia.
  - replace ((0 <=? Z.of_nat k) && (Z.of_nat k <? Z.of_nat (length v))) with false;
      [reflexivity|].
    symmetry. apply andb_false_iff. right. apply Z.ltb_ge. lia.
Qed.

Lemma in_range_test {A} (i : Z) (v : list A) :
  in_range i v -> (0 <=? i) && (i <? Z.of_nat (length v)) = true.
Proof.
  intros [? ?]. apply andb_true_iff. split; [apply Z.leb_le|apply Z.ltb_lt]; lia.
Qed.

Lemma in_range_lookup {A} (i : Z) (v : list A) :
  in_range i v -> exists x, v !! Z.to_nat i = Some x.
Proof.
  intros [? ?]. apply lookup_lt_is_Some_2. lia.
Qed.

Lemma index_ok {A} (v : list A) (i : Z) (x : A) :
  0 <= i -> v !! Z.to_nat i = Some x -> index v i = ret x.
Proof.
  intros Hi E. unfold index. rewrite E.
  rewrite in_range_test; [reflexivity|].
  apply lookup_lt_Some in E. split; lia.
Qed.

Lemma at_ok {A} (v : list A) (i : Z) (x : A) :
  0 <= i -> v !! Z.to_nat i = Some x -> at_ v i = ret x.
Proof.
  intros Hi E. unfold at_. rewrite E.
  rewrite in_range_test; [reflexivity|].
  apply lookup_lt_Some in E. split; lia.
Qed.

Lemma set_index_ok {A} (v : list A) (i : Z) (x : A) :
  in_range i v -> set_index v i x = ret (<[Z.to_nat i := x]> v).
Proof. intros Hi. unfold set_index. rewrite in_range_test; done. Qed.

Lemma set_at_ok {A} (v : list A) (i : Z) (x : A) :
  in_range i v -> set_at v i x = ret (<[Z.to_nat i := x]> v).
Proof. intros Hi. unfold set_at. rewrite in_range_test; done. Qed.

(** A loop whose body keeps an invariant runs to its end. *)
Lemma for_from_inv {S} (Inv : nat -> S -> Prop) (body : Z -> S -> M S)
    (count k : nat) (s : S) :
  Inv k s ->
  (forall d s, (k <= d < k + count)%nat -> Inv d s ->
     exists s', body (Z.of_nat d) s = ret s' /\ Inv (Datatypes.S d) s') ->
  exists s', for_from body (Z.of_nat k) count s = ret s' /\ Inv (k + count)%nat s'.
Proof.
  revert k s. induction count as [|c IH]; intros k s Hinv Hbody.
  - exists s. rewrite Nat.add_0_r. split; [reflexivity|assumption].
  - destruct (Hbody k s) as (s1 & E1 & Hinv1); [lia|assumption|].
    destruct (IH (Datatypes.S k) s1) as (s2 & E2 & Hinv2); [assumption| |].
    + intros d s0 Hd. apply Hbody. lia.
    + exists s2. split.
      * cbn [for_from]. rewrite E1, bind_ret.
        replace (Z.of_nat k + 1) with (Z.of_nat (Datatypes.S k)) by lia.
        exact E2.
      * replace (k + Datatypes.S c)%nat with (Datatypes.S k + c)%nat by lia.
        exact Hinv2.
Qed.

Lemma for_inv {S} (Inv : nat -> S -> Prop) (body : Z -> S -> M S)
    (n : nat) (s : S) :
  Inv O s ->
  (forall d s, (d < n)%nat -> Inv d s ->
     exists s', body (Z.of_nat d) s = ret s' /\ Inv (Datatypes.S d) s') ->
  exists s', for_ (Z.of_nat n) body s = ret s' /\ Inv n s'.
Proof.
  intros H0 Hbody. unfold for_. rewrite Nat2Z.id.
  apply (for_from_inv Inv body n O s H0).
  intros d s0 Hd. apply Hbody. lia.
Qed.

End MonadFacts.

(** ** Loops that rewrite a vector entry by entry *)

Section LoopFacts.
Context `{Casadi}.

(** A loop that replaces entry [d] by [g d] of its old value, for every
    [d], computes [imap g]. *)
Lemma for_rows {A} (g : nat -> A -> A) (body : Z -> list A -> M (list A))
    (orig : list A) :
  (forall d x s, orig !! d = Some x -> s !! d = Some x -> length s = length orig ->
     body (Z.of_nat d) s = ret (<[d := g d x]> s)) ->
  for_ (Z.of_nat (length orig)) body orig = ret (imap g orig).
Proof.
  intros Hbody.
  destruct (for_inv
    (fun d s => length s = length orig /\
       forall k, s !! k = if decide (k < d)%nat then g k <$> orig !! k else orig !! k)
    body (length orig) orig) as (s' & E & Hlen & Hs').
  - split; [reflexivity|]. intros k. destruct (decide (k < 0)%nat); [lia|reflexivity].
  - intros d s Hd [Hlen Hs].
    destruct (lookup_lt_is_Some_2 orig d Hd) as [x Hx].
    exists (<[d := g d x]> s). split.
    + apply Hbody; [assumption| |assumption].
      rewrite Hs. destruct (decide (d < d)%nat); [lia|assumption].
    + split; [rewrite length_insert; assumption|].
      intros k. destruct (decide (k = d)) as [->|Hne].
      * rewrite list_lookup_insert_eq by lia.
        destruct (decide (d < Datatypes.S d)%nat); [|lia]. rewrite Hx. reflexivity.
      * rewrite list_lookup_insert_ne by congruence. rewrite Hs.
        destruct (decide (k < d)%nat), (decide (k < Datatypes.S d)%nat);
          try reflexivity; lia.
  - rewrite E. f_equal. f_equal. apply list_eq. intros k.
    rewrite Hs', list_lookup_imap.
    destruct (decide (k < length orig)%nat) as [Hk|Hk].
    + destruct (orig !! k); reflexivity.
    + rewrite (lookup_ge_None_2 orig k) by lia. reflexivity.
Qed.

Lemma for_rows_n {A} (g : nat -> A -> A) (body : Z -> list A -> M (list A))
    (n : Z) (orig : list A) :
  n = Z.of_nat (length orig) ->
  (forall d x s, orig !! d = Some x -> s !! d = Some x -> length s = length orig ->
     body (Z.of_nat d) s = ret (<[d := g d x]> s)) ->
  for_ n body orig = ret (imap g orig).
Proof. intros ->. apply for_rows. Qed.

(** A loop over the entries of row [d] of a table, replacing entry [i] by
    [h i] of its old value and leaving the other rows alone. *)
Lemma for_entries {A} (h : nat -> A -> A) (body : Z -> list (list A) -> M (list (list A)))
    (d : nat) (row : list A) (s : list (list A)) :
  s !! d = Some row ->
  (forall i x r' s', row !! i = Some x -> s' !! d = Some r' -> r' !! i = Some x ->
     body (Z.of_nat i) s' = ret (<[d := <[i := h i x]> r']> s')) ->
  for_ (Z.of_nat (length row)) body s = ret (<[d := imap h row]> s).
Proof.
  intros Hd Hbody.
  assert (Hdlt : (d < length s)%nat) by (eapply lookup_lt_Some; exact Hd).
  destruct (for_inv
    (fun i s' => s' = <[d := imap (fun k x => if decide (k < i)%nat then h k x else x) row]> s)
    body (length row) s) as (s' & E & Hs').
  - symmetry. apply list_insert_id. rewrite Hd. f_equal.
    apply list_eq. intros k. rewrite list_lookup_imap.
    destruct (row !! k); reflexivity.
  - intros i s' Hi ->.
    destruct (lookup_lt_is_Some_2 row i Hi) as [x Hx].
    eexists. split.
    + apply (Hbody i x); [exact Hx|apply list_lookup_insert_eq; exact Hdlt|].
      rewrite list_lookup_imap, Hx. cbn. destruct (decide (i < i)%nat); [lia|reflexivity].
    + rewrite list_insert_insert_eq. f_equal.
      apply list_eq. intros k. destruct (decide (k = i)) as [->|Hne].
      * rewrite list_lookup_insert_eq by (rewrite length_imap; lia).
        rewrite list_lookup_imap, Hx. cbn.
        destruct (decide (i < Datatypes.S i)%nat); [reflexivity|lia].
      * rewrite list_lookup_insert_ne by congruence.
        rewrite !list_lookup_imap. destruct (row !! k); [cbn|reflexivity].
        destruct (decide (k < i)%nat), (decide (k < Datatypes.S i)%nat);
          try reflexivity; lia.
  - rewrite E, Hs'. f_equal. f_equal.
    apply list_eq. intros k. rewrite !list_lookup_imap.
    destruct (row !! k) eqn:Ek; [cbn|reflexivity].
    apply lookup_lt_Some in Ek. destruct (decide (k < length row)%nat); [reflexivity|lia].
Qed.

Lemma for_entries_n {A} (h : nat -> A -> A)
    (body : Z -> list (list A) -> M (list (list A)))
    (n : Z) (d : nat) (row : list A) (s : list (list A)) :
  n = Z.of_nat (length row) ->
  s !! d = Some row ->
  (forall i x r' s', row !! i = Some x -> s' !! d = Some r' -> r' !! i = Some x ->
     body (Z.of_nat i) s' = ret (<[d := <[i := h i x]> r']> s')) ->
  for_ n body s = ret (<[d := imap h row]> s).
Proof. intros ->. apply for_entries. Qed.

End LoopFacts.

(** ** One run of [forward] *)

Section ForwardFacts.
Context `{Casadi}.

Lemma bind_step {A B} (c : M A) (a : A) (f : A -> M B) (k : M B) :
  c = ret a -> f a = k -> bind c f = k.
Proof. intros -> <-. apply bind_ret. Qed.

Lemma bind_cons {A B} (c : M A) (ev : event) (a : A) (f : A -> M B) t r :
  c = ([ev], Ok a) -> f a = (t, r) -> bind c f = (ev :: t, r).
Proof. intros -> Hf. unfold bind. rewrite Hf. reflexivity. Qed.

Lemma jac_front_run (self : Rootfinder) (f_arg : list MX) (J : MX) :
  jac_expr self f_arg = Some J ->
  exists jac, get_function self "jac_f_z" = ret jac /\
              jac_front jac f_arg = ([jac_call f_arg], Ok J).
Proof.
  unfold jac_expr, get_function. destruct (all_functions_ self !! "jac_f_z") as [jac|];
    [|discriminate].
  intros HJ. exists jac. split; [reflexivity|]. unfold jac_front.
  destruct (Function_call jac f_arg) as [|x l]; [discriminate|].
  injection HJ as ->. reflexivity.
Qed.

Lemma shape_row (rows : list (list MX)) (n : Z) (d : nat) (row : list MX) (i : Z) :
  Forall (fun row : list MX => Z.of_nat (length row) = n) rows ->
  rows !! d = Some row -> 0 <= i < n -> in_range i row.
Proof.
  intros HF Hd Hi. rewrite Forall_lookup in HF. specialize (HF d row Hd).
  unfold in_range. lia.
Qed.

Lemma forward_run (self : Rootfinder) (arg res : list MX)
    (fseed fsens : list (list MX)) (ai ni : bool) (J : MX) :
  fseed <> [] ->
  forward_ready self arg res fseed J ->
  let f_arg := ift_arg self arg res in
  let f_res := ift_res self res in
  let dr := ift_provisional self arg res fseed fsens ai ni in
  forward self arg res fseed fsens ai ni =
  (oracle_forward_call f_arg f_res (ift_fseed self fseed)
   :: jac_call f_arg
   :: linear_solve J (ift_forward_rhs self dr) false
   :: (if 1 <? this_n_out self
       then [oracle_forward_call f_arg f_res (ift_fseed2 self J dr fseed)]
       else []),
   Ok (if 1 <? this_n_out self
       then with_dz self J dr
              (Function_forward (oracle_ self) f_arg f_res
                 (ift_fseed2 self J dr fseed) (with_dz self J dr dr) ai ni)
       else with_dz self J dr dr)).
Proof.
  intros Hne (Hres & Harg & Hseed & HJ & Hshape & Hiout & Hsplit) f_arg f_res dr.
  unfold forward.
  destruct (Z.eqb_spec (Z.of_nat (length fseed)) 0) as [E0|_].
  { destruct fseed; [congruence|simpl in E0; lia]. }
  destruct (in_range_lookup _ _ Hres) as [z Hz].
  assert (Hz' : res !!! Z.to_nat (iout_ self) = z)
    by (apply list_lookup_total_correct; exact Hz).
  (* f_arg, f_res *)
  eapply bind_step; [apply at_ok; [apply Hres|exact Hz]|].
  eapply bind_step; [apply set_at_ok; exact Harg|].
  eapply bind_step; [apply set_at_ok; exact Hres|].
  rewrite <- Hz'. fold (ift_arg self arg res). fold (ift_res self res).
  fold f_arg. fold f_res.
  (* seeds of the guess set to zero *)
  eapply bind_step.
  { rewrite (for_rows (fun _ row =>
       <[Z.to_nat (iin_ self) := MX_zeros (this_size_in self (iin_ self))]> row));
      [reflexivity|].
    intros d x s Hx Hs Hlen. rewrite index_of_nat, Hs, bind_ret.
    rewrite Forall_lookup in Hseed.
    rewrite (set_at_ok x) by (eapply Hseed; exact Hx).
    rewrite bind_ret, set_index_of_nat.
    apply lookup_lt_Some in Hs. destruct (decide (d < length s)%nat); [reflexivity|lia]. }
  replace (imap _ fseed) with (ift_fseed self fseed)
    by (unfold ift_fseed; apply list_eq; intros k;
        rewrite list_lookup_imap, list_lookup_fmap; destruct (fseed !! k); reflexivity).
  (* first pass through the oracle *)
  eapply bind_cons; [reflexivity|].
  change (Function_forward (oracle_ self) f_arg f_res (ift_fseed self fseed)
            (resize (length fseed) [] fsens) ai ni) with dr.
  assert (Hlen : length dr = length fseed).
  { unfold dr, ift_provisional. rewrite (proj1 (Hshape _ _ _ _ _ _)).
    unfold ift_fseed. apply length_fmap. }
  assert (Hrows : Forall (fun row : list MX =>
                            Z.of_nat (length row) = n_out (oracle_ self)) dr)
    by apply Hshape.
  (* Jacobian *)
  destruct (jac_front_run self f_arg J HJ) as (jac & Hget & Hfront).
  eapply bind_step; [exact Hget|].
  eapply bind_cons; [exact Hfront|].
  (* right-hand sides *)
  eapply bind_step.
  { rewrite <- (length_replicate (length fseed) MX_default) at 1.
    rewrite (for_rows (fun d _ => vec ((dr !!! d) !!! Z.to_nat (iout_ self))));
      [reflexivity|].
    intros d x s Hx Hs Hlens. rewrite index_of_nat.
    apply lookup_lt_Some in Hx. rewrite length_replicate in Hx, Hlens.
    destruct (lookup_lt_is_Some_2 dr d) as [row Hrow]; [lia|].
    rewrite Hrow, bind_ret.
    pose proof (shape_row _ _ _ _ _ Hrows Hrow Hiout) as Hin.
    destruct (in_range_lookup _ _ Hin) as [y Hy].
    rewrite (index_ok _ _ y (proj1 Hin) Hy).
    rewrite bind_ret, set_index_of_nat.
    rewrite (list_lookup_total_correct _ _ _ Hrow).
    rewrite (list_lookup_total_correct _ _ _ Hy).
    destruct (decide (d < length s)%nat); [reflexivity|lia]. }
  replace (imap _ (replicate (length fseed) MX_default))
    with (vec <$> ((fun row : list MX => row !!! Z.to_nat (iout_ self)) <$> dr)).
  2:{ apply list_eq; intros k. rewrite list_lookup_imap, !list_lookup_fmap.
      destruct (decide (k < length fseed)%nat) as [Hk|Hk].
      - rewrite lookup_replicate_2 by lia.
        destruct (lookup_lt_is_Some_2 dr k) as [row Hrow]; [lia|].
        rewrite Hrow. simpl. rewrite (list_lookup_total_correct _ _ _ Hrow). reflexivity.
      - rewrite (lookup_ge_None_2 dr) by lia.
        rewrite (lookup_ge_None_2 (replicate _ _)) by (rewrite length_replicate; lia).
        reflexivity. }
  fold (ift_forward_rhs self dr).
  (* the batched solve *)
  eapply bind_cons; [reflexivity|].
  set (sol := horzsplit (getSolve J (ift_forward_rhs self dr) false (linsol_ self))).
  assert (Hsol : length sol = length fseed).
  { unfold sol, ift_forward_rhs. rewrite Hsplit, length_fmap. exact Hlen. }
  assert (Hfsens1 : for_ (Z.of_nat (length fseed))
      (fun d fsens0 =>
         x <- index sol d ;;
         row <- index fsens0 d ;;
         row0 <- set_index row (iout_ self) (reshape x (this_size_in self (iin_ self))) ;;
         set_index fsens0 d row0) dr = ret (with_dz self J dr dr)).
  { rewrite <- Hlen.
    rewrite (for_rows (fun d row => <[Z.to_nat (iout_ self) := ift_dz self J dr d]> row));
      [reflexivity|].
    intros d row s Hrow Hs Hlens. rewrite index_of_nat.
    destruct (lookup_lt_is_Some_2 sol d) as [x Hx];
      [apply lookup_lt_Some in Hrow; lia|].
    rewrite Hx, bind_ret, index_of_nat, Hs, bind_ret.
    rewrite set_index_ok by (eapply shape_row; eauto).
    rewrite bind_ret, set_index_of_nat.
    unfold ift_dz. fold sol. rewrite (list_lookup_total_correct _ _ _ Hx).
    apply lookup_lt_Some in Hs. destruct (decide (d < length s)%nat); [reflexivity|lia]. }
  eapply bind_step; [exact Hfsens1|].
  destruct (1 <? this_n_out self); [|reflexivity].
  (* second pass *)
  assert (Hdz : forall d row, dr !! d = Some row ->
            with_dz self J dr dr !! d
            = Some (<[Z.to_nat (iout_ self) := ift_dz self J dr d]> row)).
  { intros d row Hrow. unfold with_dz. rewrite list_lookup_imap, Hrow. reflexivity. }
  eapply bind_step.
  { rewrite <- (length_fmap
      (fun row => <[Z.to_nat (iin_ self) := MX_zeros (this_size_in self (iin_ self))]> row)
      fseed) at 1.
    fold (ift_fseed self fseed).
    rewrite (for_rows (fun d row => <[Z.to_nat (iin_ self) := ift_dz self J dr d]> row));
      [reflexivity|].
    intros d srow s Hsrow Hs Hlens. rewrite index_of_nat.
    destruct (lookup_lt_is_Some_2 dr d) as [row Hrow].
    { apply lookup_lt_Some in Hsrow. unfold ift_fseed in Hsrow.
      rewrite length_fmap in Hsrow. lia. }
    rewrite (Hdz d row Hrow), bind_ret.
    pose proof (shape_row _ _ _ _ _ Hrows Hrow Hiout) as Hin.
    rewrite (index_ok _ _ (ift_dz self J dr d) (proj1 Hin)).
    2:{ apply list_lookup_insert_eq. destruct Hin. lia. }
    rewrite bind_ret, index_of_nat, Hs, bind_ret.
    rewrite set_index_ok.
    2:{ unfold ift_fseed in Hsrow. rewrite list_lookup_fmap in Hsrow.
        destruct (fseed !! d) as [r0|] eqn:Er0; [|discriminate].
        injection Hsrow as <-. rewrite Forall_lookup in Hseed.
        specialize (Hseed d r0 Er0). unfold in_range in *.
        rewrite length_insert. exact Hseed. }
    rewrite bind_ret, set_index_of_nat.
    apply lookup_lt_Some in Hs. destruct (decide (d < length s)%nat); [reflexivity|lia]. }
  fold (ift_fseed2 self J dr fseed).
  eapply bind_cons; [reflexivity|].
  set (pass2 := Function_forward (oracle_ self) f_arg f_res (ift_fseed2 self J dr fseed)
                  (with_dz self J dr dr) ai ni).
  assert (Hlen2 : length pass2 = length fseed).
  { unfold pass2. rewrite (proj1 (Hshape _ _ _ _ _ _)).
    unfold ift_fseed2. rewrite length_imap. unfold ift_fseed. apply length_fmap. }
  assert (Hrows2 : Forall (fun row : list MX =>
                             Z.of_nat (length row) = n_out (oracle_ self)) pass2)
    by apply Hshape.
  rewrite <- Hlen2.
  rewrite (for_rows (fun d row => <[Z.to_nat (iout_ self) := ift_dz self J dr d]> row));
    [reflexivity|].
  intros d row s Hrow Hs Hlens. rewrite index_of_nat.
  assert (Hd : (d < length fseed)%nat) by (apply lookup_lt_Some in Hrow; lia).
  destruct (lookup_lt_is_Some_2 fseed d Hd) as [r0 Er0].
  assert (Hs2 : ift_fseed2 self J dr fseed !! d
                = Some (<[Z.to_nat (iin_ self) := ift_dz self J dr d]>
                          (<[Z.to_nat (iin_ self) :=
                               MX_zeros (this_size_in self (iin_ self))]> r0))).
  { unfold ift_fseed2, ift_fseed. rewrite list_lookup_imap, list_lookup_fmap, Er0.
    reflexivity. }
  rewrite Hs2, bind_ret.
  rewrite Forall_lookup in Hseed. specialize (Hseed d r0 Er0).
  rewrite (index_ok _ _ (ift_dz self J dr d) (proj1 Hseed)).
  2:{ apply list_lookup_insert_eq. rewrite length_insert. destruct Hseed. lia. }
  rewrite bind_ret, index_of_nat, Hs, bind_ret.
  rewrite set_index_ok by (eapply shape_row; eauto).
  rewrite bind_ret, set_index_of_nat.
  apply lookup_lt_Some in Hs. destruct (decide (d < length s)%nat); [reflexivity|lia].
Qed.

End ForwardFacts.

(** ** The seed of the guess *)

Section GuessFacts.
Context `{Casadi}.

(** The loop that overwrites the seed of the guess, in closed form: it
    throws as soon as a row of seeds has no slot [iin]. *)
Lemma zero_guess_from (i : Z) (z : MX) (count k : nat) (f : list (list MX)) :
  length f = (k + count)%nat ->
  for_from (fun d f_fseed =>
              row <- index f_fseed d ;;
              row <- set_at row i z ;;
              set_index f_fseed d row) (Z.of_nat k) count f
  = if forallb (fun row : list MX => (0 <=? i) && (i <? Z.of_nat (length row)))
               (drop k f)
    then ret (take k f ++ ((fun row => <[Z.to_nat i := z]> row) <$> drop k f))
    else throw out_of_range.
Proof.
  revert k f. induction count as [|c IH]; intros k f Hlen.
  - rewrite drop_ge by lia. rewrite take_ge by lia. simpl.
    rewrite app_nil_r. reflexivity.
  - cbn [for_from]. rewrite index_of_nat.
    destruct (lookup_lt_is_Some_2 f k) as [row Hrow]; [lia|].
    rewrite Hrow, bind_ret.
    rewrite (drop_S _ _ _ Hrow). cbn [forallb]. unfold set_at.
    destruct ((0 <=? i) && (i <? Z.of_nat (length row))) eqn:Eok; cbn [andb].
    + rewrite bind_ret, set_index_of_nat.
      destruct (decide (k < length f)%nat); [|lia].
      rewrite bind_ret.
      replace (Z.of_nat k + 1) with (Z.of_nat (Datatypes.S k)) by lia.
      rewrite IH by (rewrite length_insert; lia).
      rewrite drop_insert_lt by lia.
      rewrite take_insert_lt by lia.
      rewrite (take_S_r _ _ _ Hrow).
      rewrite insert_app_r_alt by (rewrite length_take; lia).
      rewrite length_take, Nat.min_l by lia. rewrite Nat.sub_diag. cbn [fmap list_fmap].
      rewrite <- app_assoc. reflexivity.
    + reflexivity.
Qed.

Lemma zero_guess_differ (i : Z) (z : MX) (fseed fseed' : list (list MX)) :
  Forall2 (differ_only_at i) fseed fseed' ->
  for_ (Z.of_nat (length fseed))
       (fun d f_fseed =>
          row <- index f_fseed d ;;
          row <- set_at row i z ;;
          set_index f_fseed d row) fseed
  = for_ (Z.of_nat (length fseed'))
       (fun d f_fseed =>
          row <- index f_fseed d ;;
          row <- set_at row i z ;;
          set_index f_fseed d row) fseed'.
Proof.
  intros HF. unfold for_. rewrite !Nat2Z.id.
  pose proof (zero_guess_from i z (length fseed) 0 fseed eq_refl) as E.
  pose proof (zero_guess_from i z (length fseed') 0 fseed' eq_refl) as E'.
  change (Z.of_nat 0) with 0 in E, E'. rewrite E, E'. clear E E'.
  rewrite !drop_0, !take_0. cbn [app].
  induction HF as [|s s' l l' [Hlen Hsame] HF IH]; [reflexivity|].
  cbn [forallb fmap list_fmap]. rewrite <- Hlen.
  destruct ((0 <=? i) && (i <? Z.of_nat (length s))) eqn:Eok; cbn [andb].
  - assert (Hrow : <[Z.to_nat i := z]> s = <[Z.to_nat i := z]> s').
    { apply list_eq. intros j. destruct (decide (j = Z.to_nat i)) as [->|Hne].
      - apply andb_true_iff in Eok. destruct Eok as [E1 E2].
        apply Z.leb_le in E1. apply Z.ltb_lt in E2.
        rewrite !list_lookup_insert_eq by lia. reflexivity.
      - rewrite !list_lookup_insert_ne by congruence. apply Hsame. lia. }
    rewrite Hrow.
    destruct (forallb _ l); destruct (forallb _ l'); try discriminate IH;
      try reflexivity.
    injection IH as IH. unfold ret. rewrite IH. reflexivity.
  - reflexivity.
Qed.

End GuessFacts.

(** ** The small instance keeps the shapes *)

Section ToyFacts.
#[local] Existing Instance Toy.casadi.

Lemma toy_forward_shape (f : Toy.fn) : forward_shape f.
Proof.
  intros a r seeds sens ai ni. cbn. unfold Toy.fn_forward. split.
  - apply length_fmap.
  - apply Forall_fmap, Forall_forall. intros seed _. cbn.
    rewrite length_fmap, length_seq. destruct f; cbn; lia.
Qed.

Lemma toy_reverse_shape (f : Toy.fn) : reverse_shape f.
Proof.
  intros a r seeds sens ai ni. cbn. unfold Toy.fn_reverse. split.
  - apply length_imap.
  - apply Forall_lookup. intros d row. rewrite list_lookup_imap.
    intros Hrow. apply fmap_Some in Hrow as (seed & _ & ->).
    rewrite length_fmap, length_seq. destruct f; cbn; lia.
Qed.

Lemma toy_split_shape : split_shape.
Proof.
  intros J cols tr ls. cbn. unfold Toy.term_horzsplit.
  rewrite length_fmap, length_seq. cbn. apply length_fmap.
Qed.

Lemma toy_forward_ready (nout : nat) :
  (0 < nout)%nat ->
  forward_ready (Toy.node nout) Toy.arg0 Toy.res0 Toy.fseed0
                (Toy.Jac [Toy.Sym "z"; Toy.Sym "p"]).
Proof.
  intros Hn. repeat split; try (cbn; lia).
  - repeat constructor; cbn; lia.
  - apply toy_forward_shape.
  - apply toy_forward_shape.
  - apply toy_split_shape.
Qed.

Lemma toy_reverse_ready (nout : nat) :
  (0 < nout <= 2)%nat ->
  reverse_ready (Toy.node nout) Toy.arg0 Toy.res0 Toy.aseed0
                (Toy.Jac [Toy.Sym "z"; Toy.Sym "p"]).
Proof.
  intros Hn. repeat split; try (cbn; lia).
  - repeat constructor; cbn; lia.
  - apply toy_reverse_shape.
  - apply toy_reverse_shape.
  - apply toy_split_shape.
Qed.

Lemma toy_spsolve_keeps_length : spsolve_keeps_length.
Proof. intros sp X B tr. cbn. apply length_fmap. Qed.

Lemma toy_sp_fwd_frame (f : Toy.fn) : sp_fwd_frame f.
Proof.
  intros args ress m t Ht. cbn. unfold Toy.fn_sp_fwd.
  destruct (decide (ptr t ∈ ress)); [contradiction|reflexivity].
Qed.

Lemma toy_sp_rev_frame (f : Toy.fn) : sp_rev_frame f.
Proof.
  intros args ress m t Ha Hr. cbn. unfold Toy.fn_sp_rev.
  destruct (decide (ptr t ∈ ress)); [contradiction|].
  destruct (decide (ptr t ∈ args)); [contradiction|reflexivity].
Qed.

Lemma toy_sp_fwd_reads (f : Toy.fn) : sp_fwd_reads f.
Proof.
  intros args ress m m' Hsame t Ht. cbn. unfold Toy.fn_sp_fwd.
  destruct (decide (ptr t ∈ ress)); [|contradiction].
  f_equal. clear Ht e. unfold Toy.bits_behind.
  induction args as [|p args IH]; [reflexivity|].
  cbn [foldr]. rewrite IH by (intros t0 Ht0; apply Hsame; right; exact Ht0).
  destruct p as [|t0]; [reflexivity|].
  rewrite (Hsame t0) by (left). reflexivity.
Qed.

Lemma toy_sp_ready (nout : nat) :
  (0 < nout <= 2)%nat -> sp_ready (Toy.node nout) Toy.parg0 Toy.pres0.
Proof.
  intros Hn. repeat split; try (cbn; lia). apply toy_spsolve_keeps_length.
Qed.

End ToyFacts.

(** ** Forward mode *)

Section ForwardTheorems.
Context `{Casadi}.

(** C1. Under the standing assumptions of a call ([forward_ready]), for
    every direction [d] the forward sensitivity of the root output [iout_]
    is the [d]-th column of the solution of the non-transposed system
    [J * dz = -dr], brought to the shape of the unknown; [J] is [jac_f_z] at
    the arguments with the unknown replaced by [res[iout_]], [dr] is what the
    oracle's forward propagation gives on the residual for the seeds of the
    true inputs (residual output held at zero), and the call makes exactly
    one linear solve, on all right-hand sides stacked horizontally. *)
Theorem forward_root_sensitivity (self : Rootfinder) (arg res : list MX)
    (fseed fsens : list (list MX)) (ai ni : bool) (J : MX) :
  fseed <> [] ->
  forward_ready self arg res fseed J ->
  let dr := Function_forward (oracle_ self) (ift_arg self arg res) (ift_res self res)
              (ift_fseed self fseed) (resize (length fseed) [] fsens) ai ni in
  let rhs := MX_neg (horzcat (vec <$> ((fun row => row !!! Z.to_nat (iout_ self)) <$> dr))) in
  let dz := horzsplit (getSolve J rhs false (linsol_ self)) in
  exists trace out,
    forward self arg res fseed fsens ai ni = (trace, Ok out) /\
    length out = length fseed /\
    length dz = length fseed /\
    (forall d x, dz !! d = Some x ->
       (out !!! d) !! Z.to_nat (iout_ self)
       = Some (reshape x (this_size_in self (iin_ self)))) /\
    List.filter is_linear_solve trace = [linear_solve J rhs false].
Proof.
  intros Hne Hready dr rhs dz.
  pose proof (forward_run self arg res fseed fsens ai ni J Hne Hready) as Hrun.
  cbv zeta in Hrun.
  destruct Hready as (Hres & Harg & Hseed & HJ & Hshape & Hiout & Hsplit).
  change (ift_provisional self arg res fseed fsens ai ni) with dr in Hrun.
  change (ift_forward_rhs self dr) with rhs in Hrun.
  assert (Hlen : length dr = length fseed).
  { unfold dr. rewrite (proj1 (Hshape _ _ _ _ _ _)). unfold ift_fseed. apply length_fmap. }
  assert (Hdz : length dz = length fseed).
  { unfold dz, rhs. rewrite Hsplit, length_fmap. exact Hlen. }
  eexists _, _. split; [exact Hrun|].
  assert (Hout : forall sens : list (list MX),
            length sens = length fseed ->
            Forall (fun row : list MX => Z.of_nat (length row) = n_out (oracle_ self)) sens ->
            length (with_dz self J dr sens) = length fseed /\
            forall d x, dz !! d = Some x ->
              (with_dz self J dr sens !!! d) !! Z.to_nat (iout_ self)
              = Some (reshape x (this_size_in self (iin_ self)))).
  { intros sens Hl Hrows. unfold with_dz. split; [rewrite length_imap; exact Hl|].
    intros d x Hx.
    destruct (lookup_lt_is_Some_2 sens d) as [row Hrow];
      [apply lookup_lt_Some in Hx; lia|].
    erewrite list_lookup_total_correct
      by (rewrite list_lookup_imap, Hrow; reflexivity).
    pose proof (shape_row _ _ _ _ _ Hrows Hrow Hiout) as [? ?].
    rewrite list_lookup_insert_eq by lia.
    unfold ift_dz. change (ift_forward_rhs self dr) with rhs. fold dz.
    rewrite (list_lookup_total_correct _ _ _ Hx). reflexivity. }
  destruct (1 <? this_n_out self).
  - destruct (Hout (Function_forward (oracle_ self) (ift_arg self arg res)
                      (ift_res self res) (ift_fseed2 self J dr fseed)
                      (with_dz self J dr dr) ai ni)) as [Hl Hv].
    { rewrite (proj1 (Hshape _ _ _ _ _ _)). unfold ift_fseed2, ift_fseed.
      rewrite length_imap. apply length_fmap. }
    { apply Hshape. }
    repeat split; assumption.
  - destruct (Hout dr Hlen) as [Hl Hv]; [apply Hshape|].
    repeat split; assumption.
Qed.

(** C3. The forward seed supplied for the unknown input [iin_] has no
    influence on the call: two calls whose seeds agree everywhere but at
    position [iin_] (in any direction) end the same way, with the same
    sensitivities for every output and the same calls to the oracle, since
    the seed of the guess is overwritten by zero before any propagation. *)
Theorem forward_guess_invariance (self : Rootfinder) (arg res : list MX)
    (fseed fseed' fsens : list (list MX)) (ai ni : bool) :
  Forall2 (differ_only_at (iin_ self)) fseed fseed' ->
  forward self arg res fseed fsens ai ni = forward self arg res fseed' fsens ai ni.
Proof.
  intros HF. unfold forward.
  rewrite (zero_guess_differ _ _ _ _ HF).
  rewrite (Forall2_length _ _ _ HF). reflexivity.
Qed.

(** C6. When the oracle has more than one output, [forward] runs the
    oracle's forward propagation a second time, with the solved [dz] as the
    seed of the unknown input and the other seeds as supplied; every
    auxiliary output's sensitivity is what this second pass returns, and the
    root output's own sensitivity is [dz] again after the pass. *)
Theorem forward_auxiliary_outputs (self : Rootfinder) (arg res : list MX)
    (fseed fsens : list (list MX)) (ai ni : bool) (J : MX) :
  fseed <> [] ->
  forward_ready self arg res fseed J ->
  1 < this_n_out self ->
  let f_arg := ift_arg self arg res in
  let f_res := ift_res self res in
  let dr := Function_forward (oracle_ self) f_arg f_res (ift_fseed self fseed)
              (resize (length fseed) [] fsens) ai ni in
  let dz := ift_dz self J dr in
  let f_fseed2 := ift_fseed2 self J dr fseed in
  let pass2 := Function_forward (oracle_ self) f_arg f_res f_fseed2
                 (with_dz self J dr dr) ai ni in
  exists trace out,
    forward self arg res fseed fsens ai ni = (trace, Ok out) /\
    List.filter is_oracle_call trace
    = [oracle_forward_call f_arg f_res (ift_fseed self fseed);
       oracle_forward_call f_arg f_res f_fseed2] /\
    (forall d seed, fseed !! d = Some seed ->
       f_fseed2 !! d = Some (<[Z.to_nat (iin_ self) := dz d]> seed)) /\
    (forall d i, Z.of_nat i <> iout_ self ->
       (out !!! d) !! i = (pass2 !!! d) !! i) /\
    (forall d, (d < length fseed)%nat ->
       (out !!! d) !! Z.to_nat (iout_ self) = Some (dz d)).
Proof.
  intros Hne Hready Hout f_arg f_res dr dz f_fseed2 pass2.
  pose proof (forward_run self arg res fseed fsens ai ni J Hne Hready) as Hrun.
  cbv zeta in Hrun.
  destruct Hready as (Hres & Harg & Hseed & HJ & Hshape & Hiout & Hsplit).
  apply Z.ltb_lt in Hout. rewrite Hout in Hrun.
  eexists _, _. split; [exact Hrun|].
  split; [reflexivity|].
  assert (Hlen2 : length pass2 = length fseed).
  { unfold pass2. rewrite (proj1 (Hshape _ _ _ _ _ _)). unfold f_fseed2, ift_fseed2, ift_fseed.
    rewrite length_imap. apply length_fmap. }
  split; [|split].
  - intros d seed Hd. unfold f_fseed2, ift_fseed2, ift_fseed.
    rewrite list_lookup_imap, list_lookup_fmap, Hd. cbn.
    rewrite list_insert_insert_eq. reflexivity.
  - intros d i Hi. change (ift_provisional self arg res fseed fsens ai ni) with dr.
    fold f_arg f_res f_fseed2 pass2. unfold with_dz.
    destruct (pass2 !! d) as [row|] eqn:Hrow.
    + erewrite list_lookup_total_correct
        by (rewrite list_lookup_imap, Hrow; reflexivity).
      rewrite (list_lookup_total_correct _ _ _ Hrow).
      apply list_lookup_insert_ne. lia.
    + rewrite !list_lookup_total_alt, list_lookup_imap, Hrow. reflexivity.
  - intros d Hd. change (ift_provisional self arg res fseed fsens ai ni) with dr.
    fold f_arg f_res f_fseed2 pass2. unfold with_dz.
    destruct (lookup_lt_is_Some_2 pass2 d) as [row Hrow]; [lia|].
    erewrite list_lookup_total_correct
      by (rewrite list_lookup_imap, Hrow; reflexivity).
    assert (Hrows : Forall (fun row : list MX =>
                              Z.of_nat (length row) = n_out (oracle_ self)) pass2)
      by apply Hshape.
    pose proof (shape_row _ _ _ _ _ Hrows Hrow Hiout) as [? ?].
    apply list_lookup_insert_eq. lia.
Qed.

End ForwardTheorems.

Section ForwardExamples.
#[local] Existing Instance Toy.casadi.

Lemma forward_root_sensitivity_witness :
  Toy.fseed0 <> [] /\
  forward_ready (Toy.node 1) Toy.arg0 Toy.res0 Toy.fseed0
                (Toy.Jac [Toy.Sym "z"; Toy.Sym "p"]) /\
  exists trace out,
    forward (Toy.node 1) Toy.arg0 Toy.res0 Toy.fseed0 [] false false = (trace, Ok out) /\
    length out = 1%nat /\
    List.filter is_linear_solve trace
    = [linear_solve (Toy.Jac [Toy.Sym "z"; Toy.Sym "p"])
         (Toy.Neg (Toy.Horzcat [Toy.Vec
            (Toy.Jvp 0 [Toy.Sym "z"; Toy.Sym "p"] [Toy.Zeros (2, 1); Toy.Sym "dp"])]))
         false].
Proof.
  assert (Hne : Toy.fseed0 <> []) by discriminate.
  pose proof (toy_forward_ready 1 ltac:(lia)) as Hready.
  split; [exact Hne|]. split; [exact Hready|].
  destruct (forward_root_sensitivity (Toy.node 1) Toy.arg0 Toy.res0 Toy.fseed0 []
              false false _ Hne Hready) as (trace & out & Hrun & Hlen & _ & _ & Hsolve).
  exists trace, out. split; [exact Hrun|]. split; [exact Hlen|]. exact Hsolve.
Defined.

Lemma forward_guess_invariance_witness :
  Forall2 (differ_only_at (iin_ (Toy.node 2))) Toy.fseed0 Toy.fseed1 /\
  forward (Toy.node 2) Toy.arg0 Toy.res0 Toy.fseed0 [] false false
  = forward (Toy.node 2) Toy.arg0 Toy.res0 Toy.fseed1 [] false false.
Proof.
  assert (HF : Forall2 (differ_only_at (iin_ (Toy.node 2))) Toy.fseed0 Toy.fseed1).
  { repeat constructor. intros [|[|j]] Hj; cbn in *; try reflexivity; lia. }
  split; [exact HF|].
  exact (forward_guess_invariance (Toy.node 2) Toy.arg0 Toy.res0
           Toy.fseed0 Toy.fseed1 [] false false HF).
Defined.

Lemma forward_auxiliary_outputs_witness :
  Toy.fseed0 <> [] /\
  forward_ready (Toy.node 2) Toy.arg0 Toy.res0 Toy.fseed0
                (Toy.Jac [Toy.Sym "z"; Toy.Sym "p"]) /\
  1 < this_n_out (Toy.node 2) /\
  exists trace out,
    forward (Toy.node 2) Toy.arg0 Toy.res0 Toy.fseed0 [] false false = (trace, Ok out) /\
    length (List.filter is_oracle_call trace) = 2%nat.
Proof.
  assert (Hne : Toy.fseed0 <> []) by discriminate.
  pose proof (toy_forward_ready 2 ltac:(lia)) as Hready.
  assert (Hout : 1 < this_n_out (Toy.node 2)) by (cbn; lia).
  split; [exact Hne|]. split; [exact Hready|]. split; [exact Hout|].
  destruct (forward_auxiliary_outputs (Toy.node 2) Toy.arg0 Toy.res0 Toy.fseed0 []
              false false _ Hne Hready Hout) as (trace & out & Hrun & Hcalls & _).
  exists trace, out. split; [exact Hrun|]. rewrite Hcalls. reflexivity.
Defined.

End ForwardExamples.

(** ** One run of [reverse] *)

Section ReverseFacts.
Context `{Casadi}.

Lemma bind_app {A B} (c : M A) (a : A) (f : A -> M B) t t' r :
  c = (t, Ok a) -> f a = (t', r) -> bind c f = (t ++ t', r).
Proof. intros -> Hf. unfold bind. rewrite Hf. reflexivity. Qed.

Lemma set_index_here {A} (s : list A) (d : nat) (x y : A) :
  s !! d = Some x -> set_index s (Z.of_nat d) y = ret (<[d := y]> s).
Proof.
  intros Hs. rewrite set_index_of_nat. apply lookup_lt_Some in Hs.
  destruct (decide (d < length s)%nat); [reflexivity|lia].
Qed.

(** The seeds for the auxiliary pass. *)
Lemma aux_seed_loop (self : Rootfinder) (res : list MX) (aseed : list (list MX)) :
  in_range (iout_ self) res ->
  0 <= iout_ self < this_n_out self ->
  Forall (fun seed : list MX => this_n_out self <= Z.of_nat (length seed)) aseed ->
  for_ (Z.of_nat (length aseed)) (fun d f_aseed =>
      row <- index f_aseed d ;;
      row <- for_ (this_n_out self) (fun i row =>
          x <- (if i =? iout_ self then index (ift_res self res) (iout_ self)
                else (srow <- index aseed d ;; index srow i)) ;;
          set_index row i x) (resize (Z.to_nat (this_n_out self)) MX_default row) ;;
      set_index f_aseed d row) (replicate (length aseed) [])
  = ret (adj_aux_seed self aseed).
Proof.
  intros Hres Hiout Hseed.
  set (zero := MX_zeros (this_size_in self (iin_ self))).
  assert (Hzero : index (ift_res self res) (iout_ self) = ret zero).
  { apply index_ok; [apply Hres|]. unfold ift_res.
    apply list_lookup_insert_eq. destruct Hres. lia. }
  rewrite (for_rows_n (fun d _ =>
     <[Z.to_nat (iout_ self) := zero]>
       (take (Z.to_nat (this_n_out self)) (aseed !!! d)))).
  - f_equal. f_equal. unfold adj_aux_seed. apply list_eq. intros d.
    rewrite list_lookup_imap, list_lookup_fmap.
    destruct (aseed !! d) as [seed|] eqn:Ed.
    + rewrite lookup_replicate_2 by (eapply lookup_lt_Some; exact Ed).
      cbn. rewrite (list_lookup_total_correct _ _ _ Ed). reflexivity.
    + rewrite (lookup_ge_None_2 (replicate _ _))
        by (rewrite length_replicate; apply lookup_ge_None; exact Ed).
      reflexivity.
  - rewrite length_replicate. reflexivity.
  - intros d x s Hx Hs Hlen.
    apply lookup_replicate in Hx as [-> Hd].
    destruct (lookup_lt_is_Some_2 aseed d Hd) as [seed Hseedd].
    rewrite Forall_lookup in Hseed. specialize (Hseed d seed Hseedd).
    rewrite index_of_nat, Hs, bind_ret.
    rewrite (for_rows_n (fun i _ =>
       if decide (Z.of_nat i = iout_ self) then zero else seed !!! i)).
    + rewrite bind_ret, (set_index_here _ _ []) by exact Hs.
      f_equal. f_equal. f_equal.
      rewrite (list_lookup_total_correct _ _ _ Hseedd).
      apply list_eq. intros i. rewrite list_lookup_imap.
      destruct (decide (i < Z.to_nat (this_n_out self))%nat) as [Hi|Hi].
      * rewrite (lookup_resize_new _ _ _ _) by (cbn; lia). cbn.
        destruct (decide (Z.of_nat i = iout_ self)) as [Hio|Hio].
        -- rewrite <- Hio, Nat2Z.id. symmetry. apply list_lookup_insert_eq.
           rewrite length_take. lia.
        -- rewrite list_lookup_insert_ne by lia.
           rewrite lookup_take_lt by lia.
           destruct (lookup_lt_is_Some_2 seed i) as [y Hy]; [lia|].
           rewrite Hy. rewrite (list_lookup_total_correct _ _ _ Hy). reflexivity.
      * rewrite (lookup_ge_None_2 (resize _ _ _)) by (rewrite length_resize; lia).
        cbn. symmetry. apply lookup_ge_None. rewrite length_insert, length_take. lia.
    + rewrite length_resize. lia.
    + intros i x r Hx Hr Hlenr.
      destruct (Z.eqb_spec (Z.of_nat i) (iout_ self)) as [Hio|Hio].
      * rewrite Hzero, bind_ret, (set_index_here _ _ x) by exact Hr.
        destruct (decide (Z.of_nat i = iout_ self)); [reflexivity|lia].
      * rewrite index_of_nat, Hseedd, bind_ret, index_of_nat.
        apply lookup_lt_Some in Hx. rewrite length_resize in Hx.
        destruct (lookup_lt_is_Some_2 seed i) as [y Hy]; [lia|].
        rewrite Hy, bind_ret, (set_index_here _ _ x) by exact Hr.
        rewrite (list_lookup_total_correct _ _ _ Hy).
        destruct (decide (Z.of_nat i = iout_ self)); [lia|reflexivity].
Qed.

(** The right-hand sides, with and without auxiliary outputs. *)
Lemma rhs_aux_loop (self : Rootfinder) (aux aseed : list (list MX)) :
  length aux = length aseed ->
  Forall (in_range (iin_ self)) aux ->
  Forall (in_range (iout_ self)) aseed ->
  for_ (Z.of_nat (length aseed)) (fun d rhs =>
      arow <- index aux d ;;
      a <- index arow (iin_ self) ;;
      srow <- index aseed d ;;
      s <- index srow (iout_ self) ;;
      set_index rhs d (vec (MX_add a s))) (replicate (length aseed) MX_default)
  = ret (vec <$> imap (fun d seed =>
                         MX_add ((aux !!! d) !!! Z.to_nat (iin_ self))
                                (seed !!! Z.to_nat (iout_ self))) aseed).
Proof.
  intros Hlen Haux Hseed.
  rewrite (for_rows_n (fun d _ =>
     vec (MX_add ((aux !!! d) !!! Z.to_nat (iin_ self))
                 ((aseed !!! d) !!! Z.to_nat (iout_ self))))).
  - f_equal. f_equal. apply list_eq. intros d.
    rewrite list_lookup_imap, list_lookup_fmap, list_lookup_imap.
    destruct (aseed !! d) as [seed|] eqn:Ed.
    + rewrite lookup_replicate_2 by (eapply lookup_lt_Some; exact Ed).
      cbn. rewrite (list_lookup_total_correct _ _ _ Ed). reflexivity.
    + rewrite (lookup_ge_None_2 (replicate _ _))
        by (rewrite length_replicate; apply lookup_ge_None; exact Ed).
      reflexivity.
  - rewrite length_replicate. reflexivity.
  - intros d x s Hx Hs _. apply lookup_replicate in Hx as [-> Hd].
    destruct (lookup_lt_is_Some_2 aux d) as [arow Harow]; [lia|].
    destruct (lookup_lt_is_Some_2 aseed d Hd) as [srow Hsrow].
    rewrite Forall_lookup in Haux, Hseed.
    pose proof (Haux d arow Harow) as Ha. pose proof (Hseed d srow Hsrow) as Hb.
    destruct (in_range_lookup _ _ Ha) as [a Ea].
    destruct (in_range_lookup _ _ Hb) as [b Eb].
    rewrite index_of_nat, Harow, bind_ret.
    rewrite (index_ok _ _ a (proj1 Ha) Ea), bind_ret.
    rewrite index_of_nat, Hsrow, bind_ret.
    rewrite (index_ok _ _ b (proj1 Hb) Eb), bind_ret.
    rewrite (set_index_here _ _ MX_default) by exact Hs.
    rewrite (list_lookup_total_correct _ _ _ Harow).
    rewrite (list_lookup_total_correct _ _ _ Hsrow).
    rewrite (list_lookup_total_correct _ _ _ Ea).
    rewrite (list_lookup_total_correct _ _ _ Eb). reflexivity.
Qed.

Lemma rhs_single_loop (self : Rootfinder) (aseed : list (list MX)) :
  Forall (in_range (iout_ self)) aseed ->
  for_ (Z.of_nat (length aseed)) (fun d rhs =>
      srow <- index aseed d ;;
      s <- index srow (iout_ self) ;;
      set_index rhs d (vec s)) (replicate (length aseed) MX_default)
  = ret (vec <$> ((fun seed => seed !!! Z.to_nat (iout_ self)) <$> aseed)).
Proof.
  intros Hseed.
  rewrite (for_rows_n (fun d _ => vec ((aseed !!! d) !!! Z.to_nat (iout_ self)))).
  - f_equal. f_equal. apply list_eq. intros d.
    rewrite list_lookup_imap, !list_lookup_fmap.
    destruct (aseed !! d) as [seed|] eqn:Ed.
    + rewrite lookup_replicate_2 by (eapply lookup_lt_Some; exact Ed).
      cbn. rewrite (list_lookup_total_correct _ _ _ Ed). reflexivity.
    + rewrite (lookup_ge_None_2 (replicate _ _))
        by (rewrite length_replicate; apply lookup_ge_None; exact Ed).
      reflexivity.
  - rewrite length_replicate. reflexivity.
  - intros d x s Hx Hs _. apply lookup_replicate in Hx as [-> Hd].
    destruct (lookup_lt_is_Some_2 aseed d Hd) as [srow Hsrow].
    rewrite Forall_lookup in Hseed. pose proof (Hseed d srow Hsrow) as Hb.
    destruct (in_range_lookup _ _ Hb) as [b Eb].
    rewrite index_of_nat, Hsrow, bind_ret.
    rewrite (index_ok _ _ b (proj1 Hb) Eb), bind_ret.
    rewrite (set_index_here _ _ MX_default) by exact Hs.
    rewrite (list_lookup_total_correct _ _ _ Hsrow).
    rewrite (list_lookup_total_correct _ _ _ Eb). reflexivity.
Qed.

(** The seeds of the final pass. *)
Lemma final_seed_loop (self : Rootfinder) (sol : list MX) (aseed : list (list MX)) :
  length sol = length aseed ->
  0 <= iout_ self < this_n_out self ->
  Forall (fun seed : list MX => this_n_out self <= Z.of_nat (length seed)) aseed ->
  for_ (Z.of_nat (length aseed)) (fun d f_aseed =>
      for_ (this_n_out self) (fun i f_aseed =>
          if i =? iout_ self then
            x <- index sol d ;;
            row <- index f_aseed d ;;
            row <- set_index row i (reshape x (this_size_out self i)) ;;
            set_index f_aseed d row
          else
            row <- index f_aseed d ;;
            row <- set_index row i (MX_zeros (this_size_out self i)) ;;
            set_index f_aseed d row) f_aseed) (adj_aux_seed self aseed)
  = ret (imap (fun d (_ : list MX) =>
                 (fun i => if decide (Z.of_nat i = iout_ self)
                           then reshape (sol !!! d) (this_size_out self (iout_ self))
                           else MX_zeros (this_size_out self (Z.of_nat i)))
                   <$> seq 0 (Z.to_nat (this_n_out self))) aseed).
Proof.
  intros Hsol Hiout Hseed.
  assert (Hrowlen : forall d row, adj_aux_seed self aseed !! d = Some row ->
            length row = Z.to_nat (this_n_out self)).
  { intros d row Hrow. unfold adj_aux_seed in Hrow. rewrite list_lookup_fmap in Hrow.
    destruct (aseed !! d) as [seed|] eqn:Ed; [|discriminate]. injection Hrow as <-.
    rewrite Forall_lookup in Hseed. specialize (Hseed d seed Ed).
    rewrite length_insert, length_take. lia. }
  rewrite (for_rows_n (fun d row =>
     imap (fun i (_ : MX) =>
             if decide (Z.of_nat i = iout_ self)
             then reshape (sol !!! d) (this_size_out self (iout_ self))
             else MX_zeros (this_size_out self (Z.of_nat i))) row)).
  - f_equal. apply list_eq. intros d. rewrite !list_lookup_imap.
    unfold adj_aux_seed at 1. rewrite list_lookup_fmap.
    destruct (aseed !! d) as [seed|] eqn:Ed; [cbn|reflexivity]. f_equal.
    rewrite Forall_lookup in Hseed. specialize (Hseed d seed Ed).
    apply list_eq. intros i. rewrite list_lookup_imap, list_lookup_fmap.
    destruct (decide (i < Z.to_nat (this_n_out self))%nat) as [Hi|Hi].
    + rewrite lookup_seq_lt by lia. cbn.
      destruct (lookup_lt_is_Some_2
        (<[Z.to_nat (iout_ self) := MX_zeros (this_size_in self (iin_ self))]>
           (take (Z.to_nat (this_n_out self)) seed)) i) as [y Hy].
      { rewrite length_insert, length_take. lia. }
      rewrite Hy. reflexivity.
    + rewrite lookup_seq_ge by lia.
      rewrite lookup_ge_None_2 by (rewrite length_insert, length_take; lia).
      reflexivity.
  - unfold adj_aux_seed. rewrite length_fmap. reflexivity.
  - intros d row s Hrow Hs Hlen.
    pose proof (Hrowlen d row Hrow) as Hl.
    assert (Hd : (d < length sol)%nat).
    { apply lookup_lt_Some in Hrow. unfold adj_aux_seed in Hrow.
      rewrite length_fmap in Hrow. lia. }
    destruct (lookup_lt_is_Some_2 sol d Hd) as [x Hx].
    apply (for_entries_n _ _ _ d row s); [lia|exact Hs|].
    intros i y r' s' Hy Hs' Hr'.
    destruct (Z.eqb_spec (Z.of_nat i) (iout_ self)) as [Hio|Hio].
    + rewrite index_of_nat, Hx, bind_ret, index_of_nat, Hs', bind_ret.
      rewrite (set_index_here _ _ y) by exact Hr'. rewrite bind_ret.
      rewrite (set_index_here _ _ r') by exact Hs'.
      destruct (decide (Z.of_nat i = iout_ self)); [|lia].
      rewrite (list_lookup_total_correct _ _ _ Hx), Hio. reflexivity.
    + rewrite index_of_nat, Hs', bind_ret.
      rewrite (set_index_here _ _ y) by exact Hr'. rewrite bind_ret.
      rewrite (set_index_here _ _ r') by exact Hs'.
      destruct (decide (Z.of_nat i = iout_ self)); [lia|reflexivity].
Qed.

(** "No dependency on guess (1)": the rows of [asens] are brought to
    [n_in()] entries and the slot of the guess is remembered. *)
Lemma guess_loop (self : Rootfinder) (nadj : nat) (asens : list (list MX)) :
  0 <= iin_ self < this_n_in self ->
  for_ (Z.of_nat nadj) (fun d '(asens, tmp) =>
      row <- index asens d ;;
      asens <- set_index asens d (resize (Z.to_nat (this_n_in self)) MX_default row) ;;
      row <- index asens d ;;
      x <- index row (iin_ self) ;;
      tmp <- set_index tmp d
               (if is_empty x true then MX_zeros (this_size_in self (iin_ self)) else x) ;;
      ret (asens, tmp)) (resize nadj [] asens, replicate nadj MX_default)
  = ret (adj_asens_in self nadj asens, adj_guess self <$> adj_asens_in self nadj asens).
Proof.
  intros Hiin.
  set (a0 := resize nadj [] asens).
  set (fit := resize (Z.to_nat (this_n_in self)) MX_default).
  assert (Ha0 : length a0 = nadj) by apply length_resize.
  destruct (for_inv
    (fun d (st : list (list MX) * list MX) =>
       length st.1 = nadj /\ length st.2 = nadj /\
       (forall k, st.1 !! k = if decide (k < d)%nat then fit <$> a0 !! k else a0 !! k) /\
       (forall k, (k < d)%nat -> st.2 !! k = adj_guess self <$> (fit <$> a0 !! k)))
    (fun d '(asens, tmp) =>
      row <- index asens d ;;
      asens <- set_index asens d (resize (Z.to_nat (this_n_in self)) MX_default row) ;;
      row <- index asens d ;;
      x <- index row (iin_ self) ;;
      tmp <- set_index tmp d
               (if is_empty x true then MX_zeros (this_size_in self (iin_ self)) else x) ;;
      ret (asens, tmp))
    nadj (a0, replicate nadj MX_default)) as ([a t] & E & Hla & Hlt & Ha & Ht).
  - cbn. split; [exact Ha0|]. split; [apply length_replicate|].
    split; [|intros k Hk; lia].
    intros k. destruct (decide (k < 0)%nat); [lia|reflexivity].
  - intros d [a t] Hd (Hla & Hlt & Ha & Ht). cbn in Hla, Hlt, Ha, Ht.
    destruct (lookup_lt_is_Some_2 a0 d) as [row Hrow]; [lia|].
    assert (Had : a !! d = Some row).
    { rewrite Ha. destruct (decide (d < d)%nat); [lia|exact Hrow]. }
    destruct (lookup_lt_is_Some_2 t d) as [y Hy]; [lia|].
    assert (Hin : in_range (iin_ self) (fit row)).
    { unfold in_range, fit. rewrite length_resize. lia. }
    destruct (in_range_lookup _ _ Hin) as [x Hx].
    eexists (_, _). split.
    + rewrite index_of_nat, Had, bind_ret.
      rewrite (set_index_here _ _ row) by exact Had. rewrite bind_ret.
      rewrite index_of_nat, list_lookup_insert_eq by lia. rewrite bind_ret.
      fold fit. rewrite (index_ok _ _ x (proj1 Hin) Hx), bind_ret.
      rewrite (set_index_here _ _ y) by exact Hy. rewrite bind_ret. reflexivity.
    + cbn. split; [|split; [|split]].
      * rewrite length_insert. exact Hla.
      * rewrite length_insert. exact Hlt.
      * intros k. destruct (decide (k = d)) as [->|Hne].
        -- rewrite list_lookup_insert_eq by lia. rewrite Hrow.
           destruct (decide (d < Datatypes.S d)%nat); [reflexivity|lia].
        -- rewrite list_lookup_insert_ne by congruence. rewrite Ha.
           destruct (decide (k < d)%nat), (decide (k < Datatypes.S d)%nat);
             try reflexivity; lia.
      * intros k Hk. destruct (decide (k = d)) as [->|Hne].
        -- rewrite list_lookup_insert_eq by lia. rewrite Hrow. cbn.
           unfold adj_guess. fold fit.
           rewrite (list_lookup_total_correct _ _ _ Hx). reflexivity.
        -- rewrite list_lookup_insert_ne by congruence. apply Ht. lia.
  - subst a0 fit. rewrite E. unfold adj_asens_in. cbn in Hla, Hlt, Ha, Ht.
    assert (Hae : a = resize (Z.to_nat (this_n_in self)) MX_default <$> resize nadj [] asens).
    { apply list_eq. intros k. rewrite Ha, list_lookup_fmap.
      destruct (decide (k < nadj)%nat); [reflexivity|].
      rewrite (lookup_ge_None_2 (resize nadj [] asens)) by (rewrite length_resize; lia).
      reflexivity. }
    assert (Hte : t = adj_guess self <$>
                      (resize (Z.to_nat (this_n_in self)) MX_default <$> resize nadj [] asens)).
    { apply list_eq. intros k. rewrite !list_lookup_fmap.
      destruct (decide (k < nadj)%nat) as [Hk|Hk]; [apply Ht; exact Hk|].
      rewrite (lookup_ge_None_2 (resize nadj [] asens)) by (rewrite length_resize; lia).
      apply lookup_ge_None. lia. }
    rewrite Hae, Hte. reflexivity.
Qed.

(** "No dependency on guess (2)": the slot of the guess is put back. *)
Lemma restore_loop (self : Rootfinder) (tmp : list MX) (pass : list (list MX)) :
  length tmp = length pass ->
  Forall (in_range (iin_ self)) pass ->
  for_ (Z.of_nat (length pass)) (fun d asens =>
      x <- index tmp d ;;
      row <- index asens d ;;
      row <- set_index row (iin_ self) x ;;
      set_index asens d row) pass
  = ret (imap (fun d row => <[Z.to_nat (iin_ self) := tmp !!! d]> row) pass).
Proof.
  intros Hlen Hpass. apply for_rows.
  intros d row s Hrow Hs _.
  destruct (lookup_lt_is_Some_2 tmp d) as [x Hx];
    [apply lookup_lt_Some in Hrow; lia|].
  rewrite Forall_lookup in Hpass.
  rewrite index_of_nat, Hx, bind_ret, index_of_nat, Hs, bind_ret.
  rewrite set_index_ok by (eapply Hpass; exact Hrow).
  rewrite bind_ret, (set_index_here _ _ row) by exact Hs.
  rewrite (list_lookup_total_correct _ _ _ Hx). reflexivity.
Qed.

(** The direct contributions of the auxiliary outputs, added to every slot
    but the one of the guess. *)
Lemma contribution_loop (self : Rootfinder) (aux asens : list (list MX)) :
  length aux = length asens ->
  0 <= this_n_in self ->
  Forall (fun row : list MX => Z.of_nat (length row) = this_n_in self) aux ->
  Forall (fun row : list MX => Z.of_nat (length row) = this_n_in self) asens ->
  for_ (Z.of_nat (length asens)) (fun d asens =>
      for_ (this_n_in self) (fun i asens =>
          if i =? iin_ self then ret asens else
            row <- index asens d ;;
            a <- index row i ;;
            arow <- index aux d ;;
            b <- index arow i ;;
            row <- set_index row i (MX_add a b) ;;
            set_index asens d row) asens) asens
  = ret (imap (fun d row =>
                 imap (fun i x => if decide (Z.of_nat i = iin_ self) then x
                                  else MX_add x ((aux !!! d) !!! i)) row) asens).
Proof.
  intros Hlen Hn Haux Hasens. apply for_rows.
  intros d row s Hrow Hs _.
  rewrite Forall_lookup in Haux, Hasens.
  pose proof (Hasens d row Hrow) as Hl.
  destruct (lookup_lt_is_Some_2 aux d) as [arow Harow];
    [apply lookup_lt_Some in Hrow; lia|].
  pose proof (Haux d arow Harow) as Hla.
  apply (for_entries_n _ _ _ d row s); [lia|exact Hs|].
  intros i x r' s' Hx Hs' Hr'.
  destruct (Z.eqb_spec (Z.of_nat i) (iin_ self)) as [Hi|Hi].
  - destruct (decide (Z.of_nat i = iin_ self)); [|lia].
    rewrite (list_insert_id r' i x Hr'), (list_insert_id s' d r' Hs'). reflexivity.
  - destruct (decide (Z.of_nat i = iin_ self)); [lia|].
    destruct (lookup_lt_is_Some_2 arow i) as [b Hb];
      [apply lookup_lt_Some in Hx; lia|].
    rewrite index_of_nat, Hs', bind_ret, index_of_nat, Hr', bind_ret.
    rewrite index_of_nat, Harow, bind_ret, index_of_nat, Hb, bind_ret.
    rewrite (set_index_here _ _ x) by exact Hr'. rewrite bind_ret.
    rewrite (set_index_here _ _ r') by exact Hs'.
    rewrite (list_lookup_total_correct _ _ _ Harow).
    rewrite (list_lookup_total_correct _ _ _ Hb). reflexivity.
Qed.

Lemma reverse_run (self : Rootfinder) (arg res : list MX)
    (aseed asens : list (list MX)) (ai ni : bool) (J : MX) :
  aseed <> [] ->
  reverse_ready self arg res aseed J ->
  let f_arg := ift_arg self arg res in
  let f_res := ift_res self res in
  reverse self arg res aseed asens ai ni =
  (jac_call f_arg
   :: (if 1 <? this_n_out self
       then [oracle_reverse_call f_arg f_res (adj_aux_seed self aseed)]
       else [])
   ++ [linear_solve J (adj_rhs self arg res aseed ai ni) true;
       oracle_reverse_call f_arg f_res (adj_final_seed self J arg res aseed ai ni)],
   Ok (adj_result self J arg res aseed asens ai ni)).
Proof.
  intros Hne (Hres & Harg & Hseed & HJ & Hshape & Hiout & Hiin & Hnin & Hsplit)
         f_arg f_res.
  unfold reverse.
  destruct (Z.eqb_spec (Z.of_nat (length aseed)) 0) as [E0|_].
  { destruct aseed; [congruence|simpl in E0; lia]. }
  destruct (in_range_lookup _ _ Hres) as [z Hz].
  assert (Hz' : res !!! Z.to_nat (iout_ self) = z)
    by (apply list_lookup_total_correct; exact Hz).
  eapply bind_step; [apply at_ok; [apply Hres|exact Hz]|].
  eapply bind_step; [apply set_index_ok; exact Harg|].
  rewrite <- Hz'. fold (ift_arg self arg res). fold f_arg.
  destruct (jac_front_run self f_arg J HJ) as (jac & Hget & Hfront).
  eapply bind_step; [exact Hget|].
  eapply bind_cons; [exact Hfront|].
  eapply bind_step; [apply set_index_ok; exact Hres|].
  fold (ift_res self res). fold f_res.
  eapply bind_step; [apply aux_seed_loop; assumption|].
  (* the seeds reach the residual output *)
  assert (Hseed_out : Forall (in_range (iout_ self)) aseed).
  { eapply Forall_impl; [exact Hseed|]. intros seed Hs. unfold in_range. cbn in Hs. lia. }
  assert (Hrows : forall a r seeds sens,
            Forall (in_range (iin_ self))
                   (Function_reverse (oracle_ self) a r seeds sens ai ni)).
  { intros a r seeds sens. eapply Forall_impl; [apply Hshape|].
    intros row Hrow. unfold in_range. cbn in Hrow. lia. }
  (* auxiliary outputs *)
  assert (Haux :
    (if 1 <? this_n_out self then
       asens_aux <- oracle_reverse self f_arg f_res (adj_aux_seed self aseed) [] ai ni ;;
       rhs <- for_ (Z.of_nat (length aseed)) (fun d rhs =>
           arow <- index asens_aux d ;;
           a <- index arow (iin_ self) ;;
           srow <- index aseed d ;;
           s <- index srow (iout_ self) ;;
           set_index rhs d (vec (MX_add a s))) (replicate (length aseed) MX_default) ;;
       ret (rhs, asens_aux)
     else
       rhs <- for_ (Z.of_nat (length aseed)) (fun d rhs =>
           srow <- index aseed d ;;
           s <- index srow (iout_ self) ;;
           set_index rhs d (vec s)) (replicate (length aseed) MX_default) ;;
       ret (rhs, []))
    = ((if 1 <? this_n_out self
        then [oracle_reverse_call f_arg f_res (adj_aux_seed self aseed)] else []),
       Ok (vec <$> adj_combined self arg res aseed ai ni,
           if 1 <? this_n_out self then adj_aux self arg res aseed ai ni else []))).
  { unfold adj_combined. destruct (1 <? this_n_out self).
    - eapply bind_cons; [reflexivity|].
      eapply bind_step; [|reflexivity].
      apply rhs_aux_loop; [|apply Hrows|exact Hseed_out].
      unfold adj_aux. rewrite (proj1 (Hshape _ _ _ _ _ _)).
      unfold adj_aux_seed. apply length_fmap.
    - eapply bind_step; [|reflexivity].
      apply rhs_single_loop. exact Hseed_out. }
  eapply bind_app; [exact Haux|]. clear Haux. cbv beta iota.
  fold (adj_rhs self arg res aseed ai ni).
  (* the batched transposed solve *)
  eapply bind_cons; [reflexivity|].
  set (sol := horzsplit (getSolve J (adj_rhs self arg res aseed ai ni) true (linsol_ self))).
  assert (Hsol : length sol = length aseed).
  { unfold sol, adj_rhs. rewrite Hsplit. unfold adj_combined.
    destruct (1 <? this_n_out self); [apply length_imap|apply length_fmap]. }
  eapply bind_step; [apply final_seed_loop; assumption|].
  change (imap _ aseed) with (adj_final_seed self J arg res aseed ai ni).
  (* the slot of the guess *)
  eapply bind_step; [apply guess_loop; exact Hiin|]. cbv beta iota.
  eapply bind_cons; [reflexivity|].
  change (Function_reverse (oracle_ self) f_arg f_res
            (adj_final_seed self J arg res aseed ai ni)
            (adj_asens_in self (length aseed) asens) ai ni)
    with (adj_pass self J arg res aseed asens ai ni).
  set (pass := adj_pass self J arg res aseed asens ai ni).
  assert (Hpass : length pass = length aseed).
  { unfold pass, adj_pass. rewrite (proj1 (Hshape _ _ _ _ _ _)).
    unfold adj_final_seed. apply length_imap. }
  assert (Hpassrows : Forall (fun row : list MX =>
                                Z.of_nat (length row) = this_n_in self) pass).
  { rewrite Hnin. apply Hshape. }
  assert (Hin_len : length (adj_asens_in self (length aseed) asens) = length aseed).
  { unfold adj_asens_in. rewrite length_fmap. apply length_resize. }
  eapply bind_step.
  { replace (Z.of_nat (length aseed)) with (Z.of_nat (length pass))
      by (rewrite Hpass; reflexivity).
    apply restore_loop.
    - rewrite length_fmap, Hin_len. symmetry. exact Hpass.
    - apply Hrows. }
  set (restored := imap _ pass).
  assert (Hres_rows : forall d row, pass !! d = Some row ->
            restored !! d
            = Some (<[Z.to_nat (iin_ self) :=
                       adj_guess self (adj_asens_in self (length aseed) asens !!! d)]> row)).
  { intros d row Hrow. unfold restored. rewrite list_lookup_imap, Hrow. cbn.
    destruct (lookup_lt_is_Some_2 (adj_asens_in self (length aseed) asens) d)
      as [r0 Hr0]; [apply lookup_lt_Some in Hrow; lia|].
    erewrite (list_lookup_total_correct (adj_guess self <$> _))
      by (rewrite list_lookup_fmap, Hr0; reflexivity).
    rewrite (list_lookup_total_correct _ _ _ Hr0). reflexivity. }
  assert (Hfinal : forall (h : nat -> nat -> MX -> MX),
            (forall d i x, Z.of_nat i <> iin_ self -> h d i x =
               if 1 <? this_n_out self
               then MX_add x ((adj_aux self arg res aseed ai ni !!! d) !!! i) else x) ->
            (forall d i x, Z.of_nat i = iin_ self -> h d i x = x) ->
            imap (fun d row => imap (h d) row) restored
            = adj_result self J arg res aseed asens ai ni).
  { intros h Hh1 Hh2. unfold adj_result. fold pass. apply list_eq. intros d.
    rewrite !list_lookup_imap.
    destruct (pass !! d) as [row|] eqn:Hrow.
    - rewrite (Hres_rows d row Hrow). cbn. f_equal.
      rewrite Forall_lookup in Hpassrows. specialize (Hpassrows d row Hrow).
      apply list_eq. intros i. rewrite !list_lookup_imap.
      destruct (decide (i = Z.to_nat (iin_ self))) as [->|Hi].
      + rewrite list_lookup_insert_eq by lia.
        destruct (lookup_lt_is_Some_2 row (Z.to_nat (iin_ self))) as [x Hx]; [lia|].
        rewrite Hx. cbn. rewrite Hh2 by lia.
        destruct (decide (Z.of_nat (Z.to_nat (iin_ self)) = iin_ self)); [reflexivity|lia].
      + rewrite list_lookup_insert_ne by congruence.
        destruct (row !! i) as [x|]; [cbn|reflexivity].
        rewrite Hh1 by lia.
        destruct (decide (Z.of_nat i = iin_ self)); [lia|reflexivity].
    - unfold restored. rewrite list_lookup_imap, Hrow. reflexivity. }
  destruct (1 <? this_n_out self) eqn:Eout.
  - assert (Hlr : length restored = length aseed).
    { unfold restored. rewrite length_imap. exact Hpass. }
    replace (Z.of_nat (length aseed)) with (Z.of_nat (length restored))
      by (rewrite Hlr; reflexivity).
    rewrite contribution_loop.
    + unfold ret. f_equal. f_equal.
      apply (Hfinal (fun d i x =>
               if decide (Z.of_nat i = iin_ self) then x
               else MX_add x ((adj_aux self arg res aseed ai ni !!! d) !!! i))).
      * intros d i x Hi. destruct (decide (Z.of_nat i = iin_ self)); [lia|reflexivity].
      * intros d i x Hi. destruct (decide (Z.of_nat i = iin_ self)); [reflexivity|lia].
    + rewrite Hlr. unfold adj_aux. rewrite (proj1 (Hshape _ _ _ _ _ _)).
      unfold adj_aux_seed. apply length_fmap.
    + lia.
    + rewrite Hnin. apply Hshape.
    + apply Forall_lookup. intros d row' Hrow'.
      unfold restored in Hrow'. rewrite list_lookup_imap in Hrow'.
      destruct (pass !! d) as [row|] eqn:Hrow; [|discriminate].
      injection Hrow' as <-. rewrite length_insert.
      rewrite Forall_lookup in Hpassrows. apply (Hpassrows d row Hrow).
  - unfold ret. f_equal. f_equal.
    rewrite <- (Hfinal (fun d i x => x)).
    + apply list_eq. intros d. rewrite list_lookup_imap.
      destruct (restored !! d) as [row|]; [cbn|reflexivity]. f_equal.
      apply list_eq. intros i. rewrite list_lookup_imap.
      destruct (row !! i); reflexivity.
    + reflexivity.
    + reflexivity.
Qed.

End ReverseFacts.

(** ** Reverse mode *)

Section ReverseTheorems.
Context `{Casadi}.

(** C2. Under the standing assumptions of a call ([reverse_ready]), the
    adjoint multipliers of all directions come from one transposed solve
    [J^T * lambda = -rhs] on the horizontally stacked right-hand sides.
    Column [d] of [rhs] is the adjoint seed on the residual output
    [aseed[d][iout_]] when the oracle has a single output; when there are
    auxiliary outputs it is that seed plus the entry for the unknown of the
    oracle's back-propagation of the output seeds with the residual's seed
    held at zero. The multiplier of direction [d] is then the seed on
    [iout_] of the final pass through the oracle, next to zero seeds. *)
Theorem reverse_multiplier (self : Rootfinder) (arg res : list MX)
    (aseed asens : list (list MX)) (ai ni : bool) (J : MX) :
  aseed <> [] ->
  reverse_ready self arg res aseed J ->
  let f_arg := ift_arg self arg res in
  let f_res := ift_res self res in
  let zero := MX_zeros (this_size_in self (iin_ self)) in
  let held := (fun seed => <[Z.to_nat (iout_ self) := zero]>
                             (take (Z.to_nat (this_n_out self)) seed)) <$> aseed in
  let aux := Function_reverse (oracle_ self) f_arg f_res held [] ai ni in
  let combined :=
    if 1 <? this_n_out self
    then imap (fun d seed => MX_add ((aux !!! d) !!! Z.to_nat (iin_ self))
                                    (seed !!! Z.to_nat (iout_ self))) aseed
    else (fun seed => seed !!! Z.to_nat (iout_ self)) <$> aseed in
  let rhs := MX_neg (horzcat (vec <$> combined)) in
  let lam := horzsplit (getSolve J rhs true (linsol_ self)) in
  exists trace out seeds,
    reverse self arg res aseed asens ai ni = (trace, Ok out) /\
    List.filter is_linear_solve trace = [linear_solve J rhs true] /\
    List.filter is_oracle_call trace
    = (if 1 <? this_n_out self then [oracle_reverse_call f_arg f_res held] else [])
      ++ [oracle_reverse_call f_arg f_res seeds] /\
    length lam = length aseed /\
    length seeds = length aseed /\
    (forall d x, lam !! d = Some x ->
       (seeds !!! d) !! Z.to_nat (iout_ self)
       = Some (reshape x (this_size_out self (iout_ self)))) /\
    (forall d i, (d < length aseed)%nat -> 0 <= Z.of_nat i < this_n_out self ->
       Z.of_nat i <> iout_ self ->
       (seeds !!! d) !! i = Some (MX_zeros (this_size_out self (Z.of_nat i)))).
Proof.
  intros Hne Hready f_arg f_res zero held aux combined rhs lam.
  pose proof (reverse_run self arg res aseed asens ai ni J Hne Hready) as Hrun.
  cbv zeta in Hrun.
  destruct Hready as (Hres & Harg & Hseed & HJ & Hshape & Hiout & Hiin & Hnin & Hsplit).
  change (adj_rhs self arg res aseed ai ni) with rhs in *.
  assert (Hlam : length lam = length aseed).
  { unfold lam, rhs. rewrite Hsplit. unfold combined.
    destruct (1 <? this_n_out self); [apply length_imap|apply length_fmap]. }
  eexists. eexists. exists (adj_final_seed self J arg res aseed ai ni).
  split; [exact Hrun|].
  split; [destruct (1 <? this_n_out self); reflexivity|].
  split; [destruct (1 <? this_n_out self); reflexivity|].
  split; [exact Hlam|].
  split; [apply length_imap|].
  assert (Hrow : forall d, (d < length aseed)%nat ->
            adj_final_seed self J arg res aseed ai ni !!! d
            = (fun i => if decide (Z.of_nat i = iout_ self)
                        then adj_lambda self J arg res aseed ai ni d
                        else MX_zeros (this_size_out self (Z.of_nat i)))
                <$> seq 0 (Z.to_nat (this_n_out self))).
  { intros d Hd. destruct (lookup_lt_is_Some_2 aseed d Hd) as [seed Hs].
    apply list_lookup_total_correct. unfold adj_final_seed.
    rewrite list_lookup_imap, Hs. reflexivity. }
  split.
  - intros d x Hx. rewrite Hrow by (apply lookup_lt_Some in Hx; lia).
    rewrite list_lookup_fmap, lookup_seq_lt by lia. cbn.
    destruct (decide (Z.of_nat (Z.to_nat (iout_ self)) = iout_ self)); [|lia].
    unfold adj_lambda. change (adj_rhs self arg res aseed ai ni) with rhs. fold lam.
    rewrite (list_lookup_total_correct _ _ _ Hx). reflexivity.
  - intros d i Hd Hi Hne'. rewrite Hrow by exact Hd.
    rewrite list_lookup_fmap, lookup_seq_lt by lia. cbn.
    destruct (decide (Z.of_nat i = iout_ self)); [contradiction|reflexivity].
Qed.

(** C7. After [reverse] returns, for every direction [d] the slot
    [asens[d][iin_]] holds what the caller put there before the call, or the
    zero matrix of [size_in(iin_)] if that slot was empty ([MX()] stands in a
    slot the caller left out); the back-propagation does not touch it. Every
    other input slot holds the result of the final pass through the oracle,
    plus the auxiliary outputs' direct contribution when there are
    auxiliary outputs. *)
Theorem reverse_guess_slot (self : Rootfinder) (arg res : list MX)
    (aseed asens : list (list MX)) (ai ni : bool) (J : MX) :
  aseed <> [] ->
  reverse_ready self arg res aseed J ->
  let slot d :=
    resize (Z.to_nat (this_n_in self)) MX_default
           (resize (length aseed) [] asens !!! d) !!! Z.to_nat (iin_ self) in
  let aux := adj_aux self arg res aseed ai ni in
  let pass := adj_pass self J arg res aseed asens ai ni in
  exists trace out,
    reverse self arg res aseed asens ai ni = (trace, Ok out) /\
    length out = length aseed /\
    (forall d, (d < length aseed)%nat ->
       (out !!! d) !! Z.to_nat (iin_ self)
       = Some (if is_empty (slot d) true
               then MX_zeros (this_size_in self (iin_ self)) else slot d)) /\
    (forall d row v, asens !! d = Some row -> row !! Z.to_nat (iin_ self) = Some v ->
       (d < length aseed)%nat -> slot d = v) /\
    (forall d i x, (d < length aseed)%nat -> Z.of_nat i <> iin_ self ->
       (pass !!! d) !! i = Some x ->
       (out !!! d) !! i
       = Some (if 1 <? this_n_out self then MX_add x ((aux !!! d) !!! i) else x)).
Proof.
  intros Hne Hready slot aux pass.
  pose proof (reverse_run self arg res aseed asens ai ni J Hne Hready) as Hrun.
  cbv zeta in Hrun.
  destruct Hready as (Hres & Harg & Hseed & HJ & Hshape & Hiout & Hiin & Hnin & Hsplit).
  assert (Hpass : length pass = length aseed).
  { unfold pass, adj_pass. rewrite (proj1 (Hshape _ _ _ _ _ _)).
    unfold adj_final_seed. apply length_imap. }
  assert (Hpassrows : Forall (fun row : list MX =>
                                Z.of_nat (length row) = this_n_in self) pass).
  { rewrite Hnin. apply Hshape. }
  assert (Hslot : forall d, (d < length aseed)%nat ->
            adj_guess self (adj_asens_in self (length aseed) asens !!! d)
            = if is_empty (slot d) true
              then MX_zeros (this_size_in self (iin_ self)) else slot d).
  { intros d Hd. unfold adj_guess, adj_asens_in.
    erewrite (list_lookup_total_correct (_ <$> _)).
    2:{ rewrite list_lookup_fmap.
        rewrite (list_lookup_lookup_total_lt (resize (length aseed) [] asens) d)
          by (rewrite length_resize; exact Hd).
        reflexivity. }
    reflexivity. }
  assert (Hout : forall d row, pass !! d = Some row ->
            adj_result self J arg res aseed asens ai ni !!! d
            = imap (fun i x =>
                      if decide (Z.of_nat i = iin_ self)
                      then adj_guess self (adj_asens_in self (length aseed) asens !!! d)
                      else if 1 <? this_n_out self
                           then MX_add x ((aux !!! d) !!! i) else x) row).
  { intros d row Hrow. apply list_lookup_total_correct. unfold adj_result.
    fold pass. rewrite list_lookup_imap, Hrow. reflexivity. }
  eexists _, _. split; [exact Hrun|].
  split; [unfold adj_result; rewrite length_imap; exact Hpass|].
  split; [|split].
  - intros d Hd. destruct (lookup_lt_is_Some_2 pass d) as [row Hrow]; [lia|].
    rewrite (Hout d row Hrow), list_lookup_imap.
    rewrite Forall_lookup in Hpassrows. specialize (Hpassrows d row Hrow).
    destruct (lookup_lt_is_Some_2 row (Z.to_nat (iin_ self))) as [x Hx]; [lia|].
    rewrite Hx. cbn.
    destruct (decide (Z.of_nat (Z.to_nat (iin_ self)) = iin_ self)); [|lia].
    rewrite Hslot by exact Hd. reflexivity.
  - intros d row v Hrow Hv Hd. unfold slot.
    assert (Hr : resize (length aseed) [] asens !! d = Some row).
    { rewrite lookup_resize; [exact Hrow|exact Hd|eapply lookup_lt_Some; exact Hrow]. }
    rewrite (list_lookup_total_correct _ _ _ Hr).
    apply list_lookup_total_correct.
    rewrite lookup_resize; [exact Hv|lia|eapply lookup_lt_Some; exact Hv].
  - intros d i x Hd Hi Hx.
    destruct (lookup_lt_is_Some_2 pass d) as [row Hrow]; [lia|].
    rewrite (list_lookup_total_correct _ _ _ Hrow) in Hx.
    rewrite (Hout d row Hrow), list_lookup_imap, Hx. cbn.
    destruct (decide (Z.of_nat i = iin_ self)); [contradiction|reflexivity].
Qed.

(** C10. Called with an empty list of seeds, [forward] and [reverse] return
    at once with an empty list of sensitivities: no call to the oracle, no
    evaluation of the Jacobian and no linear solve is made. *)
Theorem quick_return_no_seeds (self : Rootfinder) (arg res : list MX)
    (sens : list (list MX)) (ai ni : bool) :
  forward self arg res [] sens ai ni = ([], Ok []) /\
  reverse self arg res [] sens ai ni = ([], Ok []).
Proof.
  unfold forward, reverse. cbn [length]. rewrite resize_0.
  split; reflexivity.
Qed.

End ReverseTheorems.

Section ReverseExamples.
#[local] Existing Instance Toy.casadi.

Lemma reverse_multiplier_witness :
  Toy.aseed0 <> [] /\
  reverse_ready (Toy.node 2) Toy.arg0 Toy.res0 Toy.aseed0
                (Toy.Jac [Toy.Sym "z"; Toy.Sym "p"]) /\
  exists trace out,
    reverse (Toy.node 2) Toy.arg0 Toy.res0 Toy.aseed0 [] false false = (trace, Ok out) /\
    List.filter is_linear_solve trace
    = [linear_solve (Toy.Jac [Toy.Sym "z"; Toy.Sym "p"])
         (Toy.Neg (Toy.Horzcat [Toy.Vec
            (Toy.Add (Toy.Vjp 0 [Toy.Sym "z"; Toy.Sym "p"]
                               [Toy.Zeros (2, 1); Toy.Sym "by"])
                     (Toy.Sym "bz"))]))
         true].
Proof.
  assert (Hne : Toy.aseed0 <> []) by discriminate.
  pose proof (toy_reverse_ready 2 ltac:(lia)) as Hready.
  split; [exact Hne|]. split; [exact Hready|].
  destruct (reverse_multiplier (Toy.node 2) Toy.arg0 Toy.res0 Toy.aseed0 []
              false false _ Hne Hready) as (trace & out & seeds & Hrun & Hsolve & _).
  exists trace, out. split; [exact Hrun|]. exact Hsolve.
Defined.

Lemma reverse_guess_slot_witness :
  Toy.aseed0 <> [] /\
  reverse_ready (Toy.node 2) Toy.arg0 Toy.res0 Toy.aseed0
                (Toy.Jac [Toy.Sym "z"; Toy.Sym "p"]) /\
  exists trace out,
    reverse (Toy.node 2) Toy.arg0 Toy.res0 Toy.aseed0
            [[Toy.Sym "kept"; Toy.Nil]] false false = (trace, Ok out) /\
    (out !!! 0%nat) !! 0%nat = Some (Toy.Sym "kept").
Proof.
  assert (Hne : Toy.aseed0 <> []) by discriminate.
  pose proof (toy_reverse_ready 2 ltac:(lia)) as Hready.
  split; [exact Hne|]. split; [exact Hready|].
  destruct (reverse_guess_slot (Toy.node 2) Toy.arg0 Toy.res0 Toy.aseed0
              [[Toy.Sym "kept"; Toy.Nil]] false false _ Hne Hready)
    as (trace & out & Hrun & _ & Hslot & _).
  exists trace, out. split; [exact Hrun|].
  exact (Hslot 0%nat ltac:(cbn; lia)).
Defined.

End ReverseExamples.

(** ** Structural propagation, forward *)

Section SpForwardFacts.
Context `{Casadi}.

Lemma read_write (n : Z) (t : target) (ws : list bvec_t) (m : memory) :
  length ws = Z.to_nat n -> read n t (write t ws m) = ws.
Proof.
  intros Hlen. unfold read, write. rewrite fn_lookup_insert.
  apply take_app_length'. symmetry. exact Hlen.
Qed.

Lemma write_other (t t' : target) (ws : list bvec_t) (m : memory) :
  t <> t' -> write t ws m t' = m t'.
Proof. intros Hne. unfold write. apply fn_lookup_insert_ne. exact Hne. Qed.

Lemma read_fill (n : Z) (t : target) (v : bvec_t) (m : memory) :
  read n t (fill_n t n v m) = replicate (Z.to_nat n) v.
Proof. apply read_write. apply length_replicate. Qed.

Lemma sp_ready_arg (self : Rootfinder) (arg res : list pointer) :
  sp_ready self arg res ->
  in_range (iin_ self) (take (Z.to_nat (this_n_in self)) arg).
Proof. intros (? & ? & _). unfold in_range. rewrite length_take. lia. Qed.

Lemma sp_ready_res (self : Rootfinder) (arg res : list pointer) :
  sp_ready self arg res ->
  in_range (iout_ self) (take (Z.to_nat (this_n_out self)) res) /\
  in_range (iout_ self) res /\
  in_range (iout_ self) (replicate (Z.to_nat (this_n_out self)) null).
Proof.
  intros (_ & _ & ? & ? & _). unfold in_range.
  rewrite length_take, length_replicate. lia.
Qed.

Lemma sp_fwd_run (self : Rootfinder) (arg res : list pointer) (m : memory) :
  sp_ready self arg res ->
  sp_fwd self arg res m
  = ret (if 1 <? this_n_out self
         then Function_sp_fwd (oracle_ self) (spf_arg2 self arg) (spf_res2 self res)
                (spf_root self arg res m)
         else spf_root self arg res m).
Proof.
  intros Hready. unfold sp_fwd.
  pose proof (sp_ready_arg _ _ _ Hready) as Harg.
  destruct (sp_ready_res _ _ _ Hready) as (Hres2 & Hres & Hres1).
  eapply bind_step; [apply set_index_ok; exact Harg|].
  eapply bind_step; [apply set_index_ok; exact Hres1|].
  fold (spf_arg1 self arg). fold (spf_res1 self). fold (spf_residual self arg m).
  destruct (in_range_lookup _ _ Hres) as [r Hr].
  eapply bind_step; [apply index_ok; [apply Hres|exact Hr]|].
  assert (Hroot : match r with
                  | null => sp_jac_spsolve self Wtmp2 Wtmp1 false
                              (fill_n Wtmp2 (n_ self) 0 (spf_residual self arg m))
                  | ptr t => copy_n Wtmp2 (n_ self) t
                               (sp_jac_spsolve self Wtmp2 Wtmp1 false
                                  (fill_n Wtmp2 (n_ self) 0 (spf_residual self arg m)))
                  end = spf_root self arg res m).
  { unfold spf_root. rewrite Hr. destruct r; reflexivity. }
  rewrite Hroot.
  destruct (1 <? this_n_out self); [|reflexivity].
  eapply bind_step.
  { apply set_index_ok. unfold in_range, spf_arg1. rewrite length_insert. exact Harg. }
  eapply bind_step; [apply set_index_ok; exact Hres2|].
  unfold spf_arg1. rewrite list_insert_insert_eq. reflexivity.
Qed.

(** The bits of the root after the solve. *)
Lemma spf_root_bits (self : Rootfinder) (arg res : list pointer) (m : memory) :
  sp_ready self arg res ->
  read (n_ self) Wtmp2 (spf_root self arg res m) = spf_solved self arg m /\
  (forall t, res !! Z.to_nat (iout_ self) = Some (ptr t) ->
     read (n_ self) t (spf_root self arg res m) = spf_solved self arg m).
Proof.
  intros (_ & _ & _ & _ & Hlen).
  set (m1 := spf_residual self arg m).
  set (m3 := sp_jac_spsolve self Wtmp2 Wtmp1 false (fill_n Wtmp2 (n_ self) 0 m1)).
  assert (Hz : read (n_ self) Wtmp2 m3 = spf_solved self arg m).
  { unfold m3, sp_jac_spsolve. rewrite read_fill.
    assert (E : read (n_ self) Wtmp1 (fill_n Wtmp2 (n_ self) 0 m1)
                = read (n_ self) Wtmp1 m1).
    { unfold read, fill_n. rewrite write_other by discriminate. reflexivity. }
    rewrite E. fold (spf_solved self arg m).
    apply read_write. unfold spf_solved. rewrite Hlen. apply length_replicate. }
  assert (Hzl : length (spf_solved self arg m) = Z.to_nat (n_ self)).
  { unfold spf_solved. rewrite Hlen. apply length_replicate. }
  unfold spf_root. fold m1. fold m3.
  destruct (res !! Z.to_nat (iout_ self)) as [[|t0]|] eqn:Er.
  - split; [exact Hz|]. intros t [=].
  - unfold copy_n. rewrite Hz. split.
    + destruct (decide (t0 = Wtmp2)) as [->|Hne].
      * apply read_write. exact Hzl.
      * unfold read. rewrite write_other by exact Hne. exact Hz.
    + intros t [= <-]. apply read_write. exact Hzl.
  - split; [exact Hz|]. intros t [=].
Qed.

(** The solve and the copy write nowhere but in [tmp2] and in the buffer
    of the root output. *)
Lemma spf_root_other (self : Rootfinder) (arg res : list pointer) (m : memory)
    (t : target) :
  t <> Wtmp2 -> res !! Z.to_nat (iout_ self) <> Some (ptr t) ->
  spf_root self arg res m t = spf_residual self arg m t.
Proof.
  intros Hne Hfree. unfold spf_root.
  assert (E : sp_jac_spsolve self Wtmp2 Wtmp1 false
                (fill_n Wtmp2 (n_ self) 0 (spf_residual self arg m)) t
              = spf_residual self arg m t).
  { unfold sp_jac_spsolve, fill_n. rewrite write_other by congruence.
    apply write_other. congruence. }
  destruct (res !! Z.to_nat (iout_ self)) as [[|t0]|] eqn:Er; try exact E.
  unfold copy_n. rewrite write_other by congruence. exact E.
Qed.

End SpForwardFacts.

(** C4. [sp_fwd] passes a null pointer for the unknown and runs the
    oracle's forward structural propagation with the residual sent to
    [tmp1]; the bits of the root are the residual's bits taken through
    [sp_jac_.spsolve] with [tr = false], from a zero-filled buffer, and land
    in the buffer of the root output if there is one. With more than one
    output, a second forward propagation through the oracle follows, on the
    memory the first pass, the solve and the copy have left, with the
    solved bits in the place of the unknown and a null pointer for the
    root output; what it returns is the result, the auxiliary outputs' bits
    with it. With one output the result is that memory itself. The oracle
    writing only behind its output pointers, the second pass leaves the
    root's bits alone. *)
Theorem sp_fwd_root_bits `{Casadi} (self : Rootfinder) (arg res : list pointer)
    (m : memory) :
  sp_ready self arg res ->
  let n_in := Z.to_nat (this_n_in self) in
  let n_out := Z.to_nat (this_n_out self) in
  let iin := Z.to_nat (iin_ self) in
  let iout := Z.to_nat (iout_ self) in
  let m1 := Function_sp_fwd (oracle_ self) (<[iin := null]> (take n_in arg))
              (<[iout := ptr Wtmp1]> (replicate n_out null)) m in
  let z := spsolve (sp_jac_ self) (replicate (Z.to_nat (n_ self)) 0)
             (read (n_ self) Wtmp1 m1) false in
  let solved := sp_jac_spsolve self Wtmp2 Wtmp1 false
                  (fill_n Wtmp2 (n_ self) 0 m1) in
  let m2 := match res !! iout with
            | Some (ptr t) => copy_n Wtmp2 (n_ self) t solved
            | _ => solved
            end in
  let arg2 := <[iin := ptr Wtmp2]> (take n_in arg) in
  let res2 := <[iout := null]> (take n_out res) in
  exists out,
    sp_fwd self arg res m = ([], Ok out) /\
    read (n_ self) Wtmp2 m2 = z /\
    (forall t, res !! iout = Some (ptr t) -> read (n_ self) t m2 = z) /\
    (forall t, t <> Wtmp2 -> res !! iout <> Some (ptr t) -> m2 t = m1 t) /\
    out = (if 1 <? this_n_out self
           then Function_sp_fwd (oracle_ self) arg2 res2 m2 else m2) /\
    (sp_fwd_frame (oracle_ self) ->
     forall t, res !! iout = Some (ptr t) -> ptr t ∉ res2 ->
               read (n_ self) t out = z).
Proof.
  intros Hready n_in n_out iin iout m1 z solved m2 arg2 res2.
  destruct (spf_root_bits self arg res m Hready) as [Htmp2 Hroot].
  assert (Em2 : spf_root self arg res m = m2) by reflexivity.
  exists (if 1 <? this_n_out self
          then Function_sp_fwd (oracle_ self) arg2 res2 m2 else m2).
  split; [apply sp_fwd_run; exact Hready|].
  split; [exact Htmp2|]. split; [exact Hroot|].
  split; [intros t Hne Hfree; apply spf_root_other; assumption|].
  split; [reflexivity|].
  intros Hframe t Ht Hfree.
  destruct (1 <? this_n_out self); [|apply Hroot; exact Ht].
  unfold read. fold arg2 res2. unfold spf_arg2, spf_res2. fold n_in n_out iin iout.
  fold arg2 res2. rewrite (Hframe arg2 res2 _ t Hfree).
  apply Hroot. exact Ht.
Qed.

Section SpForwardExamples.
#[local] Existing Instance Toy.casadi.

Lemma sp_fwd_root_bits_witness :
  sp_ready (Toy.node 2) Toy.parg0 Toy.pres0 /\
  exists out,
    sp_fwd (Toy.node 2) Toy.parg0 Toy.pres0 Toy.mem0 = ([], Ok out) /\
    read 2 (Caller 2) out = [3; 3].
Proof.
  pose proof (toy_sp_ready 2 ltac:(lia)) as Hready.
  split; [exact Hready|].
  destruct (sp_fwd_root_bits (Toy.node 2) Toy.parg0 Toy.pres0 Toy.mem0 Hready)
    as (out & Hrun & _ & _ & _ & _ & Hroot).
  exists out. split; [exact Hrun|].
  apply (Hroot (toy_sp_fwd_frame _) (Caller 2)); [reflexivity|].
  cbn. intros Hin. apply list_elem_of_In in Hin. cbn in Hin.
  destruct Hin as [E|[E|[]]]; discriminate E.
Defined.

End SpForwardExamples.

(** ** Structural propagation, reverse *)

Section SpReverseFacts.
Context `{Casadi}.

Lemma elem_of_insert_inv {A} (l : list A) (i : nat) (x y : A) :
  y ∈ <[i := x]> l -> y = x \/ y ∈ l.
Proof.
  intros Hy. apply list_elem_of_lookup in Hy as [j Hj].
  apply list_lookup_insert_Some in Hj as [(_ & -> & _)|[_ Hj]].
  - left. reflexivity.
  - right. eapply list_elem_of_lookup_2. exact Hj.
Qed.

Lemma null_loop (n : Z) (res1 : list pointer) :
  n = Z.of_nat (length res1) ->
  for_ n (fun i res1 => set_index res1 i null) res1
  = ret (replicate (length res1) null).
Proof.
  intros Hn. rewrite (for_rows_n (fun _ _ => null) _ n res1 Hn).
  - f_equal. apply list_eq. intros k. rewrite list_lookup_imap.
    destruct (res1 !! k) eqn:Ek; cbn.
    + rewrite lookup_replicate_2 by (eapply lookup_lt_Some; exact Ek). reflexivity.
    + symmetry. apply lookup_ge_None. rewrite length_replicate.
      apply lookup_ge_None. exact Ek.
  - intros d x s _ Hs _. apply (set_index_here _ _ x). exact Hs.
Qed.

Lemma sp_rev_run (self : Rootfinder) (arg res : list pointer) (m : memory) :
  sp_ready self arg res ->
  sp_rev self arg res m
  = ret (Function_sp_rev (oracle_ self) (spr_arg2 self arg) (spr_res2 self)
           (spr_resolved self arg res m)).
Proof.
  intros Hready. unfold sp_rev.
  pose proof (sp_ready_arg _ _ _ Hready) as Harg.
  destruct (sp_ready_res _ _ _ Hready) as (Hres2 & Hres & Hres1).
  destruct (in_range_lookup _ _ Hres) as [r Hr].
  eapply bind_step; [apply index_ok; [apply Hres|exact Hr]|].
  assert (Hext : match r with
                 | null => fill_n Wtmp1 (n_ self) 0 m
                 | ptr t => fill_n t (n_ self) 0 (copy_n t (n_ self) Wtmp1 m)
                 end = spr_extracted self res m).
  { unfold spr_extracted. rewrite Hr. destruct r; reflexivity. }
  rewrite Hext.
  eapply bind_step; [apply set_index_ok; exact Hres2|].
  eapply bind_step; [apply set_index_ok; exact Harg|].
  fold (spr_res1 self res). fold (spr_arg1 self arg). fold (spr_aux self arg res m).
  fold (spr_resolved self arg res m).
  assert (Hlen1 : length (spr_res1 self res) = Z.to_nat (this_n_out self)).
  { unfold spr_res1. rewrite length_insert, length_take.
    destruct Hready as (_ & _ & ? & ? & _). lia. }
  eapply bind_step.
  { apply null_loop. rewrite Hlen1. destruct Hready as (_ & _ & ? & _). lia. }
  rewrite Hlen1.
  eapply bind_step; [apply set_index_ok; exact Hres1|].
  eapply bind_step.
  { apply set_index_ok. unfold in_range, spr_arg1. rewrite length_insert. exact Harg. }
  unfold spr_arg1. rewrite list_insert_insert_eq. reflexivity.
Qed.


Lemma spr_resolved_bits (self : Rootfinder) (arg res : list pointer) (m : memory) :
  spsolve_keeps_length ->
  read (n_ self) Wtmp2 (spr_resolved self arg res m) = spr_solved self arg res m /\
  (forall t, t <> Wtmp2 -> spr_resolved self arg res m t = spr_aux self arg res m t).
Proof.
  intros Hlen. split.
  - unfold spr_resolved, sp_jac_spsolve. rewrite read_fill.
    assert (E : read (n_ self) Wtmp1 (fill_n Wtmp2 (n_ self) 0 (spr_aux self arg res m))
                = read (n_ self) Wtmp1 (spr_aux self arg res m)).
    { unfold read, fill_n. rewrite write_other by discriminate. reflexivity. }
    rewrite E. fold (spr_solved self arg res m).
    apply read_write. unfold spr_solved. rewrite Hlen. apply length_replicate.
  - intros t Hne. unfold spr_resolved, sp_jac_spsolve, fill_n.
    rewrite write_other by congruence. apply write_other. congruence.
Qed.

Lemma elem_of_insert_swap {A} (l : list A) (i : nat) (x x' y : A) :
  y ∈ <[i := x]> l -> y <> x -> y ∈ <[i := x']> l.
Proof.
  intros Hy Hne. apply list_elem_of_lookup in Hy as [j Hj].
  apply list_lookup_insert_Some in Hj as [(_ & -> & _)|[Hij Hj]]; [congruence|].
  apply (list_elem_of_lookup_2 _ j). rewrite list_lookup_insert_ne by exact Hij.
  exact Hj.
Qed.

End SpReverseFacts.


Section SpReverseExamples.
#[local] Existing Instance Toy.casadi.



End SpReverseExamples.

(** ** Setup *)

Section InitFacts.
Context `{Casadi}.

(** A failed consistency check ends [init] with its message. *)
Lemma init_inconsistent (opts : Dict) (self : Rootfinder) (st : init_locals) :
  read_options opts (init_defaults self) = ([], Ok st) ->
  consistent (self_ st) = false ->
  exists msg, init opts self = ([], Err (casadi_assert msg)).
Proof.
  intros Hread Hbad. unfold init. fold (init_defaults self).
  rewrite Hread. change ([], Ok st) with (ret (A := init_locals) st).
  rewrite bind_ret. unfold consistent in Hbad.
  destruct ((0 <=? iin_ (self_ st)) && (iin_ (self_ st) <? n_in (oracle_ (self_ st)))
            && (0 <? n_in (oracle_ (self_ st)))); [|eexists; reflexivity].
  cbn [casadi_assert_message]. rewrite bind_ret.
  destruct ((0 <=? iout_ (self_ st)) && (iout_ (self_ st) <? n_out (oracle_ (self_ st)))
            && (0 <? n_out (oracle_ (self_ st)))); [|eexists; reflexivity].
  cbn [casadi_assert_message]. rewrite bind_ret.
  destruct (is_dense (sparsity_out (oracle_ (self_ st)) (iout_ (self_ st)))
            && is_column (sparsity_out (oracle_ (self_ st)) (iout_ (self_ st))));
    [|eexists; reflexivity].
  cbn [casadi_assert_message]. rewrite bind_ret.
  destruct (is_dense (sparsity_in (oracle_ (self_ st)) (iin_ (self_ st)))
            && is_column (sparsity_in (oracle_ (self_ st)) (iin_ (self_ st))));
    [|eexists; reflexivity].
  cbn [casadi_assert_message]. rewrite bind_ret.
  cbn [andb] in Hbad. cbn [n_ set_n_]. rewrite Hbad.
  eexists; reflexivity.
Qed.

(** Runs [init] up to the base class initializer, given that the options
    were read and the consistency checks pass. *)
Ltac pass_checks Hread Hgood :=
  unfold init; unfold init_defaults in Hread; rewrite Hread;
  change (@pair (list event) (result init_locals) [] (Ok ?st))
    with (ret (A := init_locals) st);
  rewrite bind_ret;
  unfold consistent in Hgood;
  apply andb_true_iff in Hgood as [Hgood ?Hnnz];
  apply andb_true_iff in Hgood as [Hgood ?Hin];
  apply andb_true_iff in Hgood as [Hgood ?Hout];
  apply andb_true_iff in Hgood as [?Hiin ?Hiout];
  match goal with
  | H1 : _ = true, H2 : _ = true, H3 : _ = true, H4 : _ = true, H5 : _ = true |- _ =>
      rewrite H4; cbn [casadi_assert_message]; rewrite bind_ret;
      rewrite H3; cbn [casadi_assert_message]; rewrite bind_ret;
      rewrite H2; cbn [casadi_assert_message]; rewrite bind_ret;
      rewrite H1; cbn [casadi_assert_message]; rewrite bind_ret;
      cbn [n_ set_n_]; rewrite H5; cbn [casadi_assert_message]; rewrite bind_ret
  end.

(** A structurally singular Jacobian ends [init] with the singularity
    error, once the checks before it and the base class are through. *)
Lemma init_singular (opts : Dict) (self : Rootfinder) (st : init_locals)
    (jf : Function) :
  read_options opts (init_defaults self) = ([], Ok st) ->
  consistent (self_ st) = true ->
  OracleFunction_init opts (oracle_ (self_ st)) = Ok tt ->
  jac_used st = Ok jf ->
  is_singular (sparsity_out jf 0) = true ->
  init opts self
  = ([], Err (casadi_assert (singularity_message (sparsity_out jf 0)))).
Proof.
  intros Hread Hgood Hbase Hjac Hsing.
  pass_checks Hread Hgood.
  rewrite Hbase. change (lift (Ok tt)) with (ret tt). rewrite bind_ret.
  unfold jac_used in Hjac.
  destruct (is_null (jac st)).
  - rewrite Hjac. change (lift (Ok jf)) with (ret jf). rewrite bind_ret.
    cbn [sp_jac_ set_sp_jac_ set_function set_all_functions_]. rewrite Hsing. reflexivity.
  - injection Hjac as ->. rewrite bind_ret.
    cbn [sp_jac_ set_sp_jac_ set_function set_all_functions_]. rewrite Hsing. reflexivity.
Qed.

Lemma init_singular_fails (opts : Dict) (self : Rootfinder) (st : init_locals)
    (jf : Function) :
  read_options opts (init_defaults self) = ([], Ok st) ->
  jac_used st = Ok jf ->
  is_singular (sparsity_out jf 0) = true ->
  exists e, init opts self = ([], Err e).
Proof.
  intros Hread Hjac Hsing.
  destruct (consistent (self_ st)) eqn:Hgood.
  - destruct (OracleFunction_init opts (oracle_ (self_ st))) as [[]|e] eqn:Hbase.
    + eexists. eapply init_singular; eassumption.
    + exists e. pass_checks Hread Hgood.
      rewrite Hbase. reflexivity.
  - destruct (init_inconsistent opts self st Hread Hgood) as [msg Hmsg].
    eexists. exact Hmsg.
Qed.

(** A constraint vector of the wrong length ends [init] with an error. *)
Lemma init_constraint_fails (opts : Dict) (self : Rootfinder) (st : init_locals) :
  read_options opts (init_defaults self) = ([], Ok st) ->
  u_c_ (self_ st) <> [] ->
  Z.of_nat (length (u_c_ (self_ st)))
  <> Z.of_nat (nnz_out (oracle_ (self_ st)) (iout_ (self_ st))) ->
  exists e, init opts self = ([], Err e).
Proof.
  intros Hread Hne Hlen.
  destruct (consistent (self_ st)) eqn:Hgood.
  2:{ destruct (init_inconsistent opts self st Hread Hgood) as [msg Hmsg].
      eexists. exact Hmsg. }
  pass_checks Hread Hgood.
  destruct (OracleFunction_init opts (oracle_ (self_ st))) as [[]|e];
    [|eexists; reflexivity].
  change (lift (Ok tt)) with (ret tt). rewrite bind_ret.
  assert (Hjac : exists r, (if is_null (jac st)
                            then lift (jacobian (oracle_ (self_ st)) (iin_ (self_ st))
                                         (iout_ (self_ st)))
                            else ret (jac st)) = ([], r)).
  { destruct (is_null (jac st)); eexists; reflexivity. }
  destruct Hjac as [[jf|e] Hjac]; rewrite Hjac; [|eexists; reflexivity].
  change ([], Ok jf) with (ret (A := Function) jf). rewrite bind_ret.
  cbn [sp_jac_ set_sp_jac_ set_function set_all_functions_].
  destruct (is_singular (sparsity_out jf 0)); [eexists; reflexivity|].
  cbn [negb casadi_assert_message]. rewrite bind_ret.
  destruct (Linsol_new "linsol" (linear_solver st) (linear_solver_options st))
    as [ls|e]; [|eexists; reflexivity].
  change (lift (Ok ls)) with (ret ls). rewrite bind_ret.
  cbn [u_c_ n_ set_linsol_ set_sp_jac_ set_function set_all_functions_ set_n_].
  apply Z.eqb_neq in Hlen. rewrite Hlen.
  rewrite bool_decide_eq_false_2 by exact Hne.
  eexists; reflexivity.
Qed.

End InitFacts.

Section InitTheorems.
Context `{Casadi}.

(** C8. [init] fails whenever the sparsity pattern of the Jacobian of the
    residual with respect to the unknown has no perfect matching, that is,
    its structural rank is less than its dimension. Once the consistency
    checks and the base class initializer are through, the error is the
    structural-singularity one and reports the structural rank against the
    dimension. The failure belongs to the setup: no call into the oracle's
    derivatives, no evaluation of the Jacobian and no linear solve is made,
    and no node results. *)
Theorem init_structural_singularity (opts : Dict) (self : Rootfinder)
    (st : init_locals) (jac : Function) :
  read_options opts (init_defaults self) = ([], Ok st) ->
  jac_used st = Ok jac ->
  sprank (sparsity_out jac 0) < size1 (sparsity_out jac 0) ->
  exists e,
    init opts self = ([], Err e) /\
    (consistent (self_ st) = true ->
     OracleFunction_init opts (oracle_ (self_ st)) = Ok tt ->
     e = casadi_assert
           [Str "Rootfinder::init: singularity - the jacobian is structurally rank-deficient. sprank(J)=";
            Num (sprank (sparsity_out jac 0)); Str " (instead of ";
            Num (size1 (sparsity_out jac 0)); Str ")"]).
Proof.
  intros Hread Hjac Hrank.
  assert (Hsing : is_singular (sparsity_out jac 0) = true).
  { unfold is_singular. apply negb_true_iff, Z.eqb_neq. lia. }
  destruct (init_singular_fails opts self st jac Hread Hjac Hsing) as [e He].
  exists e. split; [exact He|].
  intros Hgood Hbase.
  pose proof (init_singular opts self st jac Hread Hgood Hbase Hjac Hsing) as He'.
  rewrite He in He'. injection He' as ->. reflexivity.
Qed.

(** C9. [init] fails, with no node resulting and nothing evaluated,
    whenever the implicit input index or the implicit output index is out
    of range, the residual output or the unknown input is not a dense column
    vector, the unknown's number of nonzeros differs from the residual's, or
    a constraint vector is supplied whose length is neither 0 nor [n]. In
    the first five cases the error is the failed assertion with its
    message. *)
Theorem init_rejects_configuration (opts : Dict) (self : Rootfinder)
    (st : init_locals) :
  read_options opts (init_defaults self) = ([], Ok st) ->
  let s := self_ st in
  let oracle := oracle_ s in
  let inconsistent :=
    ~ (0 <= iin_ s < n_in oracle) \/
    ~ (0 <= iout_ s < n_out oracle) \/
    is_dense (sparsity_out oracle (iout_ s)) = false \/
    is_column (sparsity_out oracle (iout_ s)) = false \/
    is_dense (sparsity_in oracle (iin_ s)) = false \/
    is_column (sparsity_in oracle (iin_ s)) = false \/
    nnz_in oracle (iin_ s) <> nnz_out oracle (iout_ s) in
  let bad_constraints :=
    length (u_c_ s) <> 0%nat /\ length (u_c_ s) <> nnz_out oracle (iout_ s) in
  inconsistent \/ bad_constraints ->
  exists e,
    init opts self = ([], Err e) /\
    (inconsistent -> exists msg, e = casadi_assert msg).
Proof.
  intros Hread s oracle inconsistent bad_constraints Hbad.
  assert (Hinc : inconsistent -> consistent s = false).
  { intros Hi. unfold consistent. fold oracle.
    destruct Hi as [Hi|[Hi|[Hi|[Hi|[Hi|[Hi|Hi]]]]]].
    - destruct ((0 <=? iin_ s) && (iin_ s <? n_in oracle) && (0 <? n_in oracle)) eqn:E;
        [|reflexivity].
      apply andb_true_iff in E as [E _]. apply andb_true_iff in E as [E1 E2].
      apply Z.leb_le in E1. apply Z.ltb_lt in E2. lia.
    - destruct ((0 <=? iout_ s) && (iout_ s <? n_out oracle) && (0 <? n_out oracle)) eqn:E;
        [|rewrite andb_false_r; reflexivity].
      apply andb_true_iff in E as [E _]. apply andb_true_iff in E as [E1 E2].
      apply Z.leb_le in E1. apply Z.ltb_lt in E2. lia.
    - rewrite Hi. cbn [andb]. rewrite !andb_false_r. reflexivity.
    - rewrite Hi. rewrite !andb_false_r. reflexivity.
    - rewrite Hi. cbn [andb]. rewrite !andb_false_r. reflexivity.
    - rewrite Hi. rewrite !andb_false_r. reflexivity.
    - apply andb_false_iff. right. apply Z.eqb_neq. lia. }
  destruct (consistent s) eqn:Hgood.
  - destruct Hbad as [Hi|[Hne Hlen]]; [specialize (Hinc Hi); discriminate|].
    destruct (init_constraint_fails opts self st Hread) as [e He].
    + fold s. destruct (u_c_ s); [contradiction|discriminate].
    + fold s oracle. lia.
    + exists e. split; [exact He|]. intros Hi. specialize (Hinc Hi). discriminate.
  - destruct (init_inconsistent opts self st Hread Hgood) as [msg Hmsg].
    eexists. split; [exact Hmsg|]. intros _. exists msg. reflexivity.
Qed.

End InitTheorems.

Section InitExamples.
#[local] Existing Instance Toy.casadi.

Lemma init_structural_singularity_witness :
  read_options [("jacobian_function", Toy.GFunction (Toy.fn_jac 1))]
    (init_defaults (Toy.fresh 1))
  = ([], Ok {| self_ := Toy.fresh 1; linear_solver_options := [];
               linear_solver := "csparse"; jac := Toy.fn_jac 1 |}) /\
  init [("jacobian_function", Toy.GFunction (Toy.fn_jac 1))] (Toy.fresh 1)
  = ([], Err (casadi_assert
       [Str "Rootfinder::init: singularity - the jacobian is structurally rank-deficient. sprank(J)=";
        Num 1; Str " (instead of "; Num 2; Str ")"])).
Proof.
  assert (Hread : read_options [("jacobian_function", Toy.GFunction (Toy.fn_jac 1))]
                    (init_defaults (Toy.fresh 1))
                  = ([], Ok {| self_ := Toy.fresh 1; linear_solver_options := [];
                               linear_solver := "csparse"; jac := Toy.fn_jac 1 |}))
    by reflexivity.
  split; [exact Hread|].
  destruct (init_structural_singularity (H := Toy.casadi) _ _ _ (Toy.fn_jac 1)
              Hread eq_refl ltac:(cbn; lia)) as (e & He & Hmsg).
  rewrite He, (Hmsg eq_refl eq_refl). reflexivity.
Defined.

Lemma init_rejects_configuration_witness :
  read_options [("implicit_input", Toy.GInt 5)] (init_defaults (Toy.fresh 1))
  = ([], Ok {| self_ := set_iin_ (Toy.fresh 1) 5; linear_solver_options := [];
               linear_solver := "csparse"; jac := Toy.fn_null |}) /\
  exists msg,
    init [("implicit_input", Toy.GInt 5)] (Toy.fresh 1)
    = ([], Err (casadi_assert msg)).
Proof.
  assert (Hread : read_options [("implicit_input", Toy.GInt 5)]
                    (init_defaults (Toy.fresh 1))
                  = ([], Ok {| self_ := set_iin_ (Toy.fresh 1) 5;
                               linear_solver_options := [];
                               linear_solver := "csparse"; jac := Toy.fn_null |}))
    by reflexivity.
  split; [exact Hread|].
  destruct (init_rejects_configuration (H := Toy.casadi) _ _ _ Hread
              ltac:(left; left; cbn; lia)) as (e & He & Hmsg).
  destruct (Hmsg ltac:(left; cbn; lia)) as [msg ->].
  exists msg. exact He.
Defined.

End InitExamples.

(** ** The node at work on the small instance *)

Section Runs.
#[local] Existing Instance Toy.casadi.

(** [init] with no options turns the fresh node into [Toy.node]. *)
Example init_default :
  init [] (Toy.fresh 2) = ([], Ok (Toy.node 2)).
Proof. vm_compute. reflexivity. Qed.

(** One direction through a node with an auxiliary output: the root's
    sensitivity is the solved column, the auxiliary output's comes from the
    second pass. *)
Example forward_run_example :
  forward (Toy.node 2) Toy.arg0 Toy.res0 Toy.fseed0 [] false false
  = (let f_arg := [Toy.Sym "z"; Toy.Sym "p"] in
     let f_res := [Toy.Zeros (2, 1); Toy.Sym "y"] in
     let seed := [Toy.Zeros (2, 1); Toy.Sym "dp"] in
     let J := Toy.Jac f_arg in
     let rhs := Toy.Neg (Toy.Horzcat [Toy.Vec (Toy.Jvp 0 f_arg seed)]) in
     let dz := Toy.Reshape (Toy.Column (Toy.Solve J rhs false) 0) (2, 1) in
     ([oracle_forward_call f_arg f_res [seed];
       jac_call f_arg;
       linear_solve J rhs false;
       oracle_forward_call f_arg f_res [[dz; Toy.Sym "dp"]]],
      Ok [[dz; Toy.Jvp 1 f_arg [dz; Toy.Sym "dp"]]])).
Proof. vm_compute. reflexivity. Qed.

(** A row of seeds without a slot for the unknown makes [at] throw. *)
Example forward_short_seed :
  forward (Toy.node 2) Toy.arg0 Toy.res0 [[]] [] false false
  = ([], Err out_of_range).
Proof. vm_compute. reflexivity. Qed.

(** One adjoint direction through the same node. *)
Example reverse_run_example :
  reverse (Toy.node 2) Toy.arg0 Toy.res0 Toy.aseed0 [] false false
  = (let f_arg := [Toy.Sym "z"; Toy.Sym "p"] in
     let f_res := [Toy.Zeros (2, 1); Toy.Sym "y"] in
     let held := [Toy.Zeros (2, 1); Toy.Sym "by"] in
     let J := Toy.Jac f_arg in
     let rhs := Toy.Neg (Toy.Horzcat
                  [Toy.Vec (Toy.Add (Toy.Vjp 0 f_arg held) (Toy.Sym "bz"))]) in
     let lam := Toy.Reshape (Toy.Column (Toy.Solve J rhs true) 0) (2, 1) in
     let final := [lam; Toy.Zeros (2, 1)] in
     ([jac_call f_arg;
       oracle_reverse_call f_arg f_res [held];
       linear_solve J rhs true;
       oracle_reverse_call f_arg f_res [final]],
      Ok [[Toy.Zeros (2, 1);
           Toy.Add (Toy.Vjp 1 f_arg final) (Toy.Vjp 1 f_arg held)]])).
Proof. vm_compute. reflexivity. Qed.

(** Structural propagation: the parameter's bits reach the root and the
    auxiliary output; in reverse, the auxiliary output's seed reaches the
    parameter and leaves the guess alone. *)
Example sp_fwd_example :
  exists out,
    sp_fwd (Toy.node 2) Toy.parg0 Toy.pres0 Toy.mem0 = ([], Ok out) /\
    out (Caller 2) = [3; 3] /\ out (Caller 3) = [3; 3] /\ out (Caller 0) = [0; 0].
Proof. eexists. split; [reflexivity|]. repeat split; vm_compute; reflexivity. Qed.

Example sp_rev_example :
  exists out,
    sp_rev (Toy.node 2) Toy.parg0 Toy.pres0 Toy.mem0 = ([], Ok out) /\
    out (Caller 0) = [0; 0] /\ out (Caller 1) = [5; 6] /\ out (Caller 2) = [0; 0].
Proof. eexists. split; [reflexivity|]. repeat split; vm_compute; reflexivity. Qed.

End Runs.

(** * Further properties *)

(** ** Bounds and shapes in forward and reverse mode *)

Section ModeFacts.
Context `{Casadi}.

Lemma range_test_false {A} (i : Z) (v : list A) :
  ~ in_range i v -> (0 <=? i) && (i <? Z.of_nat (length v)) = false.
Proof.
  intros Hn. destruct ((0 <=? i) && (i <? Z.of_nat (length v))) eqn:E; [|reflexivity].
  apply andb_true_iff in E as [E1 E2]. apply Z.leb_le in E1. apply Z.ltb_lt in E2.
  exfalso. apply Hn. split; assumption.
Qed.

Lemma at_fail {A} (v : list A) (i : Z) :
  ~ in_range i v -> at_ v i = throw out_of_range.
Proof. intros Hn. unfold at_. rewrite range_test_false by exact Hn. reflexivity. Qed.

Lemma set_at_fail {A} (v : list A) (i : Z) (x : A) :
  ~ in_range i v -> set_at v i x = throw out_of_range.
Proof. intros Hn. unfold set_at. rewrite range_test_false by exact Hn. reflexivity. Qed.

Lemma in_range_dec {A} (i : Z) (v : list A) : {in_range i v} + {~ in_range i v}.
Proof.
  unfold in_range.
  destruct (Z_le_dec 0 i); [|right; lia].
  destruct (Z_lt_dec i (Z.of_nat (length v))); [left; lia|right; lia].
Qed.

End ModeFacts.

Section ModeTheorems.
Context `{Casadi}.

(** X1. With at least one direction of seeds, [forward] throws
    [std::out_of_range], before any call to the oracle, the Jacobian or the
    solver, as soon as [res] has no entry [iout_], [arg] has no entry [iin_],
    or a row of seeds has no entry [iin_]: these accesses go through
    [at]. *)
Theorem forward_out_of_range (self : Rootfinder) (arg res : list MX)
    (fseed fsens : list (list MX)) (ai ni : bool) :
  fseed <> [] ->
  ~ in_range (iout_ self) res \/ ~ in_range (iin_ self) arg \/
  Exists (fun row : list MX => ~ in_range (iin_ self) row) fseed ->
  forward self arg res fseed fsens ai ni = ([], Err out_of_range).
Proof.
  intros Hne Hbad. unfold forward.
  destruct (Z.eqb_spec (Z.of_nat (length fseed)) 0) as [E0|_].
  { destruct fseed; [congruence|simpl in E0; lia]. }
  destruct (in_range_dec (iout_ self) res) as [Hres|Hres].
  2:{ rewrite at_fail by exact Hres. reflexivity. }
  destruct (in_range_lookup _ _ Hres) as [z Hz].
  eapply bind_step; [apply at_ok; [apply Hres|exact Hz]|].
  destruct (in_range_dec (iin_ self) arg) as [Harg|Harg].
  2:{ rewrite set_at_fail by exact Harg. reflexivity. }
  eapply bind_step; [apply set_at_ok; exact Harg|].
  eapply bind_step; [apply set_at_ok; exact Hres|].
  destruct Hbad as [Hb|[Hb|Hb]]; [contradiction|contradiction|].
  unfold for_. rewrite Nat2Z.id.
  pose proof (zero_guess_from (iin_ self) (MX_zeros (this_size_in self (iin_ self)))
                (length fseed) 0 fseed eq_refl) as E.
  change (Z.of_nat 0) with 0 in E. rewrite E, drop_0.
  assert (Hf : forallb (fun row : list MX =>
                          (0 <=? iin_ self) && (iin_ self <? Z.of_nat (length row))) fseed
               = false).
  { clear E. induction Hb as [row l Hrow|row l Hl IH].
    - cbn [forallb]. rewrite range_test_false by exact Hrow. reflexivity.
    - cbn [forallb]. rewrite IH by (intros ->; inversion Hl). apply andb_false_r. }
  rewrite Hf. reflexivity.
Qed.

(** X2. When the node has no auxiliary output ([n_out() <= 1]), [forward]
    goes through the oracle exactly once: the only call is the one with the
    seed of the guess set to zero, and every sensitivity but the root's is
    the one that call returned. *)
Theorem forward_single_pass (self : Rootfinder) (arg res : list MX)
    (fseed fsens : list (list MX)) (ai ni : bool) (J : MX) :
  fseed <> [] ->
  forward_ready self arg res fseed J ->
  this_n_out self <= 1 ->
  let f_arg := ift_arg self arg res in
  let f_res := ift_res self res in
  let dr := Function_forward (oracle_ self) f_arg f_res (ift_fseed self fseed)
              (resize (length fseed) [] fsens) ai ni in
  exists trace out,
    forward self arg res fseed fsens ai ni = (trace, Ok out) /\
    List.filter is_oracle_call trace
    = [oracle_forward_call f_arg f_res (ift_fseed self fseed)] /\
    (forall d i, Z.of_nat i <> iout_ self -> (out !!! d) !! i = (dr !!! d) !! i).
Proof.
  intros Hne Hready Hout f_arg f_res dr.
  pose proof (forward_run self arg res fseed fsens ai ni J Hne Hready) as Hrun.
  cbv zeta in Hrun.
  assert (E : (1 <? this_n_out self) = false) by (apply Z.ltb_ge; lia).
  rewrite E in Hrun.
  destruct Hready as (_ & _ & _ & _ & _ & Hiout & _).
  eexists _, _. split; [exact Hrun|]. split; [reflexivity|].
  intros d i Hi. change (ift_provisional self arg res fseed fsens ai ni) with dr.
  unfold with_dz. destruct (dr !! d) as [row|] eqn:Hrow.
  - erewrite list_lookup_total_correct by (rewrite list_lookup_imap, Hrow; reflexivity).
    rewrite (list_lookup_total_correct _ _ _ Hrow).
    apply list_lookup_insert_ne. lia.
  - rewrite !list_lookup_total_alt, list_lookup_imap, Hrow. reflexivity.
Qed.

(** The rows and entries of what [forward] hands back. *)
Lemma forward_rows (self : Rootfinder) (arg res : list MX)
    (fseed fsens : list (list MX)) (ai ni : bool) (J : MX) :
  fseed <> [] ->
  forward_ready self arg res fseed J ->
  exists trace out,
    forward self arg res fseed fsens ai ni = (trace, Ok out) /\
    length out = length fseed /\
    Forall (fun row : list MX => Z.of_nat (length row) = n_out (oracle_ self)) out.
Proof.
  intros Hne Hready.
  pose proof (forward_run self arg res fseed fsens ai ni J Hne Hready) as Hrun.
  cbv zeta in Hrun.
  destruct Hready as (Hres & Harg & Hseed & HJ & Hshape & Hiout & Hsplit).
  eexists _, _. split; [exact Hrun|].
  assert (Hwith : forall sens : list (list MX),
            length sens = length fseed ->
            Forall (fun row : list MX => Z.of_nat (length row) = n_out (oracle_ self)) sens ->
            length (with_dz self J (ift_provisional self arg res fseed fsens ai ni) sens)
            = length fseed /\
            Forall (fun row : list MX => Z.of_nat (length row) = n_out (oracle_ self))
                   (with_dz self J (ift_provisional self arg res fseed fsens ai ni) sens)).
  { intros sens Hl Hrows. unfold with_dz. split; [rewrite length_imap; exact Hl|].
    apply Forall_lookup. intros d row Hrow. rewrite list_lookup_imap in Hrow.
    destruct (sens !! d) as [r0|] eqn:Er; [|discriminate]. injection Hrow as <-.
    rewrite length_insert. rewrite Forall_lookup in Hrows. exact (Hrows d r0 Er). }
  destruct (1 <? this_n_out self).
  - apply Hwith; [|apply Hshape].
    rewrite (proj1 (Hshape _ _ _ _ _ _)). unfold ift_fseed2, ift_fseed.
    rewrite length_imap. apply length_fmap.
  - apply Hwith; [|apply Hshape].
    unfold ift_provisional. rewrite (proj1 (Hshape _ _ _ _ _ _)).
    unfold ift_fseed. apply length_fmap.
Qed.

(** X3. [forward] hands back one row of sensitivities per direction of
    seeds, each with one entry per output of the oracle, whatever [fsens]
    held on entry. *)
Theorem forward_result_shape (self : Rootfinder) (arg res : list MX)
    (fseed fsens : list (list MX)) (ai ni : bool) (J : MX) :
  fseed <> [] ->
  forward_ready self arg res fseed J ->
  exists trace out,
    forward self arg res fseed fsens ai ni = (trace, Ok out) /\
    length out = length fseed /\
    Forall (fun row : list MX => Z.of_nat (length row) = n_out (oracle_ self)) out.
Proof.
  apply forward_rows.
Qed.

(** X4. With at least one direction of seeds, [reverse] throws
    [std::out_of_range] before any call to a collaborator when [res] has no
    entry [iout_]: the root is read with [res.at(iout_)]. *)
Theorem reverse_out_of_range (self : Rootfinder) (arg res : list MX)
    (aseed asens : list (list MX)) (ai ni : bool) :
  aseed <> [] ->
  ~ in_range (iout_ self) res ->
  reverse self arg res aseed asens ai ni = ([], Err out_of_range).
Proof.
  intros Hne Hbad. unfold reverse.
  destruct (Z.eqb_spec (Z.of_nat (length aseed)) 0) as [E0|_].
  { destruct aseed; [congruence|simpl in E0; lia]. }
  rewrite at_fail by exact Hbad. reflexivity.
Qed.

(** X5. When the node has no auxiliary output ([n_out() <= 1]), [reverse]
    goes through the oracle exactly once, seeded with the multiplier, and
    every adjoint sensitivity but the one of the guess is what that call
    returned: nothing is added afterwards. *)
Theorem reverse_single_pass (self : Rootfinder) (arg res : list MX)
    (aseed asens : list (list MX)) (ai ni : bool) (J : MX) :
  aseed <> [] ->
  reverse_ready self arg res aseed J ->
  this_n_out self <= 1 ->
  let f_arg := ift_arg self arg res in
  let f_res := ift_res self res in
  let seeds := adj_final_seed self J arg res aseed ai ni in
  let pass := Function_reverse (oracle_ self) f_arg f_res seeds
                (adj_asens_in self (length aseed) asens) ai ni in
  exists trace out,
    reverse self arg res aseed asens ai ni = (trace, Ok out) /\
    List.filter is_oracle_call trace = [oracle_reverse_call f_arg f_res seeds] /\
    (forall d i, Z.of_nat i <> iin_ self -> (out !!! d) !! i = (pass !!! d) !! i).
Proof.
  intros Hne Hready Hout f_arg f_res seeds pass.
  pose proof (reverse_run self arg res aseed asens ai ni J Hne Hready) as Hrun.
  cbv zeta in Hrun.
  assert (E : (1 <? this_n_out self) = false) by (apply Z.ltb_ge; lia).
  rewrite E in Hrun.
  eexists _, _. split; [exact Hrun|]. split; [reflexivity|].
  intros d i Hi. unfold adj_result. rewrite E.
  change (adj_pass self J arg res aseed asens ai ni) with pass.
  destruct (pass !! d) as [row|] eqn:Hrow.
  - erewrite list_lookup_total_correct by (rewrite list_lookup_imap, Hrow; reflexivity).
    rewrite (list_lookup_total_correct _ _ _ Hrow), list_lookup_imap.
    destruct (row !! i); [cbn|reflexivity].
    destruct (decide (Z.of_nat i = iin_ self)); [contradiction|reflexivity].
  - rewrite !list_lookup_total_alt, list_lookup_imap, Hrow. reflexivity.
Qed.

(** X6. [reverse] hands back one row of adjoint sensitivities per direction
    of seeds, each with one entry per input, however many rows and entries
    the caller's [asens] had. *)
Theorem reverse_result_shape (self : Rootfinder) (arg res : list MX)
    (aseed asens : list (list MX)) (ai ni : bool) (J : MX) :
  aseed <> [] ->
  reverse_ready self arg res aseed J ->
  exists trace out,
    reverse self arg res aseed asens ai ni = (trace, Ok out) /\
    length out = length aseed /\
    Forall (fun row : list MX => Z.of_nat (length row) = this_n_in self) out.
Proof.
  intros Hne Hready.
  pose proof (reverse_run self arg res aseed asens ai ni J Hne Hready) as Hrun.
  cbv zeta in Hrun.
  destruct Hready as (Hres & Harg & Hseed & HJ & Hshape & Hiout & Hiin & Hnin & Hsplit).
  eexists _, _. split; [exact Hrun|]. unfold adj_result. split.
  - rewrite length_imap. unfold adj_pass. rewrite (proj1 (Hshape _ _ _ _ _ _)).
    unfold adj_final_seed. apply length_imap.
  - apply Forall_lookup. intros d row Hrow. rewrite list_lookup_imap in Hrow.
    destruct (adj_pass self J arg res aseed asens ai ni !! d) as [r0|] eqn:Er;
      [|discriminate].
    injection Hrow as <-. rewrite length_imap, Hnin.
    pose proof (proj2 (Hshape (ift_arg self arg res) (ift_res self res)
                         (adj_final_seed self J arg res aseed ai ni)
                         (adj_asens_in self (length aseed) asens) ai ni)) as Hrows.
    rewrite Forall_lookup in Hrows. exact (Hrows d r0 Er).
Qed.

End ModeTheorems.

Section ModeExamples.
#[local] Existing Instance Toy.casadi.

Lemma forward_out_of_range_witness :
  Toy.fseed0 <> [] /\
  (~ in_range (iout_ (Toy.node 2)) (@nil Toy.term) \/
   ~ in_range (iin_ (Toy.node 2)) Toy.arg0 \/
   Exists (fun row : list MX => ~ in_range (iin_ (Toy.node 2)) row) Toy.fseed0) /\
  forward (Toy.node 2) Toy.arg0 [] Toy.fseed0 [] false false = ([], Err out_of_range).
Proof.
  assert (Hne : Toy.fseed0 <> []) by discriminate.
  assert (Hbad : ~ in_range (iout_ (Toy.node 2)) (@nil Toy.term) \/
                 ~ in_range (iin_ (Toy.node 2)) Toy.arg0 \/
                 Exists (fun row : list MX => ~ in_range (iin_ (Toy.node 2)) row)
                        Toy.fseed0).
  { left. unfold in_range. cbn. lia. }
  split; [exact Hne|]. split; [exact Hbad|].
  exact (forward_out_of_range (Toy.node 2) Toy.arg0 [] Toy.fseed0 [] false false
           Hne Hbad).
Defined.

Lemma forward_single_pass_witness :
  Toy.fseed0 <> [] /\
  forward_ready (Toy.node 1) Toy.arg0 Toy.res0 Toy.fseed0
                (Toy.Jac [Toy.Sym "z"; Toy.Sym "p"]) /\
  this_n_out (Toy.node 1) <= 1 /\
  exists trace out,
    forward (Toy.node 1) Toy.arg0 Toy.res0 Toy.fseed0 [] false false = (trace, Ok out) /\
    length (List.filter is_oracle_call trace) = 1%nat.
Proof.
  assert (Hne : Toy.fseed0 <> []) by discriminate.
  pose proof (toy_forward_ready 1 ltac:(lia)) as Hready.
  assert (Hout : this_n_out (Toy.node 1) <= 1) by (cbn; lia).
  split; [exact Hne|]. split; [exact Hready|]. split; [exact Hout|].
  destruct (forward_single_pass (Toy.node 1) Toy.arg0 Toy.res0 Toy.fseed0 []
              false false _ Hne Hready Hout) as (trace & out & Hrun & Hcalls & _).
  exists trace, out. split; [exact Hrun|]. rewrite Hcalls. reflexivity.
Defined.

Lemma forward_result_shape_witness :
  Toy.fseed0 <> [] /\
  forward_ready (Toy.node 2) Toy.arg0 Toy.res0 Toy.fseed0
                (Toy.Jac [Toy.Sym "z"; Toy.Sym "p"]) /\
  exists trace out,
    forward (Toy.node 2) Toy.arg0 Toy.res0 Toy.fseed0 [] false false = (trace, Ok out) /\
    length out = 1%nat.
Proof.
  assert (Hne : Toy.fseed0 <> []) by discriminate.
  pose proof (toy_forward_ready 2 ltac:(lia)) as Hready.
  split; [exact Hne|]. split; [exact Hready|].
  destruct (forward_result_shape (Toy.node 2) Toy.arg0 Toy.res0 Toy.fseed0 []
              false false _ Hne Hready) as (trace & out & Hrun & Hlen & _).
  exists trace, out. split; [exact Hrun|exact Hlen].
Defined.

Lemma reverse_out_of_range_witness :
  Toy.aseed0 <> [] /\
  ~ in_range (iout_ (Toy.node 2)) (@nil Toy.term) /\
  reverse (Toy.node 2) Toy.arg0 [] Toy.aseed0 [] false false = ([], Err out_of_range).
Proof.
  assert (Hne : Toy.aseed0 <> []) by discriminate.
  assert (Hbad : ~ in_range (iout_ (Toy.node 2)) (@nil Toy.term))
    by (unfold in_range; cbn; lia).
  split; [exact Hne|]. split; [exact Hbad|].
  exact (reverse_out_of_range (Toy.node 2) Toy.arg0 [] Toy.aseed0 [] false false
           Hne Hbad).
Defined.

Lemma reverse_single_pass_witness :
  Toy.aseed0 <> [] /\
  reverse_ready (Toy.node 1) Toy.arg0 Toy.res0 Toy.aseed0
                (Toy.Jac [Toy.Sym "z"; Toy.Sym "p"]) /\
  this_n_out (Toy.node 1) <= 1 /\
  exists trace out,
    reverse (Toy.node 1) Toy.arg0 Toy.res0 Toy.aseed0 [] false false = (trace, Ok out) /\
    length (List.filter is_oracle_call trace) = 1%nat.
Proof.
  assert (Hne : Toy.aseed0 <> []) by discriminate.
  pose proof (toy_reverse_ready 1 ltac:(lia)) as Hready.
  assert (Hout : this_n_out (Toy.node 1) <= 1) by (cbn; lia).
  split; [exact Hne|]. split; [exact Hready|]. split; [exact Hout|].
  destruct (reverse_single_pass (Toy.node 1) Toy.arg0 Toy.res0 Toy.aseed0 []
              false false _ Hne Hready Hout) as (trace & out & Hrun & Hcalls & _).
  exists trace, out. split; [exact Hrun|]. rewrite Hcalls. reflexivity.
Defined.

Lemma reverse_result_shape_witness :
  Toy.aseed0 <> [] /\
  reverse_ready (Toy.node 2) Toy.arg0 Toy.res0 Toy.aseed0
                (Toy.Jac [Toy.Sym "z"; Toy.Sym "p"]) /\
  exists trace out,
    reverse (Toy.node 2) Toy.arg0 Toy.res0 Toy.aseed0
            [[]; [Toy.Sym "dropped"]] false false = (trace, Ok out) /\
    length out = 1%nat.
Proof.
  assert (Hne : Toy.aseed0 <> []) by discriminate.
  pose proof (toy_reverse_ready 2 ltac:(lia)) as Hready.
  split; [exact Hne|]. split; [exact Hready|].
  destruct (reverse_result_shape (Toy.node 2) Toy.arg0 Toy.res0 Toy.aseed0
              [[]; [Toy.Sym "dropped"]] false false _ Hne Hready)
    as (trace & out & Hrun & Hlen & _).
  exists trace, out. split; [exact Hrun|exact Hlen].
Defined.

End ModeExamples.

(** ** What a successful setup leaves behind *)

(** Takes [init] in the goal through the option loop and the five
    consistency checks. *)
Ltac run_checks Hread Hgood :=
  unfold init; unfold init_defaults in Hread; rewrite Hread;
  change (@pair (list event) (result init_locals) [] (Ok ?st))
    with (ret (A := init_locals) st);
  rewrite bind_ret;
  unfold consistent in Hgood;
  apply andb_true_iff in Hgood as [Hgood ?Hnnz];
  apply andb_true_iff in Hgood as [Hgood ?Hin];
  apply andb_true_iff in Hgood as [Hgood ?Hout];
  apply andb_true_iff in Hgood as [?Hiin ?Hiout];
  match goal with
  | H1 : _ = true, H2 : _ = true, H3 : _ = true, H4 : _ = true, H5 : _ = true |- _ =>
      rewrite H4; cbn [casadi_assert_message]; rewrite bind_ret;
      rewrite H3; cbn [casadi_assert_message]; rewrite bind_ret;
      rewrite H2; cbn [casadi_assert_message]; rewrite bind_ret;
      rewrite H1; cbn [casadi_assert_message]; rewrite bind_ret;
      cbn [n_ set_n_]; rewrite H5; cbn [casadi_assert_message]; rewrite bind_ret
  end.

Section SetupFacts.
Context `{Casadi}.

Lemma read_option_silent (op : string * GenericType) (st : init_locals) :
  (read_option op st).1 = [].
Proof.
  unfold read_option.
  repeat (destruct (String.eqb _ _); [match goal with
    | |- context [lift ?r] => destruct r; reflexivity end|]).
  reflexivity.
Qed.

Lemma read_options_silent (opts : Dict) (st : init_locals) :
  (read_options opts st).1 = [].
Proof.
  revert st. induction opts as [|op rest IH]; intros st; [reflexivity|].
  cbn [read_options]. pose proof (read_option_silent op st) as Hs.
  destruct (read_option op st) as [t [st'|e]]; cbn in Hs; subst t; cbn.
  - specialize (IH st'). destruct (read_options rest st') as [t r].
    cbn in IH. subst t. reflexivity.
  - reflexivity.
Qed.

(** The option loop touches [iin_], [iout_] and [u_c_] of the node and
    nothing else. *)
Lemma read_option_frame (op : string * GenericType) (st st' : init_locals)
    (t : list event) :
  read_option op st = (t, Ok st') ->
  oracle_ (self_ st') = oracle_ (self_ st) /\
  all_functions_ (self_ st') = all_functions_ (self_ st) /\
  this_n_in (self_ st') = this_n_in (self_ st) /\
  this_n_out (self_ st') = this_n_out (self_ st) /\
  this_size_in (self_ st') = this_size_in (self_ st) /\
  this_size_out (self_ st') = this_size_out (self_ st) /\
  sz_w_ (self_ st') = sz_w_ (self_ st).
Proof.
  unfold read_option.
  repeat (destruct (String.eqb _ _); [match goal with
    | |- context [lift ?r] => destruct r; cbn; intros [= <- <-]; cbn;
                              repeat split; reflexivity
    end|]).
  intros [= <- <-]. repeat split; reflexivity.
Qed.

Lemma read_options_frame (opts : Dict) (st st' : init_locals) (t : list event) :
  read_options opts st = (t, Ok st') ->
  oracle_ (self_ st') = oracle_ (self_ st) /\
  all_functions_ (self_ st') = all_functions_ (self_ st) /\
  this_n_in (self_ st') = this_n_in (self_ st) /\
  this_n_out (self_ st') = this_n_out (self_ st) /\
  this_size_in (self_ st') = this_size_in (self_ st) /\
  this_size_out (self_ st') = this_size_out (self_ st) /\
  sz_w_ (self_ st') = sz_w_ (self_ st).
Proof.
  revert st t. induction opts as [|op rest IH]; intros st t.
  - cbn. intros [= <- <-]. repeat split; reflexivity.
  - cbn [read_options].
    destruct (read_option op st) as [t1 [st1|e]] eqn:E1; [|discriminate].
    cbn. destruct (read_options rest st1) as [t2 [st2|e]] eqn:E2; [|discriminate].
    intros [= <- <-].
    destruct (read_option_frame _ _ _ _ E1) as (a1 & a2 & a3 & a4 & a5 & a6 & a7).
    destruct (IH _ _ E2) as (b1 & b2 & b3 & b4 & b5 & b6 & b7).
    repeat split; congruence.
Qed.

(** A successful [init], step by step. *)
Lemma init_ok_inv (opts : Dict) (self s' : Rootfinder) (t : list event) :
  init opts self = (t, Ok s') ->
  exists st jf ls,
    t = [] /\
    read_options opts (init_defaults self) = ([], Ok st) /\
    consistent (self_ st) = true /\
    OracleFunction_init opts (oracle_ (self_ st)) = Ok tt /\
    jac_used st = Ok jf /\
    is_singular (sparsity_out jf 0) = false /\
    Linsol_new "linsol" (linear_solver st) (linear_solver_options st) = Ok ls /\
    (Z.of_nat (length (u_c_ (self_ st)))
     = Z.of_nat (nnz_out (oracle_ (self_ st)) (iout_ (self_ st)))
     \/ u_c_ (self_ st) = []) /\
    iin_ s' = iin_ (self_ st) /\
    iout_ s' = iout_ (self_ st) /\
    u_c_ s' = u_c_ (self_ st) /\
    oracle_ s' = oracle_ (self_ st) /\
    n_ s' = Z.of_nat (nnz_out (oracle_ (self_ st)) (iout_ (self_ st))) /\
    all_functions_ s' = <["jac_f_z" := jf]> (all_functions_ (self_ st)) /\
    sp_jac_ s' = sparsity_out jf 0 /\
    linsol_ s' = ls /\
    this_n_in s' = this_n_in (self_ st) /\
    this_n_out s' = this_n_out (self_ st) /\
    this_size_in s' = this_size_in (self_ st) /\
    this_size_out s' = this_size_out (self_ st).
Proof.
  intros Hinit.
  pose proof (read_options_silent opts (init_defaults self)) as Hsil.
  destruct (read_options opts (init_defaults self)) as [t0 [st|e]] eqn:Hread;
    cbn in Hsil; subst t0.
  2:{ unfold init in Hinit. unfold init_defaults in Hread. rewrite Hread in Hinit.
      discriminate Hinit. }
  destruct (consistent (self_ st)) eqn:Hgood.
  2:{ destruct (init_inconsistent opts self st Hread Hgood) as [msg Hmsg].
      rewrite Hmsg in Hinit. discriminate Hinit. }
  pose proof Hgood as Hgood'.
  revert Hinit. run_checks Hread Hgood'.
  destruct (OracleFunction_init opts (oracle_ (self_ st))) as [[]|e] eqn:Hbase;
    [|discriminate].
  change (lift (Ok tt)) with (ret tt). rewrite bind_ret.
  assert (Hjac : (if is_null (jac st)
                  then lift (jacobian (oracle_ (self_ st)) (iin_ (self_ st))
                               (iout_ (self_ st)))
                  else ret (jac st)) = ([], jac_used st)).
  { unfold jac_used. destruct (is_null (jac st)); reflexivity. }
  rewrite Hjac. destruct (jac_used st) as [jf|e] eqn:Hused; [|discriminate].
  change ([], Ok jf) with (ret (A := Function) jf). rewrite bind_ret.
  cbn [sp_jac_ set_sp_jac_ set_function set_all_functions_].
  destruct (is_singular (sparsity_out jf 0)) eqn:Hsing; [discriminate|].
  cbn [negb casadi_assert_message]. rewrite bind_ret.
  destruct (Linsol_new "linsol" (linear_solver st) (linear_solver_options st))
    as [ls|e] eqn:Hls; [|discriminate].
  change (lift (Ok ls)) with (ret ls). rewrite bind_ret.
  cbn [u_c_ n_ set_linsol_ set_sp_jac_ set_function set_all_functions_ set_n_].
  destruct ((Z.of_nat (length (u_c_ (self_ st)))
             =? Z.of_nat (nnz_out (oracle_ (self_ st)) (iout_ (self_ st))))
            || bool_decide (u_c_ (self_ st) = [])) eqn:Hc; [|discriminate].
  cbn [casadi_assert_message]. rewrite bind_ret.
  intros [= <- <-].
  exists st, jf, ls.
  split; [reflexivity|]. split; [first [reflexivity|assumption]|].
  split; [first [reflexivity|assumption]|].
  split; [first [reflexivity|assumption]|].
  split; [first [reflexivity|assumption]|].
  split; [first [reflexivity|assumption]|].
  split; [first [reflexivity|assumption]|].
  split.
  { apply orb_true_iff in Hc as [Hc|Hc].
    - left. apply Z.eqb_eq. exact Hc.
    - right. apply bool_decide_eq_true in Hc. exact Hc. }
  repeat split; reflexivity.
Qed.

End SetupFacts.

Section SetupKeys.
Context `{Casadi}.

(** An option under another key leaves a setting alone. *)
Lemma read_option_other_iin (op : string * GenericType) (st st' : init_locals)
    (t : list event) :
  read_option op st = (t, Ok st') -> op.1 <> "implicit_input" ->
  iin_ (self_ st') = iin_ (self_ st).
Proof.
  unfold read_option. intros Hr Hk.
  destruct (String.eqb_spec op.1 "implicit_input") as [E|_]; [contradiction|].
  revert Hr.
  repeat (destruct (String.eqb _ _); [match goal with
    | |- context [lift ?r] => destruct r; cbn; intros [= <- <-]; reflexivity
    end|]).
  intros [= <- <-]. reflexivity.
Qed.

Lemma read_option_other_iout (op : string * GenericType) (st st' : init_locals)
    (t : list event) :
  read_option op st = (t, Ok st') -> op.1 <> "implicit_output" ->
  iout_ (self_ st') = iout_ (self_ st).
Proof.
  unfold read_option. intros Hr Hk.
  destruct (String.eqb_spec op.1 "implicit_input") as [E|_].
  { revert Hr. destruct (as_int op.2) as [v|e]; cbn;
      intros [= <- <-]; reflexivity. }
  destruct (String.eqb_spec op.1 "implicit_output") as [E|_]; [contradiction|].
  revert Hr.
  repeat (destruct (String.eqb _ _); [match goal with
    | |- context [lift ?r] => destruct r; cbn; intros [= <- <-]; reflexivity
    end|]).
  intros [= <- <-]. reflexivity.
Qed.

Lemma read_option_other_u_c (op : string * GenericType) (st st' : init_locals)
    (t : list event) :
  read_option op st = (t, Ok st') -> op.1 <> "constraints" ->
  u_c_ (self_ st') = u_c_ (self_ st).
Proof.
  unfold read_option. intros Hr Hk. revert Hr.
  destruct (String.eqb op.1 "implicit_input").
  { destruct (as_int op.2); cbn; intros [= <- <-]; reflexivity. }
  destruct (String.eqb op.1 "implicit_output").
  { destruct (as_int op.2); cbn; intros [= <- <-]; reflexivity. }
  destruct (String.eqb op.1 "jacobian_function").
  { destruct (as_function op.2); cbn; intros [= <- <-]; reflexivity. }
  destruct (String.eqb op.1 "linear_solver_options").
  { destruct (as_dict op.2); cbn; intros [= <- <-]; reflexivity. }
  destruct (String.eqb op.1 "linear_solver").
  { destruct (to_string op.2); cbn; intros [= <- <-]; reflexivity. }
  destruct (String.eqb_spec op.1 "constraints"); [contradiction|].
  intros [= <- <-]. reflexivity.
Qed.

Lemma read_options_other (opts : Dict) (st st' : init_locals) (t : list event) :
  read_options opts st = (t, Ok st') ->
  ("implicit_input" ∉ opts.*1 -> iin_ (self_ st') = iin_ (self_ st)) /\
  ("implicit_output" ∉ opts.*1 -> iout_ (self_ st') = iout_ (self_ st)) /\
  ("constraints" ∉ opts.*1 -> u_c_ (self_ st') = u_c_ (self_ st)).
Proof.
  revert st t. induction opts as [|op rest IH]; intros st t.
  - cbn. intros [= <- <-]. repeat split; reflexivity.
  - cbn [read_options].
    destruct (read_option op st) as [t1 [st1|e]] eqn:E1; [|discriminate].
    cbn. destruct (read_options rest st1) as [t2 [st2|e]] eqn:E2; [|discriminate].
    intros [= <- <-]. destruct (IH _ _ E2) as (I1 & I2 & I3).
    cbn [fmap list_fmap]. repeat split; intros Hk; apply not_elem_of_cons in Hk as [Hk1 Hk2].
    + rewrite I1 by exact Hk2. eapply read_option_other_iin; [exact E1|congruence].
    + rewrite I2 by exact Hk2. eapply read_option_other_iout; [exact E1|congruence].
    + rewrite I3 by exact Hk2. eapply read_option_other_u_c; [exact E1|congruence].
Qed.

(** An option under one of the three keys sets its setting. *)
Lemma read_option_sets (op : string * GenericType) (st st' : init_locals)
    (t : list event) :
  read_option op st = (t, Ok st') ->
  (op.1 = "implicit_input" -> as_int op.2 = Ok (iin_ (self_ st'))) /\
  (op.1 = "implicit_output" -> as_int op.2 = Ok (iout_ (self_ st'))) /\
  (op.1 = "constraints" -> as_int_vector op.2 = Ok (u_c_ (self_ st'))).
Proof.
  unfold read_option. intros Hr. repeat split; intros Hk; rewrite Hk in Hr;
    cbn in Hr.
  - destruct (as_int op.2) as [v|e]; cbn in Hr; [|discriminate].
    injection Hr as <- <-. reflexivity.
  - destruct (as_int op.2) as [v|e]; cbn in Hr; [|discriminate].
    injection Hr as <- <-. reflexivity.
  - destruct (as_int_vector op.2) as [v|e]; cbn in Hr; [|discriminate].
    injection Hr as <- <-. reflexivity.
Qed.

End SetupKeys.

Section SetupTheorems.
Context `{Casadi}.

Lemma read_options_taken (opts : Dict) (st st' : init_locals) (t : list event) :
  read_options opts st = (t, Ok st') ->
  NoDup opts.*1 ->
  (forall g, ("implicit_input", g) ∈ opts -> as_int g = Ok (iin_ (self_ st'))) /\
  (forall g, ("implicit_output", g) ∈ opts -> as_int g = Ok (iout_ (self_ st'))) /\
  (forall g, ("constraints", g) ∈ opts -> as_int_vector g = Ok (u_c_ (self_ st'))).
Proof.
  revert st t. induction opts as [|op rest IH]; intros st t.
  - intros _ _. repeat split; intros g Hg; inversion Hg.
  - cbn [read_options].
    destruct (read_option op st) as [t1 [st1|e]] eqn:E1; [|discriminate].
    cbn. destruct (read_options rest st1) as [t2 [st2|e]] eqn:E2; [|discriminate].
    intros [= <- <-] Hnd. cbn [fmap list_fmap] in Hnd.
    apply NoDup_cons in Hnd as [Hfresh Hnd].
    destruct (IH _ _ E2 Hnd) as (I1 & I2 & I3).
    destruct (read_options_other _ _ _ _ E2) as (K1 & K2 & K3).
    destruct (read_option_sets _ _ _ _ E1) as (S1 & S2 & S3).
    repeat split; intros g Hg; apply elem_of_cons in Hg as [Heq | Hg];
      try (first [apply I1 | apply I2 | apply I3]; exact Hg); subst op.
    + rewrite K1 by exact Hfresh. apply S1. reflexivity.
    + rewrite K2 by exact Hfresh. apply S2. reflexivity.
    + rewrite K3 by exact Hfresh. apply S3. reflexivity.
Qed.

(** What holds of a node that [init] accepted. *)
Lemma init_accepted (opts : Dict) (self s' : Rootfinder) (t : list event) :
  init opts self = (t, Ok s') ->
  t = [] /\
  0 <= iin_ s' < n_in (oracle_ s') /\
  0 <= iout_ s' < n_out (oracle_ s') /\
  is_dense (sparsity_out (oracle_ s') (iout_ s')) = true /\
  is_column (sparsity_out (oracle_ s') (iout_ s')) = true /\
  is_dense (sparsity_in (oracle_ s') (iin_ s')) = true /\
  is_column (sparsity_in (oracle_ s') (iin_ s')) = true /\
  n_ s' = Z.of_nat (nnz_out (oracle_ s') (iout_ s')) /\
  n_ s' = Z.of_nat (nnz_in (oracle_ s') (iin_ s')) /\
  (u_c_ s' = [] \/ Z.of_nat (length (u_c_ s')) = n_ s') /\
  (exists jf, all_functions_ s' !! "jac_f_z" = Some jf /\
              sp_jac_ s' = sparsity_out jf 0) /\
  oracle_ s' = oracle_ self.
Proof.
  intros Hinit.
  destruct (init_ok_inv opts self s' t Hinit)
    as (st & jf & ls & Ht & Hread & Hgood & _ & _ & _ & _ & Hc
        & Ein & Eout & Euc & Eor & En & Efun & Esp & _).
  destruct (read_options_frame _ _ _ _ Hread) as (Hor & _).
  unfold consistent in Hgood.
  apply andb_true_iff in Hgood as [Hgood Hnnz].
  apply andb_true_iff in Hgood as [Hgood Hin].
  apply andb_true_iff in Hgood as [Hgood Hout].
  apply andb_true_iff in Hgood as [Hiin Hiout].
  apply andb_true_iff in Hiin as [Hiin _]. apply andb_true_iff in Hiin as [Hi1 Hi2].
  apply andb_true_iff in Hiout as [Hiout _]. apply andb_true_iff in Hiout as [Ho1 Ho2].
  apply andb_true_iff in Hin as [Hin1 Hin2].
  apply andb_true_iff in Hout as [Hout1 Hout2].
  apply Z.leb_le in Hi1, Ho1. apply Z.ltb_lt in Hi2, Ho2. apply Z.eqb_eq in Hnnz.
  rewrite Ein, Eout, Euc, Eor, En, Efun, Esp.
  split; [exact Ht|]. split; [lia|]. split; [lia|].
  split; [exact Hout1|]. split; [exact Hout2|].
  split; [exact Hin1|]. split; [exact Hin2|].
  split; [reflexivity|]. split; [exact Hnnz|].
  split; [destruct Hc as [Hc|Hc]; [right; exact Hc|left; exact Hc]|].
  split; [exists jf; split; [apply lookup_insert_eq|reflexivity]|].
  exact Hor.
Qed.


(** X8. The consistency checks of [init] run in the order of the source,
    and the first one that fails decides the message: an implicit input out
    of range is reported before anything else, then an implicit output out
    of range, then a residual that is not a dense vector, then an unknown
    that is not one, then the dimension mismatch with the two sizes. *)
Theorem init_first_failure (opts : Dict) (self : Rootfinder) (st : init_locals) :
  read_options opts (init_defaults self) = ([], Ok st) ->
  let s := self_ st in
  let oracle := oracle_ s in
  let input_ok := 0 <= iin_ s < n_in oracle in
  let output_ok := 0 <= iout_ s < n_out oracle in
  let residual_ok := is_dense (sparsity_out oracle (iout_ s))
                     && is_column (sparsity_out oracle (iout_ s)) = true in
  let unknown_ok := is_dense (sparsity_in oracle (iin_ s))
                    && is_column (sparsity_in oracle (iin_ s)) = true in
  (~ input_ok ->
   init opts self = ([], Err (casadi_assert [Str "Implicit input not in range"]))) /\
  (input_ok -> ~ output_ok ->
   init opts self = ([], Err (casadi_assert [Str "Implicit output not in range"]))) /\
  (input_ok -> output_ok -> ~ residual_ok ->
   init opts self = ([], Err (casadi_assert [Str "Residual must be a dense vector"]))) /\
  (input_ok -> output_ok -> residual_ok -> ~ unknown_ok ->
   init opts self = ([], Err (casadi_assert [Str "Unknown must be a dense vector"]))) /\
  (input_ok -> output_ok -> residual_ok -> unknown_ok ->
   nnz_in oracle (iin_ s) <> nnz_out oracle (iout_ s) ->
   init opts self
   = ([], Err (casadi_assert
        [Str "Dimension mismatch. Input size is "; Num (Z.of_nat (nnz_in oracle (iin_ s)));
         Str ", while output size is "; Num (Z.of_nat (nnz_out oracle (iout_ s)))]))).
Proof.
  intros Hread s oracle input_ok output_ok residual_ok unknown_ok.
  assert (Hin_t : input_ok ->
            (0 <=? iin_ s) && (iin_ s <? n_in oracle) && (0 <? n_in oracle) = true).
  { intros [? ?]. apply andb_true_iff. split; [|apply Z.ltb_lt; lia].
    apply andb_true_iff. split; [apply Z.leb_le|apply Z.ltb_lt]; lia. }
  assert (Hin_f : ~ input_ok ->
            (0 <=? iin_ s) && (iin_ s <? n_in oracle) && (0 <? n_in oracle) = false).
  { intros Hn. destruct ((0 <=? iin_ s) && (iin_ s <? n_in oracle) && (0 <? n_in oracle))
      eqn:E; [|reflexivity].
    apply andb_true_iff in E as [E _]. apply andb_true_iff in E as [E1 E2].
    apply Z.leb_le in E1. apply Z.ltb_lt in E2. exfalso. apply Hn. split; assumption. }
  assert (Hout_t : output_ok ->
            (0 <=? iout_ s) && (iout_ s <? n_out oracle) && (0 <? n_out oracle) = true).
  { intros [? ?]. apply andb_true_iff. split; [|apply Z.ltb_lt; lia].
    apply andb_true_iff. split; [apply Z.leb_le|apply Z.ltb_lt]; lia. }
  assert (Hout_f : ~ output_ok ->
            (0 <=? iout_ s) && (iout_ s <? n_out oracle) && (0 <? n_out oracle) = false).
  { intros Hn. destruct ((0 <=? iout_ s) && (iout_ s <? n_out oracle) && (0 <? n_out oracle))
      eqn:E; [|reflexivity].
    apply andb_true_iff in E as [E _]. apply andb_true_iff in E as [E1 E2].
    apply Z.leb_le in E1. apply Z.ltb_lt in E2. exfalso. apply Hn. split; assumption. }
  unfold init. unfold init_defaults in Hread. rewrite Hread.
  change (@pair (list event) (result init_locals) [] (Ok st))
    with (ret (A := init_locals) st).
  rewrite bind_ret. fold s. fold oracle.
  split; [|split; [|split; [|split]]].
  - intros H1. rewrite (Hin_f H1). reflexivity.
  - intros H1 H2. rewrite (Hin_t H1). cbn [casadi_assert_message]. rewrite bind_ret.
    rewrite (Hout_f H2). reflexivity.
  - intros H1 H2 H3. rewrite (Hin_t H1). cbn [casadi_assert_message]. rewrite bind_ret.
    rewrite (Hout_t H2). cbn [casadi_assert_message]. rewrite bind_ret.
    unfold residual_ok in H3. apply not_true_is_false in H3. rewrite H3. reflexivity.
  - intros H1 H2 H3 H4. rewrite (Hin_t H1). cbn [casadi_assert_message]. rewrite bind_ret.
    rewrite (Hout_t H2). cbn [casadi_assert_message]. rewrite bind_ret.
    unfold residual_ok in H3. rewrite H3. cbn [casadi_assert_message]. rewrite bind_ret.
    unfold unknown_ok in H4. apply not_true_is_false in H4. rewrite H4. reflexivity.
  - intros H1 H2 H3 H4 H5. rewrite (Hin_t H1). cbn [casadi_assert_message]. rewrite bind_ret.
    rewrite (Hout_t H2). cbn [casadi_assert_message]. rewrite bind_ret.
    unfold residual_ok in H3. rewrite H3. cbn [casadi_assert_message]. rewrite bind_ret.
    unfold unknown_ok in H4. rewrite H4. cbn [casadi_assert_message]. rewrite bind_ret.
    cbn [n_ set_n_].
    assert (E : (Z.of_nat (nnz_out oracle (iout_ s)) =? Z.of_nat (nnz_in oracle (iin_ s)))
                = false) by (apply Z.eqb_neq; lia).
    fold s. fold oracle. rewrite E. reflexivity.
Qed.

(** X9. What [init] reads from the options is what the node ends up with:
    in a dictionary (no key twice), the value under "implicit_input" becomes
    [iin_], the one under "implicit_output" becomes [iout_] and the one under
    "constraints" becomes [u_c_]. *)
Theorem init_option_taken (opts : Dict) (self s' : Rootfinder) (t : list event) :
  init opts self = (t, Ok s') ->
  NoDup opts.*1 ->
  (forall g, ("implicit_input", g) ∈ opts -> as_int g = Ok (iin_ s')) /\
  (forall g, ("implicit_output", g) ∈ opts -> as_int g = Ok (iout_ s')) /\
  (forall g, ("constraints", g) ∈ opts -> as_int_vector g = Ok (u_c_ s')).
Proof.
  intros Hinit Hnd.
  destruct (init_ok_inv opts self s' t Hinit)
    as (st & jf & ls & _ & Hread & _ & _ & _ & _ & _ & _ & Ein & Eout & Euc & _).
  rewrite Ein, Eout, Euc.
  exact (read_options_taken _ _ _ _ Hread Hnd).
Qed.

(** X10. A node built by the constructor and set up without the keys
    "implicit_input" and "implicit_output" solves for input 0 and output 0,
    the constructor's defaults; without the key "constraints" the constraint
    vector stays as it was; and the oracle of the node is the function the
    constructor was given. *)
Theorem init_defaults_kept (opts : Dict) (base s' : Rootfinder) (oracle : Function)
    (t : list event) :
  init opts (Rootfinder_new base oracle) = (t, Ok s') ->
  ("implicit_input" ∉ opts.*1 -> iin_ s' = 0) /\
  ("implicit_output" ∉ opts.*1 -> iout_ s' = 0) /\
  ("constraints" ∉ opts.*1 -> u_c_ s' = u_c_ base) /\
  oracle_ s' = oracle.
Proof.
  intros Hinit.
  destruct (init_ok_inv _ _ _ _ Hinit)
    as (st & jf & ls & _ & Hread & _ & _ & _ & _ & _ & _ & Ein & Eout & Euc & Eor & _).
  destruct (read_options_other _ _ _ _ Hread) as (K1 & K2 & K3).
  destruct (read_options_frame _ _ _ _ Hread) as (Hor & _).
  rewrite Ein, Eout, Euc, Eor.
  split; [intros Hk; rewrite (K1 Hk); reflexivity|].
  split; [intros Hk; rewrite (K2 Hk); reflexivity|].
  split; [intros Hk; rewrite (K3 Hk); reflexivity|].
  rewrite Hor. reflexivity.
Qed.

(** X11. A wrong-length constraint vector is reported with its length and
    [n], once everything before that check has gone through: the consistency
    checks, the base class, the Jacobian, the singularity check and the
    construction of the linear solver. *)
Theorem init_constraint_message (opts : Dict) (self : Rootfinder) (st : init_locals)
    (jf : Function) (ls : Linsol) :
  read_options opts (init_defaults self) = ([], Ok st) ->
  consistent (self_ st) = true ->
  OracleFunction_init opts (oracle_ (self_ st)) = Ok tt ->
  jac_used st = Ok jf ->
  is_singular (sparsity_out jf 0) = false ->
  Linsol_new "linsol" (linear_solver st) (linear_solver_options st) = Ok ls ->
  u_c_ (self_ st) <> [] ->
  length (u_c_ (self_ st)) <> nnz_out (oracle_ (self_ st)) (iout_ (self_ st)) ->
  init opts self
  = ([], Err (casadi_assert
       [Str "Constraint vector if supplied, must be of length n, but got ";
        Num (Z.of_nat (length (u_c_ (self_ st)))); Str " and n = ";
        Num (Z.of_nat (nnz_out (oracle_ (self_ st)) (iout_ (self_ st))))])).
Proof.
  intros Hread Hgood Hbase Hjac Hsing Hls Hne Hlen.
  run_checks Hread Hgood.
  rewrite Hbase. change (lift (Ok tt)) with (ret tt). rewrite bind_ret.
  assert (Hj : (if is_null (jac st)
                then lift (jacobian (oracle_ (self_ st)) (iin_ (self_ st))
                             (iout_ (self_ st)))
                else ret (jac st)) = ret jf).
  { unfold jac_used in Hjac. destruct (is_null (jac st)).
    - rewrite Hjac. reflexivity.
    - injection Hjac as ->. reflexivity. }
  rewrite Hj, bind_ret.
  cbn [sp_jac_ set_sp_jac_ set_function set_all_functions_]. rewrite Hsing.
  cbn [negb casadi_assert_message]. rewrite bind_ret.
  rewrite Hls. change (lift (Ok ls)) with (ret ls). rewrite bind_ret.
  cbn [u_c_ n_ set_linsol_ set_sp_jac_ set_function set_all_functions_ set_n_].
  assert (E : (Z.of_nat (length (u_c_ (self_ st)))
               =? Z.of_nat (nnz_out (oracle_ (self_ st)) (iout_ (self_ st)))) = false)
    by (apply Z.eqb_neq; lia).
  rewrite E, bool_decide_eq_false_2 by exact Hne. reflexivity.
Qed.

(** X12. Setup and forward mode compose: on a node that [init] accepted,
    [forward] runs to its end for arguments, results and seeds with one
    entry per input or output of the oracle, and hands back one row of
    sensitivities per direction. *)
Theorem init_then_forward (opts : Dict) (self s' : Rootfinder) (t : list event)
    (arg res : list MX) (fseed fsens : list (list MX)) (ai ni : bool) :
  init opts self = (t, Ok s') ->
  fseed <> [] ->
  Z.of_nat (length arg) = n_in (oracle_ s') ->
  Z.of_nat (length res) = n_out (oracle_ s') ->
  Forall (fun row : list MX => Z.of_nat (length row) = n_in (oracle_ s')) fseed ->
  forward_shape (oracle_ s') ->
  split_shape ->
  (forall jf a, all_functions_ s' !! "jac_f_z" = Some jf -> Function_call jf a <> []) ->
  exists trace out,
    forward s' arg res fseed fsens ai ni = (trace, Ok out) /\
    length out = length fseed.
Proof.
  intros Hinit Hne Harg Hres Hseed Hshape Hsplit Hcall.
  destruct (init_accepted _ _ _ _ Hinit)
    as (_ & Hiin & Hiout & _ & _ & _ & _ & _ & _ & _ & (jf & Hjf & _) & _).
  assert (HJ : exists J, jac_expr s' (ift_arg s' arg res) = Some J).
  { unfold jac_expr. rewrite Hjf.
    destruct (Function_call jf (ift_arg s' arg res)) as [|J l] eqn:E.
    - exfalso. exact (Hcall jf _ Hjf E).
    - exists J. reflexivity. }
  destruct HJ as [J HJ].
  assert (Hready : forward_ready s' arg res fseed J).
  { unfold forward_ready, in_range.
    split; [lia|]. split; [lia|].
    split; [eapply Forall_impl; [exact Hseed|]; intros row Hrow; cbn in Hrow; lia|].
    split; [exact HJ|]. split; [exact Hshape|]. split; [exact Hiout|exact Hsplit]. }
  destruct (forward_rows s' arg res fseed fsens ai ni J Hne Hready)
    as (trace & out & Hrun & Hlen & _).
  exists trace, out. split; assumption.
Qed.

End SetupTheorems.

Section SetupExamples.
#[local] Existing Instance Toy.casadi.


Lemma init_first_failure_witness :
  read_options [("implicit_output", Toy.GInt 7)] (init_defaults (Toy.fresh 1))
  = ([], Ok {| self_ := set_iout_ (Toy.fresh 1) 7; linear_solver_options := [];
               linear_solver := "csparse"; jac := Toy.fn_null |}) /\
  init [("implicit_output", Toy.GInt 7)] (Toy.fresh 1)
  = ([], Err (casadi_assert [Str "Implicit output not in range"])).
Proof.
  assert (Hread : read_options [("implicit_output", Toy.GInt 7)]
                    (init_defaults (Toy.fresh 1))
                  = ([], Ok {| self_ := set_iout_ (Toy.fresh 1) 7;
                               linear_solver_options := [];
                               linear_solver := "csparse"; jac := Toy.fn_null |}))
    by reflexivity.
  split; [exact Hread|].
  destruct (init_first_failure (H := Toy.casadi) _ _ _ Hread) as (_ & Hout & _).
  apply Hout; cbn; lia.
Defined.

Lemma init_option_taken_witness :
  init [("implicit_output", Toy.GInt 1)] (Toy.fresh 2)
  = ([], Ok (set_iout_ (Toy.node 2) 1)) /\
  NoDup [("implicit_output", Toy.GInt 1)].*1 /\
  Ok 1 = Ok (iout_ (set_iout_ (Toy.node 2) 1)).
Proof.
  assert (Hinit : init [("implicit_output", Toy.GInt 1)] (Toy.fresh 2)
                  = ([], Ok (set_iout_ (Toy.node 2) 1)))
    by (vm_compute; reflexivity).
  assert (Hnd : NoDup [("implicit_output", Toy.GInt 1)].*1)
    by (cbn; apply NoDup_singleton).
  split; [exact Hinit|]. split; [exact Hnd|].
  destruct (init_option_taken (H := Toy.casadi) _ _ _ _ Hinit Hnd) as (_ & Hout & _).
  apply (Hout (Toy.GInt 1)). apply list_elem_of_singleton. reflexivity.
Defined.

Lemma init_defaults_kept_witness :
  init [] (Rootfinder_new (Toy.base 2) (Toy.fn_oracle 2 2)) = ([], Ok (Toy.node 2)) /\
  oracle_ (Toy.node 2) = Toy.fn_oracle 2 2.
Proof.
  assert (Hinit : init [] (Rootfinder_new (Toy.base 2) (Toy.fn_oracle 2 2))
                  = ([], Ok (Toy.node 2)))
    by (vm_compute; reflexivity).
  split; [exact Hinit|].
  exact (proj2 (proj2 (proj2 (init_defaults_kept (H := Toy.casadi) _ _ _ _ _ Hinit)))).
Defined.

Lemma init_constraint_message_witness :
  exists msg,
    init [("constraints", Toy.GIntVector [1])] (Toy.fresh 1)
    = ([], Err (casadi_assert msg)).
Proof.
  eexists.
  apply (init_constraint_message (H := Toy.casadi)
           [("constraints", Toy.GIntVector [1])] (Toy.fresh 1)
           {| self_ := set_u_c_ (Toy.fresh 1) [1]; linear_solver_options := [];
              linear_solver := "csparse"; jac := Toy.fn_null |}
           (Toy.fn_jac 2) "csparse");
    try reflexivity; cbn; try discriminate; lia.
Defined.

Lemma init_then_forward_witness :
  init [] (Toy.fresh 2) = ([], Ok (Toy.node 2)) /\
  exists trace out,
    forward (Toy.node 2) Toy.arg0 Toy.res0 Toy.fseed0 [] false false = (trace, Ok out) /\
    length out = 1%nat.
Proof.
  assert (Hinit : init [] (Toy.fresh 2) = ([], Ok (Toy.node 2)))
    by (vm_compute; reflexivity).
  split; [exact Hinit|].
  apply (init_then_forward (H := Toy.casadi) [] (Toy.fresh 2) (Toy.node 2) []
           Toy.arg0 Toy.res0 Toy.fseed0 [] false false Hinit).
  - discriminate.
  - reflexivity.
  - reflexivity.
  - repeat constructor.
  - apply toy_forward_shape.
  - apply toy_split_shape.
  - intros jf a Hjf. cbn in Hjf. rewrite lookup_singleton_eq in Hjf.
    injection Hjf as <-. discriminate.
Defined.

End SetupExamples.

(** ** What structural propagation leaves alone *)

Section SpFrameTheorems.
Context `{Casadi}.

Lemma not_in_null_row (t : target) (n i : nat) (x : target) :
  t <> x -> ptr t ∉ <[i := ptr x]> (replicate n null).
Proof.
  intros Hne Hin. apply elem_of_insert_inv in Hin as [E|Hin]; [congruence|].
  apply elem_of_replicate_inv in Hin. discriminate Hin.
Qed.

Lemma not_in_nulled (t : target) (i : nat) (l : list pointer) :
  ptr t ∉ l -> ptr t ∉ <[i := null]> l.
Proof.
  intros Hn Hin. apply elem_of_insert_inv in Hin as [E|Hin]; [discriminate E|].
  contradiction.
Qed.

(** X13. [sp_fwd] writes only behind the pointers of the outputs (and into
    its work vector): every buffer of the caller that is not the buffer of
    an output, the dependency bits of the inputs among them, is on return
    as it was, the oracle writing only behind its own output pointers. *)
Theorem sp_fwd_writes_outputs_only (self : Rootfinder) (arg res : list pointer)
    (m : memory) :
  sp_ready self arg res ->
  sp_fwd_frame (oracle_ self) ->
  exists out,
    sp_fwd self arg res m = ([], Ok out) /\
    forall t, caller_owned t -> ptr t ∉ take (Z.to_nat (this_n_out self)) res ->
              out t = m t.
Proof.
  intros Hready Hframe. eexists. split; [apply sp_fwd_run; exact Hready|].
  intros t [Hn1 Hn2] Hfree.
  pose proof Hready as (_ & _ & Hiout & Hnout & _).
  assert (Hroot : spf_root self arg res m t = m t).
  { unfold spf_root.
    assert (Hsolved : sp_jac_spsolve self Wtmp2 Wtmp1 false
                        (fill_n Wtmp2 (n_ self) 0 (spf_residual self arg m)) t = m t).
    { unfold sp_jac_spsolve, fill_n. rewrite !write_other by congruence.
      unfold spf_residual. apply Hframe. apply not_in_null_row. exact Hn1. }
    destruct (res !! Z.to_nat (iout_ self)) as [[|t0]|] eqn:Er; try exact Hsolved.
    unfold copy_n. rewrite write_other; [exact Hsolved|].
    intros ->. apply Hfree. apply elem_of_take. exists (Z.to_nat (iout_ self)).
    split; [exact Er|lia]. }
  destruct (1 <? this_n_out self); [|exact Hroot].
  rewrite Hframe; [exact Hroot|]. unfold spf_res2. apply not_in_nulled. exact Hfree.
Qed.

(** X14. [sp_rev] writes only behind the pointers of the inputs and of the
    outputs (and into its work vector): every other buffer of the caller is
    on return as it was, the oracle writing only behind the pointers it is
    given. *)
Theorem sp_rev_writes_given_only (self : Rootfinder) (arg res : list pointer)
    (m : memory) :
  sp_ready self arg res ->
  sp_rev_frame (oracle_ self) ->
  exists out,
    sp_rev self arg res m = ([], Ok out) /\
    forall t, caller_owned t ->
              ptr t ∉ take (Z.to_nat (this_n_in self)) arg ->
              ptr t ∉ take (Z.to_nat (this_n_out self)) res ->
              out t = m t.
Proof.
  intros Hready Hframe. eexists. split; [apply sp_rev_run; exact Hready|].
  intros t [Hn1 Hn2] Ha Hr.
  pose proof Hready as (_ & _ & Hiout & Hnout & Hlen).
  rewrite Hframe.
  - rewrite (proj2 (spr_resolved_bits self arg res m Hlen)) by exact Hn2.
    assert (Hext : spr_extracted self res m t = m t).
    { unfold spr_extracted.
      destruct (res !! Z.to_nat (iout_ self)) as [[|t0]|] eqn:Er.
      - unfold fill_n. apply write_other. congruence.
      - unfold fill_n, copy_n. rewrite write_other.
        + apply write_other. congruence.
        + intros ->. apply Hr. apply elem_of_take. exists (Z.to_nat (iout_ self)).
          split; [exact Er|lia].
      - unfold fill_n. apply write_other. congruence. }
    unfold spr_aux. destruct (1 <? this_n_out self); [|exact Hext].
    rewrite Hframe; [exact Hext| |].
    + unfold spr_arg1. intros Hin. apply elem_of_insert_inv in Hin as [E|Hin];
        [congruence|contradiction].
    + unfold spr_res1. apply not_in_nulled. exact Hr.
  - unfold spr_arg2. apply not_in_nulled. exact Ha.
  - unfold spr_res2. apply not_in_null_row. exact Hn2.
Qed.

End SpFrameTheorems.

Section SpFrameExamples.
#[local] Existing Instance Toy.casadi.

Lemma sp_fwd_writes_outputs_only_witness :
  sp_ready (Toy.node 2) Toy.parg0 Toy.pres0 /\
  sp_fwd_frame (oracle_ (Toy.node 2)) /\
  exists out,
    sp_fwd (Toy.node 2) Toy.parg0 Toy.pres0 Toy.mem0 = ([], Ok out) /\
    out (Caller 1) = [1; 2].
Proof.
  pose proof (toy_sp_ready 2 ltac:(lia)) as Hready.
  pose proof (toy_sp_fwd_frame (oracle_ (Toy.node 2))) as Hframe.
  split; [exact Hready|]. split; [exact Hframe|].
  destruct (sp_fwd_writes_outputs_only (Toy.node 2) Toy.parg0 Toy.pres0 Toy.mem0
              Hready Hframe) as (out & Hrun & Hkeep).
  exists out. split; [exact Hrun|].
  apply (Hkeep (Caller 1)); [split; discriminate|].
  cbn. intros Hin. apply list_elem_of_In in Hin. cbn in Hin.
  destruct Hin as [E|[E|[]]]; discriminate E.
Defined.

Lemma sp_rev_writes_given_only_witness :
  sp_ready (Toy.node 2) Toy.parg0 Toy.pres0 /\
  sp_rev_frame (oracle_ (Toy.node 2)) /\
  exists out,
    sp_rev (Toy.node 2) Toy.parg0 Toy.pres0 Toy.mem0 = ([], Ok out) /\
    out (Caller 9) = [0; 0].
Proof.
  pose proof (toy_sp_ready 2 ltac:(lia)) as Hready.
  pose proof (toy_sp_rev_frame (oracle_ (Toy.node 2))) as Hframe.
  split; [exact Hready|]. split; [exact Hframe|].
  destruct (sp_rev_writes_given_only (Toy.node 2) Toy.parg0 Toy.pres0 Toy.mem0
              Hready Hframe) as (out & Hrun & Hkeep).
  exists out. split; [exact Hrun|].
  apply (Hkeep (Caller 9)); [split; discriminate| |].
  - cbn. intros Hin. apply list_elem_of_In in Hin. cbn in Hin.
    destruct Hin as [E|[E|[]]]; discriminate E.
  - cbn. intros Hin. apply list_elem_of_In in Hin. cbn in Hin.
    destruct Hin as [E|[E|[]]]; discriminate E.
Defined.

End SpFrameExamples.

(** ** The guess has no structural influence *)

Section SpGuessTheorems.
Context `{Casadi}.

Lemma write_agree (g t0 : target) (ws : list bvec_t) (m m' : memory) :
  agree_off g m m' -> agree_off g (write t0 ws m) (write t0 ws m').
Proof.
  intros Hag t Ht. unfold write. destruct (decide (t0 = t)) as [->|Hne].
  - rewrite !fn_lookup_insert. rewrite (Hag t Ht). reflexivity.
  - rewrite !fn_lookup_insert_ne by exact Hne. apply Hag. exact Ht.
Qed.

Lemma oracle_fwd_agree (F : Function) (g : target) (args ress : list pointer)
    (m m' : memory) :
  sp_fwd_frame F -> sp_fwd_reads F ->
  ptr g ∉ args ->
  agree_off g m m' ->
  agree_off g (Function_sp_fwd F args ress m) (Function_sp_fwd F args ress m').
Proof.
  intros Hframe Hreads Hg Hag t Ht.
  destruct (decide (ptr t ∈ ress)) as [Hin|Hout].
  - apply Hreads; [|exact Hin]. intros t0 Ht0. apply Hag. intros ->. contradiction.
  - rewrite !Hframe by exact Hout. apply Hag. exact Ht.
Qed.

(** X15. The dependency bits behind the guess have no influence on what
    [sp_fwd] computes: started from two memories that differ only in a
    buffer of the caller that no other input uses, as the buffer of the
    guess, it leaves the same bits in every other buffer. The oracle's
    structural pass is taken to read only behind its input pointers and to
    write only behind its output pointers. *)
Theorem sp_fwd_guess_invariance (self : Rootfinder) (arg res : list pointer)
    (m m' : memory) (g : target) :
  sp_ready self arg res ->
  sp_fwd_frame (oracle_ self) ->
  sp_fwd_reads (oracle_ self) ->
  caller_owned g ->
  ptr g ∉ <[Z.to_nat (iin_ self) := null]> (take (Z.to_nat (this_n_in self)) arg) ->
  agree_off g m m' ->
  exists out out',
    sp_fwd self arg res m = ([], Ok out) /\
    sp_fwd self arg res m' = ([], Ok out') /\
    agree_off g out out'.
Proof.
  intros Hready Hframe Hreads [Hn1 Hn2] Hg Hag.
  eexists _, _. split; [apply sp_fwd_run; exact Hready|].
  split; [apply sp_fwd_run; exact Hready|].
  assert (H1 : agree_off g (spf_residual self arg m) (spf_residual self arg m')).
  { unfold spf_residual. apply oracle_fwd_agree; assumption. }
  assert (H3 : agree_off g
                 (sp_jac_spsolve self Wtmp2 Wtmp1 false
                    (fill_n Wtmp2 (n_ self) 0 (spf_residual self arg m)))
                 (sp_jac_spsolve self Wtmp2 Wtmp1 false
                    (fill_n Wtmp2 (n_ self) 0 (spf_residual self arg m')))).
  { assert (H2 : agree_off g (fill_n Wtmp2 (n_ self) 0 (spf_residual self arg m))
                             (fill_n Wtmp2 (n_ self) 0 (spf_residual self arg m')))
      by (apply write_agree; exact H1).
    unfold sp_jac_spsolve, read.
    rewrite (H2 Wtmp2) by congruence. rewrite (H2 Wtmp1) by congruence.
    apply write_agree. exact H2. }
  assert (Hroot : agree_off g (spf_root self arg res m) (spf_root self arg res m')).
  { unfold spf_root. destruct (res !! Z.to_nat (iout_ self)) as [[|t0]|]; try exact H3.
    unfold copy_n, read. rewrite (H3 Wtmp2) by congruence.
    apply write_agree. exact H3. }
  destruct (1 <? this_n_out self); [|exact Hroot].
  apply oracle_fwd_agree; try assumption.
  unfold spf_arg2. intros Hin. apply Hg.
  eapply elem_of_insert_swap; [exact Hin|congruence].
Qed.

End SpGuessTheorems.

Section SpGuessExamples.
#[local] Existing Instance Toy.casadi.

Lemma sp_fwd_guess_invariance_witness :
  agree_off (Caller 0) Toy.mem0 Toy.mem_guess /\
  exists out out',
    sp_fwd (Toy.node 2) Toy.parg0 Toy.pres0 Toy.mem0 = ([], Ok out) /\
    sp_fwd (Toy.node 2) Toy.parg0 Toy.pres0 Toy.mem_guess = ([], Ok out') /\
    out (Caller 3) = out' (Caller 3).
Proof.
  assert (Hag : agree_off (Caller 0) Toy.mem0 Toy.mem_guess).
  { intros [| |[|l]] Ht; try reflexivity. congruence. }
  split; [exact Hag|].
  destruct (sp_fwd_guess_invariance (Toy.node 2) Toy.parg0 Toy.pres0
              Toy.mem0 Toy.mem_guess (Caller 0)
              (toy_sp_ready 2 ltac:(lia)) (toy_sp_fwd_frame _) (toy_sp_fwd_reads _))
    as (out & out' & Hrun & Hrun' & Hsame).
  - split; discriminate.
  - cbn. intros Hin. apply list_elem_of_In in Hin. cbn in Hin.
    destruct Hin as [E|[E|[]]]; discriminate E.
  - exact Hag.
  - exists out, out'. split; [exact Hrun|]. split; [exact Hrun'|].
    apply Hsame. discriminate.
Defined.

End SpGuessExamples.

(** ** The derivative functions *)

Section DerivativeFacts.
Context `{Symbolic}.

Lemma gather_run (n : Z) (table : list (list MX)) (i : nat) (v : list MX) :
  n = Z.of_nat (length table) ->
  length v = length table ->
  Forall (fun row : list MX => (i < length row)%nat) table ->
  gather n table (Z.of_nat i) v = ret ((fun row : list MX => row !!! i) <$> table).
Proof.
  intros Hn Hv Hrows. unfold gather.
  rewrite (for_rows_n (fun d _ => (table !!! d) !!! i) _ n v); [|lia|].
  - f_equal. apply list_eq. intros d. rewrite list_lookup_imap, list_lookup_fmap.
    destruct (table !! d) as [row|] eqn:Er.
    + destruct (lookup_lt_is_Some_2 v d) as [x Hx];
        [apply lookup_lt_Some in Er; lia|].
      rewrite Hx. cbn. rewrite (list_lookup_total_correct _ _ _ Er). reflexivity.
    + rewrite (lookup_ge_None_2 v) by (apply lookup_ge_None in Er; lia). reflexivity.
  - intros d x s Hx Hs _.
    destruct (lookup_lt_is_Some_2 table d) as [row Hrow];
      [apply lookup_lt_Some in Hx; lia|].
    rewrite Forall_lookup in Hrows. specialize (Hrows d row Hrow).
    destruct (lookup_lt_is_Some_2 row i Hrows) as [y Hy].
    rewrite index_of_nat, Hrow, bind_ret, index_of_nat, Hy, bind_ret.
    rewrite (set_index_here _ _ x) by exact Hs.
    rewrite (list_lookup_total_correct _ _ _ Hrow).
    rewrite (list_lookup_total_correct _ _ _ Hy). reflexivity.
Qed.

Lemma stack_columns_run (count : nat) (n : Z) (table : list (list MX))
    (v acc : list MX) :
  table_shape n (Z.of_nat count) table ->
  length v = length table ->
  exists v',
    stack_columns (Z.of_nat count) n table v acc
    = ret (v', acc ++ (stacked table <$> seq 0 count)) /\
    length v' = length table.
Proof.
  intros [Hn Hrows] Hv. unfold stack_columns.
  destruct (for_inv
    (fun i (st : list MX * list MX) =>
       length st.1 = length table /\ st.2 = acc ++ (stacked table <$> seq 0 i))
    (fun i '(v, acc) => v <- gather n table i v ;; ret (v, acc ++ [horzcat v]))
    count (v, acc)) as ([v' acc'] & E & Hl & Hacc).
  - cbn. split; [exact Hv|]. rewrite app_nil_r. reflexivity.
  - intros i [v0 acc0] Hi [Hl0 Hacc0]. cbn in Hl0, Hacc0. eexists (_, _). split.
    + rewrite gather_run; [rewrite bind_ret; reflexivity|lia|exact Hl0|].
      eapply Forall_impl; [exact Hrows|]. intros row Hrow. cbn in Hrow. lia.
    + split; [apply length_fmap|].
      cbn [snd]. rewrite Hacc0, seq_S, fmap_app, app_assoc. reflexivity.
  - exists v'. cbn in Hl, Hacc. rewrite E, Hacc. split; [reflexivity|exact Hl].
Qed.

Lemma vector_of_size_run (n : Z) :
  0 <= n -> vector_of_size n = ret (replicate (Z.to_nat n) MX_default).
Proof.
  intros Hn. unfold vector_of_size.
  destruct (Z.ltb_spec n 0); [lia|reflexivity].
Qed.

End DerivativeFacts.

Section DerivativeTheorems.
Context `{Symbolic}.

(** X16. The function [get_forward] builds has the calling convention of
    a forward derivative: its inputs are the node's inputs with the unknown
    renamed to a guess, then the node's outputs, then for every input the
    seeds of all directions stacked horizontally; its outputs are, for every
    output, the sensitivities [forward] computed, stacked the same way. The
    calls made are those of [forward] on the symbolic seeds. *)
Theorem get_forward_layout (self : Rootfinder) (name : string) (nfwd : Z)
    (i_names o_names : list string) (opts : Dict)
    (trace : list event) (fsens : list (list MX)) :
  in_range (iin_ self) (mx_in self) ->
  0 <= this_n_in self -> 0 <= this_n_out self ->
  let arg := symbolic_arg self in
  let res := mx_out self in
  let fseed := symbolicFwdSeed nfwd arg in
  table_shape nfwd (this_n_in self) fseed ->
  forward self arg res fseed [] false false = (trace, Ok fsens) ->
  table_shape nfwd (this_n_out self) fsens ->
  get_forward self name nfwd i_names o_names opts
  = (trace,
     Ok (Function_new name
           (arg ++ res ++ (stacked fseed <$> seq 0 (Z.to_nat (this_n_in self))))
           (stacked fsens <$> seq 0 (Z.to_nat (this_n_out self)))
           i_names o_names opts)).
Proof.
  intros Hiin Hnin Hnout arg res fseed Hseed Hfwd Hsens.
  unfold get_forward.
  destruct (in_range_lookup _ _ Hiin) as [x Hx].
  eapply bind_step; [apply index_ok; [apply Hiin|exact Hx]|].
  eapply bind_step; [apply set_index_ok; exact Hiin|].
  assert (Earg : <[Z.to_nat (iin_ self) :=
                     MX_sym (MX_name x +:+ "_guess") (Sparsity_new (MX_size x))]>
                   (mx_in self) = arg).
  { unfold arg, symbolic_arg, guess_symbol.
    rewrite (list_lookup_total_correct _ _ _ Hx). reflexivity. }
  rewrite Earg. fold res. fold fseed. rewrite Hfwd.
  assert (Hn : 0 <= nfwd) by (destruct Hseed as [Hs _]; lia).
  unfold bind at 1.
  match goal with |- (let '(t', r) := ?k in _) = _ => assert (Hk : k =
       ([], Ok (Function_new name
                   (arg ++ res ++ (stacked fseed <$> seq 0 (Z.to_nat (this_n_in self))))
                   (stacked fsens <$> seq 0 (Z.to_nat (this_n_out self)))
                   i_names o_names opts))) end.
  { rewrite vector_of_size_run by exact Hn. rewrite bind_ret.
    destruct (stack_columns_run (Z.to_nat (this_n_in self)) nfwd fseed
                (replicate (Z.to_nat nfwd) MX_default) (arg ++ res))
      as (v1 & E1 & Hv1).
    { rewrite Z2Nat.id by exact Hnin. exact Hseed. }
    { rewrite length_replicate. destruct Hseed as [Hs _]. lia. }
    rewrite Z2Nat.id in E1 by exact Hnin. rewrite E1, bind_ret.
    destruct (stack_columns_run (Z.to_nat (this_n_out self)) nfwd fsens v1 [])
      as (v2 & E2 & Hv2).
    { rewrite Z2Nat.id by exact Hnout. exact Hsens. }
    { rewrite Hv1. destruct Hseed as [Hs _]. destruct Hsens as [Hf _]. lia. }
    rewrite Z2Nat.id in E2 by exact Hnout. rewrite E2, bind_ret.
    rewrite <- app_assoc. reflexivity. }
  rewrite Hk. rewrite app_nil_r. reflexivity.
Qed.

(** X17. The function [get_reverse] builds has the calling convention of
    an adjoint derivative: its inputs are the node's inputs with the unknown
    renamed to a guess, then the node's outputs, then for every output the
    adjoint seeds of all directions stacked horizontally; its outputs are,
    for every input, the adjoint sensitivities [reverse] computed, stacked
    the same way. The calls made are those of [reverse] on the symbolic
    seeds. *)
Theorem get_reverse_layout (self : Rootfinder) (name : string) (nadj : Z)
    (i_names o_names : list string) (opts : Dict)
    (trace : list event) (asens : list (list MX)) :
  in_range (iin_ self) (mx_in self) ->
  0 <= this_n_in self -> 0 <= this_n_out self ->
  let arg := symbolic_arg self in
  let res := mx_out self in
  let aseed := symbolicAdjSeed nadj res in
  table_shape nadj (this_n_out self) aseed ->
  reverse self arg res aseed [] false false = (trace, Ok asens) ->
  table_shape nadj (this_n_in self) asens ->
  get_reverse self name nadj i_names o_names opts
  = (trace,
     Ok (Function_new name
           (arg ++ res ++ (stacked aseed <$> seq 0 (Z.to_nat (this_n_out self))))
           (stacked asens <$> seq 0 (Z.to_nat (this_n_in self)))
           i_names o_names opts)).
Proof.
  intros Hiin Hnin Hnout arg res aseed Hseed Hrev Hsens.
  unfold get_reverse.
  destruct (in_range_lookup _ _ Hiin) as [x Hx].
  eapply bind_step; [apply index_ok; [apply Hiin|exact Hx]|].
  eapply bind_step; [apply set_index_ok; exact Hiin|].
  assert (Earg : <[Z.to_nat (iin_ self) :=
                     MX_sym (MX_name x +:+ "_guess") (Sparsity_new (MX_size x))]>
                   (mx_in self) = arg).
  { unfold arg, symbolic_arg, guess_symbol.
    rewrite (list_lookup_total_correct _ _ _ Hx). reflexivity. }
  rewrite Earg. fold res. fold aseed. rewrite Hrev.
  assert (Hn : 0 <= nadj) by (destruct Hseed as [Hs _]; lia).
  unfold bind at 1.
  match goal with |- (let '(t', r) := ?k in _) = _ => assert (Hk : k =
       ([], Ok (Function_new name
                   (arg ++ res ++ (stacked aseed <$> seq 0 (Z.to_nat (this_n_out self))))
                   (stacked asens <$> seq 0 (Z.to_nat (this_n_in self)))
                   i_names o_names opts))) end.
  { rewrite vector_of_size_run by exact Hn. rewrite bind_ret.
    destruct (stack_columns_run (Z.to_nat (this_n_out self)) nadj aseed
                (replicate (Z.to_nat nadj) MX_default) (arg ++ res))
      as (v1 & E1 & Hv1).
    { rewrite Z2Nat.id by exact Hnout. exact Hseed. }
    { rewrite length_replicate. destruct Hseed as [Hs _]. lia. }
    rewrite Z2Nat.id in E1 by exact Hnout. rewrite E1, bind_ret.
    destruct (stack_columns_run (Z.to_nat (this_n_in self)) nadj asens v1 [])
      as (v2 & E2 & Hv2).
    { rewrite Z2Nat.id by exact Hnin. exact Hsens. }
    { rewrite Hv1. destruct Hseed as [Hs _]. destruct Hsens as [Hf _]. lia. }
    rewrite Z2Nat.id in E2 by exact Hnin. rewrite E2, bind_ret.
    rewrite <- app_assoc. reflexivity. }
  rewrite Hk. rewrite app_nil_r. reflexivity.
Qed.

End DerivativeTheorems.

Section DerivativeExamples.
#[local] Existing Instance Toy.casadi.
#[local] Existing Instance Toy.symbolic.

Lemma get_forward_layout_witness :
  in_range (iin_ (Toy.node 2)) (mx_in (Toy.node 2)) /\
  table_shape 2 (this_n_in (Toy.node 2))
    (symbolicFwdSeed 2 (symbolic_arg (Toy.node 2))) /\
  exists trace fsens,
    forward (Toy.node 2) (symbolic_arg (Toy.node 2)) (mx_out (Toy.node 2))
      (symbolicFwdSeed 2 (symbolic_arg (Toy.node 2))) [] false false
    = (trace, Ok fsens) /\
    table_shape 2 (this_n_out (Toy.node 2)) fsens /\
    get_forward (Toy.node 2) "fwd2_F" 2 ["z0"; "p"] ["z"; "y"] []
    = (trace, Ok (Toy.fn_oracle 6 2)).
Proof.
  assert (Hiin : in_range (iin_ (Toy.node 2)) (mx_in (Toy.node 2)))
    by (unfold in_range; cbn; lia).
  assert (Hseed : table_shape 2 (this_n_in (Toy.node 2))
                    (symbolicFwdSeed 2 (symbolic_arg (Toy.node 2)))).
  { split; [reflexivity|]. vm_compute.
    repeat (apply Forall_cons_2; [discriminate|]). apply Forall_nil_2. }
  split; [exact Hiin|]. split; [exact Hseed|].
  eexists _, _.
  match goal with |- ?A /\ _ => assert (Hrun : A) by (vm_compute; reflexivity) end.
  split; [exact Hrun|].
  match goal with |- ?A /\ _ => assert (Hsens : A) end.
  { split; [reflexivity|]. vm_compute.
    repeat (apply Forall_cons_2; [discriminate|]). apply Forall_nil_2. }
  split; [exact Hsens|].
  refine (get_forward_layout (Toy.node 2) "fwd2_F" 2 ["z0"; "p"] ["z"; "y"] [] _ _
            Hiin _ _ Hseed Hrun Hsens); cbn; lia.
Defined.

Lemma get_reverse_layout_witness :
  in_range (iin_ (Toy.node 2)) (mx_in (Toy.node 2)) /\
  table_shape 2 (this_n_out (Toy.node 2))
    (symbolicAdjSeed 2 (mx_out (Toy.node 2))) /\
  exists trace asens,
    reverse (Toy.node 2) (symbolic_arg (Toy.node 2)) (mx_out (Toy.node 2))
      (symbolicAdjSeed 2 (mx_out (Toy.node 2))) [] false false
    = (trace, Ok asens) /\
    table_shape 2 (this_n_in (Toy.node 2)) asens /\
    get_reverse (Toy.node 2) "adj2_F" 2 ["z0"; "p"] ["z"; "y"] []
    = (trace, Ok (Toy.fn_oracle 6 2)).
Proof.
  assert (Hiin : in_range (iin_ (Toy.node 2)) (mx_in (Toy.node 2)))
    by (unfold in_range; cbn; lia).
  assert (Hseed : table_shape 2 (this_n_out (Toy.node 2))
                    (symbolicAdjSeed 2 (mx_out (Toy.node 2)))).
  { split; [reflexivity|]. vm_compute.
    repeat (apply Forall_cons_2; [discriminate|]). apply Forall_nil_2. }
  split; [exact Hiin|]. split; [exact Hseed|].
  eexists _, _.
  match goal with |- ?A /\ _ => assert (Hrun : A) by (vm_compute; reflexivity) end.
  split; [exact Hrun|].
  match goal with |- ?A /\ _ => assert (Hsens : A) end.
  { split; [reflexivity|]. vm_compute.
    repeat (apply Forall_cons_2; [discriminate|]). apply Forall_nil_2. }
  split; [exact Hsens|].
  refine (get_reverse_layout (Toy.node 2) "adj2_F" 2 ["z0"; "p"] ["z"; "y"] [] _ _
            Hiin _ _ Hseed Hrun Hsens); cbn; lia.
Defined.

End DerivativeExamples.
